(** * The application herder (app_herder.go): memory-quota admission control

    A shallow embedding of the herder of src/unnamed/part_000 and the
    properties its specification states about it.

    - 64-bit integers are [Z] with the wrap-around of Go written out
      ([wrap_u64] for uint64, [wrap_i64] for int64 and int).
    - The index registry [map[interface{}]sizeFunc] is a [gmap].
    - The herder is shared by many goroutines.  Every public operation is
      a small program whose atomic actions (lock, unlock, channel send,
      condition wait, atomic add, a statement under the lock) are the
      steps of [gstep]; each program point names the source lines it
      stands for.  A [System] is the herder, the external world it reads
      and a pool of goroutines; [sstep] interleaves them.
    - [log.Printf] calls have no effect on the herder and are left out.
    - The adapters [queryHerderOnEvent], [onMossEvent] and
      [onScorchEvent] dispatch an engine event to one of the
      operations below; [mossSize] and [scorchSize] read statistics of
      the engines and are callbacks of type [sizeFunc].
    - The gRPC client of src/grpc_client.go comes after the herder:
      Go strings are [string]s of bytes, the clients that
      [GroupGrpcClientsByHostPort] makes live in a store of pointers,
      and what the client calls in other packages is a parameter of
      the function that calls it. *)

From stdpp Require Import gmap list fin_maps strings.
From Stdlib Require Import ZArith Lia Ascii.

Local Open Scope Z_scope.

(** ** Machine integers *)

(** uint64 arithmetic: results are reduced modulo 2^64. *)
Definition wrap_u64 (x : Z) : Z := x mod 2 ^ 64.

(** int64 arithmetic and the conversion [int64(x)] of a uint64: two's
    complement, the result lies in [-2^63, 2^63). *)
Definition wrap_i64 (x : Z) : Z := (x + 2 ^ 63) mod 2 ^ 64 - 2 ^ 63.

#[global] Arguments wrap_u64 : simpl never.
#[global] Arguments wrap_i64 : simpl never.

Definition is_u64 (x : Z) : Prop := 0 <= x < 2 ^ 64.
Definition is_i64 (x : Z) : Prop := - 2 ^ 63 <= x < 2 ^ 63.

(** ** The world outside the herder *)

(** An index identity: the [interface{}] key of the registry. *)
Definition handle := positive.

(** The atomic counters of package cbft the herder loads, and the memory
    the engines report when a size callback asks them. *)
Record World := {
  CurMemoryUsed : Z;       (* cbft.CurMemoryUsed, uint64: process memory *)
  BatchBytesAdded : Z;     (* cbft.BatchBytesAdded, uint64 *)
  BatchBytesRemoved : Z;   (* cbft.BatchBytesRemoved, uint64 *)
  engineBytes : handle -> Z (* what an engine reports right now *)
}.

(** [type sizeFunc func(interface{}) uint64]: a callback; it reads the
    engine's statistics, which live in the world. *)
Definition sizeFunc := World -> handle -> Z.

(** A callback that reports the engine's memory as it is (the shape of
    [mossSize] and of the last line of [scorchSize]). *)
Definition engineSize : sizeFunc := fun w c => wrap_u64 (engineBytes w c).

(** ** Channels, mutex, condition variable *)

(** A [chan struct{}]: capacity, number of buffered elements, number of
    receivers parked on it. *)
Record chan := {
  ch_cap : Z;
  ch_len : Z;
  ch_recvq : Z
}.

(** [ch <- struct{}{}]: hands the element to a parked receiver, or
    buffers it; [None] when the sender would have to park. *)
Definition chansend (ch : chan) : option chan :=
  if 0 <? ch_recvq ch then
    Some {| ch_cap := ch_cap ch; ch_len := ch_len ch; ch_recvq := ch_recvq ch - 1 |}
  else if ch_len ch <? ch_cap ch then
    Some {| ch_cap := ch_cap ch; ch_len := ch_len ch + 1; ch_recvq := ch_recvq ch |}
  else None.

(** [<-ch] by the consumer: takes a buffered element or parks. *)
Definition chanrecv (ch : chan) : chan :=
  if 0 <? ch_len ch then
    {| ch_cap := ch_cap ch; ch_len := ch_len ch - 1; ch_recvq := ch_recvq ch |}
  else
    {| ch_cap := ch_cap ch; ch_len := ch_len ch; ch_recvq := ch_recvq ch + 1 |}.

(** ** The herder *)

Record appHerderStats := {
  TotWaitingIn : Z;
  TotWaitingOut : Z;
  TotOnBatchExecuteStartBeg : Z;
  TotOnBatchExecuteStartEnd : Z
}.

(** [m] is [None] when the mutex is free and [Some g] when goroutine [g]
    holds it; [waitCond] lists the goroutines parked in [Wait]. *)
Record appHerder := {
  memQuota : Z;
  appQuota : Z;
  indexQuota : Z;
  queryQuota : Z;
  overQuotaCh : option chan;
  m : option nat;
  waitCond : list nat;
  waiting : Z;
  indexes : gmap handle sizeFunc;
  runningQueryUsed : Z;
  stats : appHerderStats
}.

(** [rest.ErrorSearchReqRejected]; the error [nil] is [None]. *)
Inductive error := ErrorSearchReqRejected.

(** Field updates. *)
Definition set_overQuotaCh (c : option chan) (a : appHerder) : appHerder :=
  {| memQuota := memQuota a; appQuota := appQuota a; indexQuota := indexQuota a;
     queryQuota := queryQuota a; overQuotaCh := c; m := m a;
     waitCond := waitCond a; waiting := waiting a; indexes := indexes a;
     runningQueryUsed := runningQueryUsed a; stats := stats a |}.

Definition set_m (o : option nat) (a : appHerder) : appHerder :=
  {| memQuota := memQuota a; appQuota := appQuota a; indexQuota := indexQuota a;
     queryQuota := queryQuota a; overQuotaCh := overQuotaCh a; m := o;
     waitCond := waitCond a; waiting := waiting a; indexes := indexes a;
     runningQueryUsed := runningQueryUsed a; stats := stats a |}.

Definition set_waitCond (l : list nat) (a : appHerder) : appHerder :=
  {| memQuota := memQuota a; appQuota := appQuota a; indexQuota := indexQuota a;
     queryQuota := queryQuota a; overQuotaCh := overQuotaCh a; m := m a;
     waitCond := l; waiting := waiting a; indexes := indexes a;
     runningQueryUsed := runningQueryUsed a; stats := stats a |}.

Definition set_waiting (n : Z) (a : appHerder) : appHerder :=
  {| memQuota := memQuota a; appQuota := appQuota a; indexQuota := indexQuota a;
     queryQuota := queryQuota a; overQuotaCh := overQuotaCh a; m := m a;
     waitCond := waitCond a; waiting := n; indexes := indexes a;
     runningQueryUsed := runningQueryUsed a; stats := stats a |}.

Definition set_indexes (i : gmap handle sizeFunc) (a : appHerder) : appHerder :=
  {| memQuota := memQuota a; appQuota := appQuota a; indexQuota := indexQuota a;
     queryQuota := queryQuota a; overQuotaCh := overQuotaCh a; m := m a;
     waitCond := waitCond a; waiting := waiting a; indexes := i;
     runningQueryUsed := runningQueryUsed a; stats := stats a |}.

Definition set_runningQueryUsed (n : Z) (a : appHerder) : appHerder :=
  {| memQuota := memQuota a; appQuota := appQuota a; indexQuota := indexQuota a;
     queryQuota := queryQuota a; overQuotaCh := overQuotaCh a; m := m a;
     waitCond := waitCond a; waiting := waiting a; indexes := indexes a;
     runningQueryUsed := n; stats := stats a |}.

Definition set_stats (s : appHerderStats) (a : appHerder) : appHerder :=
  {| memQuota := memQuota a; appQuota := appQuota a; indexQuota := indexQuota a;
     queryQuota := queryQuota a; overQuotaCh := overQuotaCh a; m := m a;
     waitCond := waitCond a; waiting := waiting a; indexes := indexes a;
     runningQueryUsed := runningQueryUsed a; stats := s |}.

(** [atomic.AddUint64(&a.stats.X, 1)] for each of the four counters. *)
Definition add_TotWaitingIn (a : appHerder) : appHerder :=
  set_stats {| TotWaitingIn := wrap_u64 (TotWaitingIn (stats a) + 1);
               TotWaitingOut := TotWaitingOut (stats a);
               TotOnBatchExecuteStartBeg := TotOnBatchExecuteStartBeg (stats a);
               TotOnBatchExecuteStartEnd := TotOnBatchExecuteStartEnd (stats a) |} a.

Definition add_TotWaitingOut (a : appHerder) : appHerder :=
  set_stats {| TotWaitingIn := TotWaitingIn (stats a);
               TotWaitingOut := wrap_u64 (TotWaitingOut (stats a) + 1);
               TotOnBatchExecuteStartBeg := TotOnBatchExecuteStartBeg (stats a);
               TotOnBatchExecuteStartEnd := TotOnBatchExecuteStartEnd (stats a) |} a.

Definition add_TotOnBatchExecuteStartBeg (a : appHerder) : appHerder :=
  set_stats {| TotWaitingIn := TotWaitingIn (stats a);
               TotWaitingOut := TotWaitingOut (stats a);
               TotOnBatchExecuteStartBeg := wrap_u64 (TotOnBatchExecuteStartBeg (stats a) + 1);
               TotOnBatchExecuteStartEnd := TotOnBatchExecuteStartEnd (stats a) |} a.

Definition add_TotOnBatchExecuteStartEnd (a : appHerder) : appHerder :=
  set_stats {| TotWaitingIn := TotWaitingIn (stats a);
               TotWaitingOut := TotWaitingOut (stats a);
               TotOnBatchExecuteStartBeg := TotOnBatchExecuteStartBeg (stats a);
               TotOnBatchExecuteStartEnd := wrap_u64 (TotOnBatchExecuteStartEnd (stats a) + 1) |} a.

(** [newAppHerder], lines 56-90.  The three quotas are products of
    float64 values (lines 64-66); they are taken here as already
    computed.  Everything else starts at its zero value. *)
Definition newAppHerder (memQ appQ indexQ queryQ : Z) (ch : option chan) : appHerder :=
  {| memQuota := memQ; appQuota := appQ; indexQuota := indexQ;
     queryQuota := queryQ; overQuotaCh := ch; m := None; waitCond := [];
     waiting := 0; indexes := ∅; runningQueryUsed := 0;
     stats := {| TotWaitingIn := 0; TotWaitingOut := 0;
                 TotOnBatchExecuteStartBeg := 0;
                 TotOnBatchExecuteStartEnd := 0 |} |}.

(** ** Helpers that run with the lock held *)

(** [indexingMemoryLOCKED], lines 180-186: the uint64 sum of every
    registered size callback applied to its own index. *)
Definition indexingMemoryLOCKED (w : World) (a : appHerder) : Z :=
  map_fold (fun index (indexSizeFunc : sizeFunc) rv =>
              wrap_u64 (rv + indexSizeFunc w index)) 0 (indexes a).

(** [preIndexingMemoryLOCKED], lines 188-194. *)
Definition preIndexingMemoryLOCKED (w : World) : Z :=
  wrap_u64 (0 + wrap_u64 (BatchBytesAdded w - BatchBytesRemoved w)).

(** The [memUsed] of lines 206-211. *)
Definition indexingMemUsed (w : World) : Z :=
  wrap_i64 (wrap_i64 (CurMemoryUsed w) + wrap_i64 (preIndexingMemoryLOCKED w)).

(** [overMemQuotaForIndexingLOCKED], lines 196-221. *)
Definition overMemQuotaForIndexingLOCKED (w : World) (a : appHerder) : bool :=
  if indexingMemoryLOCKED w a =? 0 then false
  else
    let memUsed := indexingMemUsed w in
    if (indexQuota a >? 0) && (memUsed >? indexQuota a) then true
    else (appQuota a >? 0) && (memUsed >? appQuota a).

(** ** Synchronisation primitives *)

(** What a step does that another goroutine or the consumer of the
    channel can observe. *)
Inductive event := EvLock | EvUnlock | EvSend | EvWait | EvBroadcast.

(** [a.m.Lock()]: taken when free; the caller parks otherwise. *)
Definition Lock (g : nat) (a : appHerder) : option appHerder :=
  match m a with
  | None => Some (set_m (Some g) a)
  | Some _ => None
  end.

(** [a.m.Unlock()]. *)
Definition Unlock (a : appHerder) : appHerder := set_m None a.

(** [a.waitCond.Broadcast()]: every parked goroutine is released. *)
Definition Broadcast (a : appHerder) : appHerder := set_waitCond [] a.

(** The first half of [a.waitCond.Wait()]: the caller joins the notify
    list and releases the mutex. *)
Definition WaitPark (g : nat) (a : appHerder) : appHerder :=
  set_m None (set_waitCond (g :: waitCond a) a).

(** The send of lines 157-159, 281-283 and 295-297: skipped when the
    channel is nil, otherwise a blocking send. *)
Definition sendOverQuota (a : appHerder) : option (appHerder * list event) :=
  match overQuotaCh a with
  | None => Some (a, [])
  | Some ch =>
      match chansend ch with
      | Some ch' => Some (set_overQuotaCh (Some ch') a, [EvSend])
      | None => None
      end
  end.

(** [awakeWaitersLOCKED], lines 120-127. *)
Definition awakeWaitersLOCKED (a : appHerder) : appHerder * list event :=
  if waiting a >? 0 then (Broadcast a, [EvBroadcast]) else (a, []).

(** ** The operations as goroutines *)

(** The public operations of the herder. *)
Inductive call :=
| OnClose (c : handle)
| OnMemoryUsedDropped (curMemoryUsed prevMemoryUsed : Z)
| OnPersisterProgress
| OnMergerProgress
| OnBatchExecuteStart (c : handle) (s : sizeFunc)
| OnQueryStart (depth size : Z)
| OnQueryEnd (depth size : Z).

(** Where a goroutine stands inside an operation, with the locals it
    still needs.  [Returned r] is a finished call and its error. *)
Inductive goroutine :=
| Returned (r : option error)
(* onClose, lines 103-108 *)
| Close_lock (c : handle)            (* 104 *)
| Close_delete (c : handle)          (* 105 *)
| Close_awake                        (* 106 *)
| Close_unlock                       (* 107 *)
(* awakeWaiters, lines 114-118 *)
| Awake_lock                         (* 115 *)
| Awake_awake                        (* 116 *)
| Awake_unlock                       (* 117 *)
(* onBatchExecuteStart, lines 129-178 *)
| Batch_entry (c : handle) (s : sizeFunc)    (* 134 *)
| Batch_beg (c : handle) (s : sizeFunc)      (* 138 *)
| Batch_lock (c : handle) (s : sizeFunc)     (* 140 *)
| Batch_register (c : handle) (s : sizeFunc) (* 142-144 *)
| Batch_loop (wasWaiting : bool)             (* 146 *)
| Batch_in                                   (* 147-149 *)
| Batch_incr                                 (* 150 *)
| Batch_send                                 (* 157-159 *)
| Batch_wait                                 (* 161: park, release *)
| Batch_parked                               (* 161: woken, re-lock *)
| Batch_decr                                 (* 163 *)
| Batch_out                                  (* 164 *)
| Batch_unlock (wasWaiting : bool)           (* 170-175 *)
| Batch_end                                  (* 177 *)
(* onQueryStart, lines 248-308 *)
| Query_entry (depth size : Z)       (* 253 *)
| Query_lock (depth size : Z)        (* 257 *)
| Query_check (depth size : Z)       (* 265-301 *)
| Query_reject_unlock                (* 279, 293 *)
| Query_reject_send                  (* 281-285, 295-299 *)
| Query_add (size : Z)               (* 304 *)
| Query_unlock                       (* 306-307 *)
(* onQueryEnd, lines 310-317 *)
| QueryEnd_lock (size : Z)           (* 311 *)
| QueryEnd_sub (size : Z)            (* 312 *)
| QueryEnd_awake                     (* 313 *)
| QueryEnd_unlock.                   (* 314-316 *)

(** The first program point of a call. *)
Definition start (c : call) : goroutine :=
  match c with
  | OnClose c => Close_lock c
  | OnMemoryUsedDropped _ _ => Awake_lock
  | OnPersisterProgress => Awake_lock
  | OnMergerProgress => Awake_lock
  | OnBatchExecuteStart c s => Batch_entry c s
  | OnQueryStart depth size => Query_entry depth size
  | OnQueryEnd depth size => QueryEnd_lock size
  end.

(** The [memUsed] of lines 267-270. *)
Definition queryMemUsed (w : World) (size : Z) : Z :=
  wrap_i64 (wrap_i64 (CurMemoryUsed w) + wrap_i64 size).

(** One atomic action of goroutine [g], which stands at [p]: the herder
    after it, the next program point and what was observable.  [None]
    when the goroutine cannot move: it has returned, or it is parked on
    the mutex, on the channel or on the condition variable. *)
Definition gstep (g : nat) (w : World) (a : appHerder) (p : goroutine)
  : option (appHerder * goroutine * list event) :=
  match p with
  | Returned _ => None
  (* onClose *)
  | Close_lock c =>
      match Lock g a with
      | Some a' => Some (a', Close_delete c, [EvLock])
      | None => None
      end
  | Close_delete c => Some (set_indexes (delete c (indexes a)) a, Close_awake, [])
  | Close_awake => let '(a', evs) := awakeWaitersLOCKED a in Some (a', Close_unlock, evs)
  | Close_unlock => Some (Unlock a, Returned None, [EvUnlock])
  (* awakeWaiters *)
  | Awake_lock =>
      match Lock g a with
      | Some a' => Some (a', Awake_awake, [EvLock])
      | None => None
      end
  | Awake_awake => let '(a', evs) := awakeWaitersLOCKED a in Some (a', Awake_unlock, evs)
  | Awake_unlock => Some (Unlock a, Returned None, [EvUnlock])
  (* onBatchExecuteStart *)
  | Batch_entry c s =>
      if indexQuota a <? 0 then Some (a, Returned None, [])
      else Some (a, Batch_beg c s, [])
  | Batch_beg c s => Some (add_TotOnBatchExecuteStartBeg a, Batch_lock c s, [])
  | Batch_lock c s =>
      match Lock g a with
      | Some a' => Some (a', Batch_register c s, [EvLock])
      | None => None
      end
  | Batch_register c s => Some (set_indexes (<[c := s]> (indexes a)) a, Batch_loop false, [])
  | Batch_loop wasWaiting =>
      if overMemQuotaForIndexingLOCKED w a then Some (a, Batch_in, [])
      else Some (a, Batch_unlock wasWaiting, [])
  | Batch_in => Some (add_TotWaitingIn a, Batch_incr, [])
  | Batch_incr => Some (set_waiting (wrap_i64 (waiting a + 1)) a, Batch_send, [])
  | Batch_send =>
      match sendOverQuota a with
      | Some (a', evs) => Some (a', Batch_wait, evs)
      | None => None
      end
  | Batch_wait => Some (WaitPark g a, Batch_parked, [EvWait; EvUnlock])
  | Batch_parked =>
      if bool_decide (g ∈ waitCond a) then None
      else
        match Lock g a with
        | Some a' => Some (a', Batch_decr, [EvLock])
        | None => None
        end
  | Batch_decr => Some (set_waiting (wrap_i64 (waiting a - 1)) a, Batch_out, [])
  | Batch_out => Some (add_TotWaitingOut a, Batch_loop true, [])
  | Batch_unlock _ => Some (Unlock a, Batch_end, [EvUnlock])
  | Batch_end => Some (add_TotOnBatchExecuteStartEnd a, Returned None, [])
  (* onQueryStart *)
  | Query_entry depth size =>
      if queryQuota a <? 0 then Some (a, Returned None, [])
      else Some (a, Query_lock depth size, [])
  | Query_lock depth size =>
      match Lock g a with
      | Some a' => Some (a', Query_check depth size, [EvLock])
      | None => None
      end
  | Query_check depth size =>
      if (depth =? 0) && (runningQueryUsed a >? 0) then
        let memUsed := queryMemUsed w size in
        if (queryQuota a >? 0) && (memUsed >? queryQuota a) then
          Some (a, Query_reject_unlock, [])
        else if (appQuota a >? 0) && (memUsed >? appQuota a) then
          Some (a, Query_reject_unlock, [])
        else Some (a, Query_add size, [])
      else Some (a, Query_add size, [])
  | Query_reject_unlock => Some (Unlock a, Query_reject_send, [EvUnlock])
  | Query_reject_send =>
      match sendOverQuota a with
      | Some (a', evs) => Some (a', Returned (Some ErrorSearchReqRejected), evs)
      | None => None
      end
  | Query_add size =>
      Some (set_runningQueryUsed (wrap_u64 (runningQueryUsed a + size)) a, Query_unlock, [])
  | Query_unlock => Some (Unlock a, Returned None, [EvUnlock])
  (* onQueryEnd *)
  | QueryEnd_lock size =>
      match Lock g a with
      | Some a' => Some (a', QueryEnd_sub size, [EvLock])
      | None => None
      end
  | QueryEnd_sub size =>
      Some (set_runningQueryUsed (wrap_u64 (runningQueryUsed a - size)) a, QueryEnd_awake, [])
  | QueryEnd_awake => let '(a', evs) := awakeWaitersLOCKED a in Some (a', QueryEnd_unlock, evs)
  | QueryEnd_unlock => Some (Unlock a, Returned None, [EvUnlock])
  end.

(** A goroutine run on its own, nothing else moving, until it returns or
    parks: the herder then, where the goroutine stands, what it did. *)
Fixpoint run (fuel : nat) (g : nat) (w : World) (a : appHerder) (p : goroutine)
  : appHerder * goroutine * list event :=
  match fuel with
  | O => (a, p, [])
  | S fuel' =>
      match gstep g w a p with
      | None => (a, p, [])
      | Some (a', p', evs) =>
          let '(a'', p'', evs') := run fuel' g w a' p' in
          (a'', p'', evs ++ evs')
      end
  end.

(** ** The herder shared by many goroutines *)

Record System := {
  herder : appHerder;
  world : World;
  pool : list goroutine
}.

(** One move of the whole system: a goroutine of the pool does its next
    action, a new call comes in, the world changes under the herder, or
    the consumer receives from the over-quota channel. *)
Inductive sstep : System -> System -> Prop :=
| sstep_go s g p a' p' evs :
    pool s !! g = Some p ->
    gstep g (world s) (herder s) p = Some (a', p', evs) ->
    sstep s {| herder := a'; world := world s; pool := <[g := p']> (pool s) |}
| sstep_call s c :
    sstep s {| herder := herder s; world := world s; pool := pool s ++ [start c] |}
| sstep_world s w' :
    sstep s {| herder := herder s; world := w'; pool := pool s |}
| sstep_recv s ch :
    overQuotaCh (herder s) = Some ch ->
    sstep s {| herder := set_overQuotaCh (Some (chanrecv ch)) (herder s);
               world := world s; pool := pool s |}.

(** The states reached from a fresh herder in exactly [n] moves. *)
Inductive reach : nat -> System -> Prop :=
| reach_new memQ appQ indexQ queryQ ch w :
    reach 0 {| herder := newAppHerder memQ appQ indexQ queryQ ch;
               world := w; pool := [] |}
| reach_step n s s' : reach n s -> sstep s s' -> reach (S n) s'.

(** A whole call made while nothing else moves: the herder after it, the
    error it returned and what it did; [None] when the call parks. *)
Definition invoke (g : nat) (w : World) (a : appHerder) (c : call)
  : option (appHerder * option error * list event) :=
  match run 16 g w a (start c) with
  | (a', Returned r, evs) => Some (a', r, evs)
  | _ => None
  end.

#[global] Arguments invoke : simpl never.

(** The over-quota channel is nil or can take one more element. *)
Definition chan_ready (a : appHerder) : Prop :=
  match overQuotaCh a with
  | None => True
  | Some ch => is_Some (chansend ch)
  end.

(** The sends a rejected query performs: one when a channel is configured. *)
Definition overQuotaSends (a : appHerder) : list event :=
  match overQuotaCh a with
  | None => []
  | Some _ => [EvSend]
  end.

(** Program points at which the goroutine holds the mutex. *)
Definition critical (p : goroutine) : bool :=
  match p with
  | Close_delete _ | Close_awake | Close_unlock
  | Awake_awake | Awake_unlock
  | Batch_register _ _ | Batch_loop _ | Batch_in | Batch_incr | Batch_send
  | Batch_wait | Batch_decr | Batch_out | Batch_unlock _
  | Query_check _ _ | Query_reject_unlock | Query_add _ | Query_unlock
  | QueryEnd_sub _ | QueryEnd_awake | QueryEnd_unlock => true
  | _ => false
  end.

(** Program points inside the gate of [onBatchExecuteStart]: after the
    increment of line 138 and before the one of line 177. *)
Definition in_gate (p : goroutine) : bool :=
  match p with
  | Batch_lock _ _ | Batch_register _ _ | Batch_loop _ | Batch_in | Batch_incr
  | Batch_send | Batch_wait | Batch_parked | Batch_decr | Batch_out
  | Batch_unlock _ | Batch_end => true
  | _ => false
  end.

(** The number of workers inside the gate. *)
Fixpoint inside (l : list goroutine) : Z :=
  match l with
  | [] => 0
  | p :: l' => (if in_gate p then 1 else 0) + inside l'
  end.

(** What the registered callbacks report, one number per index. *)
Definition indexSizes (w : World) (a : appHerder) : list Z :=
  (fun '(index, indexSizeFunc) => (indexSizeFunc : sizeFunc) w index)
    <$> map_to_list (indexes a).

Fixpoint sumZ (l : list Z) : Z :=
  match l with
  | [] => 0
  | x :: l' => x + sumZ l'
  end.

(** *** Callers of the query interface

    The query pipeline calls [onQueryStart] when a query comes in and,
    for a query that was let in, [onQueryEnd] with the same size when it
    is done.  [running] lists the sizes of the queries let in and not
    yet ended. *)
Inductive qevent :=
| QStart (w : World) (depth size : Z)
| QEnd (w : World) (depth size : Z).

Fixpoint remove_one (x : Z) (l : list Z) : option (list Z) :=
  match l with
  | [] => None
  | y :: l' =>
      if x =? y then Some l'
      else match remove_one x l' with
           | Some r => Some (y :: r)
           | None => None
           end
  end.

(** Runs a sequence of query events, one call after the other.  [None]
    when an end has no running start of its size, or a call parks. *)
Fixpoint qrun (g : nat) (evs : list qevent) (a : appHerder) (running : list Z)
  : option (appHerder * list Z) :=
  match evs with
  | [] => Some (a, running)
  | QStart w depth size :: evs' =>
      match invoke g w a (OnQueryStart depth size) with
      | Some (a', None, _) => qrun g evs' a' (size :: running)
      | Some (a', Some _, _) => qrun g evs' a' running
      | None => None
      end
  | QEnd w depth size :: evs' =>
      match remove_one size running with
      | Some running' =>
          match invoke g w a (OnQueryEnd depth size) with
          | Some (a', _, _) => qrun g evs' a' running'
          | None => None
          end
      | None => None
      end
  end.

(** Start-end pairs one after the other, all at depth 0. *)
Definition pairs (l : list (World * Z)) : list qevent :=
  flat_map (fun '(w, size) => [QStart w 0 size; QEnd w 0 size]) l.

(** *** Concrete herders and worlds used in the examples *)

(** A world with the given process memory, nothing waiting in batches
    and every engine reporting [bytes]. *)
Definition world_of (rss bytes : Z) : World :=
  {| CurMemoryUsed := rss; BatchBytesAdded := 0; BatchBytesRemoved := 0;
     engineBytes := fun _ => bytes |}.

(** An empty channel of capacity 1. *)
Definition chan1 : chan := {| ch_cap := 1; ch_len := 0; ch_recvq := 0 |}.

(** memQuota 1e9 with ratios (1.0, -1.0, 1.0): indexing is bypassed. *)
Definition herder_S1 : appHerder :=
  newAppHerder 1000000000 1000000000 (-1000000000) 1000000000 None.

(** memQuota 100 with ratios (1.0, 1.0, 0.5), one query of size 10
    running, an over-quota channel configured. *)
Definition herder_S2 : appHerder :=
  set_runningQueryUsed 10 (newAppHerder 100 100 100 50 (Some chan1)).

(** A channel of capacity 1 that holds an element and has no receiver
    parked on it, and scenario S2 on that channel. *)
Definition chan1_full : chan := {| ch_cap := 1; ch_len := 1; ch_recvq := 0 |}.

Definition herder_S2_full : appHerder :=
  set_runningQueryUsed 10 (newAppHerder 100 100 100 50 (Some chan1_full)).

(** indexQuota 100 and an over-quota channel, no engine registered yet. *)
Definition herder_S3 : appHerder := newAppHerder 400 400 100 400 (Some chan1).

(** queryQuota 50 with 1000 bytes of queries running. *)
Definition herder_S6 : appHerder :=
  set_runningQueryUsed 1000 (newAppHerder 100 100 100 50 None).

(** memQuota 100 with ratios (1.0, 1.0, -1.0): querying is bypassed. *)
Definition herder_bypass_query : appHerder := newAppHerder 100 100 100 (-100) None.

(** Two overlapping queries are let in, a third one is turned away
    (process memory 45, size 20, queryQuota 50), then the two end. *)
Definition trace_overlap : list qevent :=
  [QStart (world_of 10 0) 0 20; QStart (world_of 10 0) 0 30;
   QStart (world_of 45 0) 0 20; QEnd (world_of 45 0) 0 20;
   QEnd (world_of 45 0) 0 30].

(** Whether a trace of one goroutine, which starts with the mutex
    [held] or not, has a channel send at a moment the goroutine holds
    the mutex.  [EvWait] is followed by the [EvUnlock] of its release. *)
Fixpoint sends_locked (held : bool) (evs : list event) : bool :=
  match evs with
  | [] => false
  | EvLock :: evs' => sends_locked true evs'
  | EvUnlock :: evs' => sends_locked false evs'
  | EvSend :: evs' => held || sends_locked held evs'
  | _ :: evs' => sends_locked held evs'
  end.

(** The counters of a system, and 1 for a goroutine inside the gate. *)
Definition gate_count (p : goroutine) : Z := if in_gate p then 1 else 0.

(** One engine of 200 bytes, process memory 150: over an indexQuota of 100. *)
Definition world_S3 : World := world_of 150 200.

(** The herder of scenario S3 once worker 0 has registered engine 1,
    found the quota exceeded and counted itself as waiting: it stands at
    the send of line 158. *)
Definition herder_S3_at_send : appHerder :=
  (run 7 0 world_S3 herder_S3 (start (OnBatchExecuteStart 1%positive engineSize))).1.1.

(** What the counters may hold after [n] moves of a system whose
    counters never wrapped: each is at most [n], and the calls that
    began are those that ended plus those inside the gate. *)
Definition stats_inv (n : nat) (s : System) : Prop :=
  let st := stats (herder s) in
  0 <= TotWaitingIn st <= Z.of_nat n
  /\ 0 <= TotWaitingOut st <= Z.of_nat n
  /\ 0 <= TotOnBatchExecuteStartEnd st
  /\ TotOnBatchExecuteStartBeg st <= Z.of_nat n
  /\ TotOnBatchExecuteStartBeg st
     = TotOnBatchExecuteStartEnd st + inside (pool s).

(** Scenario S3 after the call of worker 0 came in and passed the quota
    test of line 134, and one move later, after line 138. *)
Definition sys_S3_called : System :=
  {| herder := herder_S3; world := world_S3;
     pool := [] ++ [start (OnBatchExecuteStart 1%positive engineSize)] |}.

Definition sys_S3_entered : System :=
  {| herder := herder_S3; world := world_S3;
     pool := <[0%nat := Batch_beg 1%positive engineSize]> (pool sys_S3_called) |}.

Definition sys_S3_counted : System :=
  {| herder := add_TotOnBatchExecuteStartBeg herder_S3; world := world_S3;
     pool := <[0%nat := Batch_lock 1%positive engineSize]> (pool sys_S3_entered) |}.

(** Program points from which line 142 is still to come. *)
Definition registers (p : goroutine) : bool :=
  match p with
  | Batch_beg _ _ | Batch_lock _ _ | Batch_register _ _ => true
  | _ => false
  end.

(** Who holds the mutex: exactly the goroutine that stands at a program
    point between a lock and the matching unlock or wait. *)
Definition mutex_inv (s : System) : Prop :=
  (forall g p, pool s !! g = Some p -> critical p = true -> m (herder s) = Some g)
  /\ (forall g, m (herder s) = Some g ->
      exists p, pool s !! g = Some p /\ critical p = true).

(** The herder of scenario S3 with engine 1 registered. *)
Definition herder_S3_registered : appHerder :=
  set_indexes (<[1%positive := engineSize]> ∅) herder_S3.

(** Scenario S3 played by two goroutines: worker 0 calls
    [onBatchExecuteStart] and parks; the engine then reports 0 bytes and
    goroutine 1 calls [onPersisterProgress]; worker 0 goes on. *)
Definition S3_parked : appHerder * goroutine * list event :=
  run 16 0 world_S3 herder_S3 (start (OnBatchExecuteStart 1%positive engineSize)).

Definition S3_progress : appHerder * goroutine * list event :=
  run 16 1 (world_of 150 0) S3_parked.1.1 (start OnPersisterProgress).

Definition S3_released : appHerder * goroutine * list event :=
  run 16 0 (world_of 150 0) S3_progress.1.1 S3_parked.1.2.

(** Scenario S5: instead of progress, goroutine 1 closes engine 1 while
    it still reports 200 bytes. *)
Definition S5_closed : appHerder * goroutine * list event :=
  run 16 1 world_S3 S3_parked.1.1 (start (OnClose 1%positive)).

Definition S5_released : appHerder * goroutine * list event :=
  run 16 0 world_S3 S5_closed.1.1 S3_parked.1.2.

(** [k] moves in a row: what happens between the moment an operation is
    called and the moment it returns is such a sequence, with the moves
    of other goroutines in between. *)
Inductive steps : nat -> System -> System -> Prop :=
| steps_refl s : steps 0 s s
| steps_next k s s' s'' : steps k s s' -> sstep s' s'' -> steps (S k) s s''.

(** ** More of the herder: what the gate keeps *)

(** Program points of a worker that counted itself in [waiting] (line
    150) and has not yet taken itself out (line 163). *)
Definition in_wait (p : goroutine) : bool :=
  match p with
  | Batch_send | Batch_wait | Batch_parked | Batch_decr => true
  | _ => false
  end.

(** Program points between the increment of TotWaitingIn (line 149) and
    the increment of TotWaitingOut (line 164). *)
Definition in_loop (p : goroutine) : bool :=
  match p with
  | Batch_incr | Batch_send | Batch_wait | Batch_parked | Batch_decr
  | Batch_out => true
  | _ => false
  end.

(** Program points of [onQueryStart]. *)
Definition in_query (p : goroutine) : bool :=
  match p with
  | Query_entry _ _ | Query_lock _ _ | Query_check _ _ | Query_reject_unlock
  | Query_reject_send | Query_add _ | Query_unlock => true
  | _ => false
  end.

(** How many goroutines of a pool stand at a program point of [f]. *)
Fixpoint count_at (f : goroutine -> bool) (l : list goroutine) : Z :=
  match l with
  | [] => 0
  | p :: l' => (if f p then 1 else 0) + count_at f l'
  end.

(** What holds of the gate after [n] moves, as long as no integer
    wrapped: [waiting] counts the workers between lines 150 and 163, the
    two waiting counters differ by the workers between lines 149 and
    164, and whoever is on the notify list of the condition variable is
    a worker parked at line 161. *)
Definition gate_inv (n : nat) (s : System) : Prop :=
  Z.of_nat (length (pool s)) <= Z.of_nat n
  /\ waiting (herder s) = count_at in_wait (pool s)
  /\ TotWaitingIn (stats (herder s))
     = TotWaitingOut (stats (herder s)) + count_at in_loop (pool s)
  /\ (forall g, g ∈ waitCond (herder s) -> pool s !! g = Some Batch_parked).

(** Scenario S3 with worker 0 parked in the gate. *)
Definition sys_S3_parked : System :=
  {| herder := (run 16 0 (world sys_S3_called) (herder sys_S3_called)
                  (start (OnBatchExecuteStart 1%positive engineSize))).1.1;
     world := world sys_S3_called;
     pool := <[0%nat := (run 16 0 (world sys_S3_called) (herder sys_S3_called)
                           (start (OnBatchExecuteStart 1%positive engineSize))).1.2]>
               (pool sys_S3_called) |}.

(** Scenario S3 with worker 0 past the lock of line 140. *)
Definition sys_S3_locked : System :=
  {| herder := (run 3 0 (world sys_S3_called) (herder sys_S3_called)
                  (start (OnBatchExecuteStart 1%positive engineSize))).1.1;
     world := world sys_S3_called;
     pool := <[0%nat := (run 3 0 (world sys_S3_called) (herder sys_S3_called)
                           (start (OnBatchExecuteStart 1%positive engineSize))).1.2]>
               (pool sys_S3_called) |}.

(** Program points of [onBatchExecuteStart]. *)
Definition in_batch (p : goroutine) : bool :=
  match p with
  | Batch_entry _ _ | Batch_beg _ _ => true
  | _ => in_gate p
  end.


(** Scenario S3 with its channel of capacity 1: worker 0 has sent and is
    parked, the consumer has taken the element from the channel, and
    goroutine 1 has reported persister progress while the engine still
    holds 200 bytes. *)
Definition herder_S3_received : appHerder :=
  match overQuotaCh S3_parked.1.1 with
  | Some ch => set_overQuotaCh (Some (chanrecv ch)) S3_parked.1.1
  | None => S3_parked.1.1
  end.

Definition herder_S3_woken_chan : appHerder :=
  (run 16 1 world_S3 herder_S3_received (start OnPersisterProgress)).1.1.

(** Program points at which a goroutine asks for the mutex. *)
Definition lock_point (p : goroutine) : bool :=
  match p with
  | Close_lock _ | Awake_lock | Batch_lock _ _ | Batch_parked
  | Query_lock _ _ | QueryEnd_lock _ => true
  | _ => false
  end.

(** Scenario S3 with an unbuffered channel nobody receives from: the
    call of worker 0 comes in, and the worker runs up to the send. *)
Definition chan0 : chan := {| ch_cap := 0; ch_len := 0; ch_recvq := 0 |}.

Definition sys_full_called : System :=
  {| herder := newAppHerder 400 400 100 400 (Some chan0); world := world_S3;
     pool := [] ++ [start (OnBatchExecuteStart 1%positive engineSize)] |}.

Definition sys_full_at_send : System :=
  {| herder := (run 16 0 (world sys_full_called) (herder sys_full_called)
                  (start (OnBatchExecuteStart 1%positive engineSize))).1.1;
     world := world sys_full_called;
     pool := <[0%nat := (run 16 0 (world sys_full_called) (herder sys_full_called)
                           (start (OnBatchExecuteStart 1%positive engineSize))).1.2]>
               (pool sys_full_called) |}.




(** The events of the moss engine, as far as [onMossEvent] looks at
    them. *)
Module moss.
Inductive EventKind :=
| EventKindClose
| EventKindBatchExecuteStart
| EventKindPersisterProgress
| EventKindOther.

Record Event := {
  Kind : EventKind;
  Collection : handle;
  LowerLevelUpdate : bool   (* Collection.Options().LowerLevelUpdate != nil *)
}.
End moss.

(** The events of the scorch engine. *)
Module scorch.
Inductive EventKind :=
| EventKindClose
| EventKindBatchIntroductionStart
| EventKindPersisterProgress
| EventKindMergerProgress
| EventKindOther.

Record Event := {
  Kind : EventKind;
  Scorch : handle
}.
End scorch.



(** The kinds of query events [queryHerderOnEvent] tells apart. *)
Inductive QueryEventKind := EventQueryStart | EventQueryEnd | EventQueryOther.

(** [queryHerderOnEvent], lines 233-246; [None] is the [return nil] of
    the default case. *)
Definition queryHerderOnEvent (depth : Z) (kind : QueryEventKind) (size : Z)
  : option call :=
  match kind with
  | EventQueryStart => Some (OnQueryStart depth size)
  | EventQueryEnd => Some (OnQueryEnd depth size)
  | EventQueryOther => None
  end.

(** An event run against the herder, nothing else moving: the herder as
    it was and [nil] when the adapter does not call the herder. *)
Definition handle_event (g : nat) (w : World) (a : appHerder) (c : option call)
  : option (appHerder * option error * list event) :=
  match c with
  | None => Some (a, None, [])
  | Some c => invoke g w a c
  end.



(** Scenario S1 after the one bypassed batch of worker 0. *)
Definition sys_S1_called : System :=
  {| herder := herder_S1; world := world_of 10000000000 200;
     pool := [] ++ [start (OnBatchExecuteStart 1%positive engineSize)] |}.

Definition sys_S1_returned : System :=
  {| herder := (run 16 0 (world sys_S1_called) (herder sys_S1_called)
                  (start (OnBatchExecuteStart 1%positive engineSize))).1.1;
     world := world sys_S1_called;
     pool := <[0%nat := (run 16 0 (world sys_S1_called) (herder sys_S1_called)
                           (start (OnBatchExecuteStart 1%positive engineSize))).1.2]>
               (pool sys_S1_called) |}.

(** Scenario S2 as a system: query 0 of size 10 is let in and returns,
    then query 1 of size 20 comes in and runs up to its send. *)
Definition sys_S2_called : System :=
  {| herder := newAppHerder 100 100 100 50 (Some chan1); world := world_of 45 0;
     pool := [] ++ [start (OnQueryStart 0 10)] |}.

Definition sys_S2_running : System :=
  {| herder := (run 16 0 (world sys_S2_called) (herder sys_S2_called)
                  (start (OnQueryStart 0 10))).1.1;
     world := world sys_S2_called;
     pool := <[0%nat := (run 16 0 (world sys_S2_called) (herder sys_S2_called)
                           (start (OnQueryStart 0 10))).1.2]>
               (pool sys_S2_called) |}.

Definition sys_S2_called_again : System :=
  {| herder := herder sys_S2_running; world := world sys_S2_running;
     pool := pool sys_S2_running ++ [start (OnQueryStart 0 20)] |}.

Definition sys_S2_at_send : System :=
  {| herder := (run 4 1 (world sys_S2_called_again) (herder sys_S2_called_again)
                  (start (OnQueryStart 0 20))).1.1;
     world := world sys_S2_called_again;
     pool := <[1%nat := (run 4 1 (world sys_S2_called_again) (herder sys_S2_called_again)
                           (start (OnQueryStart 0 20))).1.2]>
               (pool sys_S2_called_again) |}.

(** * The remote partition client (grpc_client.go) *)

(** A pointer to an object of another package ([*cbgt.Manager],
    [*cbgt.ConsistencyParams], the [pb.SearchServiceClient], a stream
    handler): [None] is nil. *)
Definition ref := option positive.

(** [GrpcClient], lines 44-59; the mutex is left out, no function
    modelled here takes it. *)
Record GrpcClient := {
  Mgr : ref;
  name : string;
  HostPort : string;
  IndexName : string;
  IndexUUID : string;
  PIndexNames : list string;
  Consistency : ref;
  GrpcCli : ref;
  lastSearchStatus : Z;
  lastErrBody : list ascii;
  sc : ref
}.

(** [c.PIndexNames = append(c.PIndexNames, names...)]. *)
Definition append_PIndexNames (names : list string) (c : GrpcClient) : GrpcClient :=
  {| Mgr := Mgr c; name := name c; HostPort := HostPort c; IndexName := IndexName c;
     IndexUUID := IndexUUID c; PIndexNames := PIndexNames c ++ names;
     Consistency := Consistency c; GrpcCli := GrpcCli c;
     lastSearchStatus := lastSearchStatus c; lastErrBody := lastErrBody c;
     sc := sc c |}.

(** The key of lines 455-456. *)
Definition groupByKey (client : GrpcClient) : string :=
  HostPort client +:+ "/" +:+ IndexName client +:+ "/" +:+ IndexUUID client.

(** The client of lines 460-468: the fields that are not listed there
    take their zero value. *)
Definition new_group (client : GrpcClient) : GrpcClient :=
  {| Mgr := Mgr client; name := groupByKey client; HostPort := HostPort client;
     IndexName := IndexName client; IndexUUID := IndexUUID client;
     PIndexNames := []; Consistency := Consistency client;
     GrpcCli := GrpcCli client; lastSearchStatus := 0; lastErrBody := [];
     sc := None |}.

(** One round of the loop of lines 454-476.  The map [m] holds
    pointers; the clients they point to are the values of [store], and
    [rv] lists the pointers in the order they were appended: a client
    reached through [rv] sees the names appended through [m]. *)
Definition group_step (st : gmap string GrpcClient * list string) (client : GrpcClient)
  : gmap string GrpcClient * list string :=
  let '(store, rv) := st in
  let key := groupByKey client in
  match store !! key with
  | None =>
      (<[key := append_PIndexNames (PIndexNames client) (new_group client)]> store,
       rv ++ [key])
  | Some c =>
      (<[key := append_PIndexNames (PIndexNames client) c]> store, rv)
  end.

(** The clients a list of pointers points to. *)
Fixpoint deref (store : gmap string GrpcClient) (rv : list string) : list GrpcClient :=
  match rv with
  | [] => []
  | key :: rv' =>
      match store !! key with
      | Some c => c :: deref store rv'
      | None => deref store rv'
      end
  end.

(** [GroupGrpcClientsByHostPort], lines 451-479: the clients [rv]
    points to when the loop is over. *)
Definition GroupGrpcClientsByHostPort (clients : list GrpcClient) : list GrpcClient :=
  let '(store, rv) := foldl group_step (∅, []) clients in
  deref store rv.

(** The map and the pointer list of [GroupGrpcClientsByHostPort] after
    the loop has gone through [clients]. *)
Definition group_state (clients : list GrpcClient) : gmap string GrpcClient * list string :=
  foldl group_step (∅, []) clients.

(** The clients of [l] that fall under the key [k], in their order. *)
Definition with_key (k : string) (l : list GrpcClient) : list GrpcClient :=
  filter (fun x => groupByKey x = k) l.

(** What the loop of [GroupGrpcClientsByHostPort] keeps. *)
Definition group_inv (l : list GrpcClient) (st : gmap string GrpcClient * list string)
  : Prop :=
  NoDup st.2
  /\ (forall k, k ∈ st.2 <-> is_Some (st.1 !! k))
  /\ (forall k, k ∈ st.2 <-> k ∈ groupByKey <$> l)
  /\ (forall k c, st.1 !! k = Some c ->
        name c = k /\ groupByKey c = k
        /\ PIndexNames c = concat (PIndexNames <$> with_key k l)
        /\ sc c = None /\ lastSearchStatus c = 0 /\ lastErrBody c = []
        /\ exists first, head (with_key k l) = Some first
             /\ Mgr c = Mgr first /\ HostPort c = HostPort first
             /\ IndexName c = IndexName first /\ IndexUUID c = IndexUUID first
             /\ Consistency c = Consistency first /\ GrpcCli c = GrpcCli first)
  /\ concat (PIndexNames <$> deref st.1 st.2)
     ≡ₚ concat (PIndexNames <$> l)
  /\ name <$> deref st.1 st.2 = st.2.

(** A client as [addGrpcClients] builds them (lines 408-417), for the
    index "idx" with UUID "u1". *)
Definition client_of (hostPort pindex : string) : GrpcClient :=
  {| Mgr := Some 1%positive; name := "grpcClient - " +:+ hostPort; HostPort := hostPort;
     IndexName := "idx"; IndexUUID := "u1"; PIndexNames := [pindex];
     Consistency := None; GrpcCli := Some 2%positive;
     lastSearchStatus := 0; lastErrBody := []; sc := None |}.

(** Three pindexes, two of them on the node a:1. *)
Definition three_clients : list GrpcClient :=
  [client_of "a:1" "p1"; client_of "b:1" "p2"; client_of "a:1" "p3"].

(** The client [GroupGrpcClientsByHostPort] makes for node a:1. *)
Definition group_a : GrpcClient :=
  {| Mgr := Some 1%positive; name := "a:1/idx/u1"; HostPort := "a:1";
     IndexName := "idx"; IndexUUID := "u1"; PIndexNames := ["p1"; "p3"];
     Consistency := None; GrpcCli := Some 2%positive;
     lastSearchStatus := 0; lastErrBody := []; sc := None |}.

(** An error of the rpc layer or of [fmt.Errorf], by its message. *)
Definition rpcError := string.

(** [DocCount], lines 99-107, and [Count], lines 238-240, which calls
    it.  [docCount cli request] is what the service client [cli]
    returns to [DocCount(ctx, request)] for the index name of the
    request: the result ([None] for nil, else its int64 count) and the
    error.  The function panics, [None], in three places: at
    [g.PIndexNames[0]] of line 100 on a client without pindex names, at
    the method call of line 102 on a nil [g.GrpcCli], and at
    [res.DocCount] of line 106 on a nil result without error. *)
Definition DocCount (docCount : positive -> string -> option Z * option rpcError)
  (g : GrpcClient) : option (Z * option rpcError) :=
  match PIndexNames g with
  | [] => None
  | indexName :: _ =>
      match GrpcCli g with
      | None => None
      | Some cli =>
          match docCount cli indexName with
          | (_, Some err) => Some (0, Some err)
          | (Some count, None) => Some (wrap_u64 count, None)
          | (None, None) => None
          end
      end
  end.

Definition Count (docCount : positive -> string -> option Z * option rpcError)
  (g : GrpcClient) : option (Z * option rpcError) :=
  DocCount docCount g.

(** A service that holds 10 documents in pindex p1 and 32 in any other,
    and a client whose connection is nil. *)
Definition service_10_32 : positive -> string -> option Z * option rpcError :=
  fun _ n => if decide (n = "p1") then (Some 10, None) else (Some 32, None).

Definition client_nil : GrpcClient :=
  {| Mgr := Some 1%positive; name := "grpcClient - c:1"; HostPort := "c:1";
     IndexName := "idx"; IndexUUID := "u1"; PIndexNames := ["p4"];
     Consistency := None; GrpcCli := None;
     lastSearchStatus := 0; lastErrBody := []; sc := None |}.

(** ** Go strings

    A string is its bytes.  [strings.LastIndex s sep] is only called
    with the separator ":" (one byte): [LastIndex s c] is the index of
    the last byte [c] of [s], or -1. *)
Fixpoint LastIndex (s : string) (c : ascii) : Z :=
  match s with
  | EmptyString => -1
  | String x s' =>
      let r := LastIndex s' c in
      if 0 <=? r then r + 1
      else if Ascii.eqb x c then 0 else -1
  end.

(** [len(s)]. *)
Definition len (s : string) : Z := Z.of_nat (String.length s).

(** [s[:n]] and [s[n:]], for an n between 0 and [len s]. *)
Fixpoint string_take (n : nat) (s : string) : string :=
  match n, s with
  | S n', String x s' => String x (string_take n' s')
  | _, _ => EmptyString
  end.

Fixpoint string_drop (n : nat) (s : string) : string :=
  match n, s with
  | S n', String _ s' => string_drop n' s'
  | _, _ => s
  end.

(** What [GetFromParsedExtras] finds under a key: nothing (a nil
    interface), a string, or a value of another type. *)
Inductive extraValue :=
| ExtraString (s : string)
| ExtraOther.

(** The parts of package cbgt the client reads. *)
Module cbgt.
Record NodeDef := {
  HostPort : string;
  UUID : string;
  GetFromParsedExtras : string -> option extraValue * option rpcError
}.

Record RemotePlanPIndex := {
  PlanPIndexName : string;     (* PlanPIndex.Name *)
  Node : NodeDef               (* NodeDef *)
}.
End cbgt.

(** [getPortFromNodeDefs], lines 434-446. *)
Definition getPortFromNodeDefs (nodeDef : cbgt.NodeDef) (key : string)
  : string * option rpcError :=
  let '(bindValue, err) := cbgt.GetFromParsedExtras nodeDef key in
  let bindPort :=
    match err, bindValue with
    | None, Some (ExtraString bindStr) =>
        let portPos := LastIndex bindStr ":" + 1 in
        if (0 <? portPos) && (portPos <? len bindStr)
        then string_drop (Z.to_nat portPos) bindStr
        else ""
    | _, _ => ""
    end in
  (bindPort, err).

(** A node that binds gRPC on 9130 and, with TLS, on 19130. *)
Definition node_a : cbgt.NodeDef :=
  {| cbgt.HostPort := "a:8094"; cbgt.UUID := "uuid-a";
     cbgt.GetFromParsedExtras := fun key =>
       if decide (key = "bindGRPC") then (Some (ExtraString "0.0.0.0:9130"), None)
       else if decide (key = "bindGRPCSSL") then (Some (ExtraString "0.0.0.0:19130"), None)
       else (None, None) |}.

(** A node whose TLS binding is there but names no port. *)
Definition node_b : cbgt.NodeDef :=
  {| cbgt.HostPort := "b:8094"; cbgt.UUID := "uuid-b";
     cbgt.GetFromParsedExtras := fun key =>
       if decide (key = "bindGRPC") then (Some (ExtraString "0.0.0.0:9130"), None)
       else if decide (key = "bindGRPCSSL") then (Some (ExtraString "0.0.0.0"), None)
       else (None, None) |}.

(** [GetSecuritySetting()], as far as [addGrpcClients] reads it. *)
Record SecuritySetting := {
  EncryptionEnabled : bool;
  CertInBytes : list ascii
}.

(** What [addGrpcClients] calls outside this file, in one round of its
    loop: the setting [GetSecuritySetting()] returns in that round and
    the answer of [getRpcClient] to the arguments of that round. *)
Record roundEnv := {
  GetSecuritySetting : SecuritySetting;
  getRpcClient : string -> string -> list ascii -> ref + rpcError
}.

(** [onlyPIndexes != nil && !onlyPIndexes[name]]: [None] is the nil
    map; a name that is not in the map reads as false. *)
Definition filtered_out (onlyPIndexes : option (gmap string bool)) (name : string) : bool :=
  match onlyPIndexes with
  | None => false
  | Some only => negb (default false (only !! name))
  end.

(** Lines 380-394: the port and the certificate of a round. *)
Definition choosePort (ss : SecuritySetting) (nodeDef : cbgt.NodeDef)
  : string * list ascii :=
  let '(bindPort, err) := getPortFromNodeDefs nodeDef "bindGRPC" in
  let port := match err with None => bindPort | Some _ => "" end in
  if EncryptionEnabled ss then
    let '(bindPort, err) := getPortFromNodeDefs nodeDef "bindGRPCSSL" in
    match err with
    | None => (bindPort, CertInBytes ss)
    | Some _ => (port, [])
    end
  else (port, []).

(** One round of the first loop of [addGrpcClients], lines 364-420:
    the clients made so far with the one of this round added when there
    is one ([continue] leaves them as they are), or the error of line
    397, which ends the call. *)
Definition addGrpcClients_round (env : roundEnv)
  (mgr : ref) (indexName indexUUID : string) (consistencyParams : ref)
  (onlyPIndexes : option (gmap string bool))
  (remoteClients : list GrpcClient) (remotePlanPIndex : cbgt.RemotePlanPIndex)
  : list GrpcClient + rpcError :=
  let nodeDef := cbgt.Node remotePlanPIndex in
  if filtered_out onlyPIndexes (cbgt.PlanPIndexName remotePlanPIndex)
  then inl remoteClients
  else
    let delimiterPos := LastIndex (cbgt.HostPort nodeDef) ":" in
    if (delimiterPos <? 0) || (delimiterPos >=? len (cbgt.HostPort nodeDef) - 1)
    then inl remoteClients
    else
      let host := string_take (Z.to_nat delimiterPos) (cbgt.HostPort nodeDef) in
      let '(port, certInBytes) := choosePort (GetSecuritySetting env) nodeDef in
      if decide (port = "") then
        inr ("grpc_client: no ports found for host: " +:+ host)
      else
        let host := host +:+ ":" +:+ port in
        match getRpcClient env (cbgt.UUID nodeDef) host certInBytes with
        | inr _ => inl remoteClients
        | inl cli =>
            inl (remoteClients ++
                 [{| Mgr := mgr; name := "grpcClient - " +:+ host; HostPort := host;
                     IndexName := indexName; IndexUUID := indexUUID;
                     PIndexNames := [cbgt.PlanPIndexName remotePlanPIndex];
                     Consistency := consistencyParams; GrpcCli := cli;
                     lastSearchStatus := 0; lastErrBody := []; sc := None |}])
        end.

(** The first loop of [addGrpcClients] from round [i] on: it stops at
    the first error.  [env i] is what round [i] sees of the outside. *)
Fixpoint addGrpcClients_loop (env : nat -> roundEnv)
  (mgr : ref) (indexName indexUUID : string) (consistencyParams : ref)
  (onlyPIndexes : option (gmap string bool)) (i : nat)
  (remoteClients : list GrpcClient) (remotePlanPIndexes : list cbgt.RemotePlanPIndex)
  : list GrpcClient + rpcError :=
  match remotePlanPIndexes with
  | [] => inl remoteClients
  | remotePlanPIndex :: rest =>
      match addGrpcClients_round (env i) mgr indexName indexUUID
              consistencyParams onlyPIndexes remoteClients remotePlanPIndex with
      | inr err => inr err
      | inl remoteClients' =>
          addGrpcClients_loop env mgr indexName indexUUID
            consistencyParams onlyPIndexes (S i) remoteClients' rest
      end
  end.

(** [addGrpcClients], lines 357-432: the clients returned, which are
    also, in that order, the clients handed to [collector.Add]; or the
    error, in which case the collector was handed nothing. *)
Definition addGrpcClients (env : nat -> roundEnv)
  (mgr : ref) (indexName indexUUID : string)
  (remotePlanPIndexes : list cbgt.RemotePlanPIndex)
  (consistencyParams : ref) (onlyPIndexes : option (gmap string bool))
  (groupByNode : bool) : list GrpcClient + rpcError :=
  match addGrpcClients_loop env mgr indexName indexUUID
          consistencyParams onlyPIndexes 0 [] remotePlanPIndexes with
  | inr err => inr err
  | inl remoteClients =>
      inl (if groupByNode then GroupGrpcClientsByHostPort remoteClients
           else remoteClients)
  end.

(** What makes a client of a node: it passes the filter and its
    HostPort is "host:rest" with a rest that is not empty. *)
Definition admitted (onlyPIndexes : option (gmap string bool))
  (remotePlanPIndex : cbgt.RemotePlanPIndex) : bool :=
  let hostPort := cbgt.HostPort (cbgt.Node remotePlanPIndex) in
  negb (filtered_out onlyPIndexes (cbgt.PlanPIndexName remotePlanPIndex))
  && (0 <=? LastIndex hostPort ":") && (LastIndex hostPort ":" <? len hostPort - 1).

(** The host of a node: its HostPort up to the last ":". *)
Definition host_of (nodeDef : cbgt.NodeDef) : string :=
  string_take (Z.to_nat (LastIndex (cbgt.HostPort nodeDef) ":")) (cbgt.HostPort nodeDef).

(** An outside without TLS where every connection succeeds, and one
    with TLS. *)
Definition env_plain : nat -> roundEnv := fun _ =>
  {| GetSecuritySetting := {| EncryptionEnabled := false; CertInBytes := [] |};
     getRpcClient := fun _ _ _ => inl (Some 5%positive) |}.

Definition env_tls : nat -> roundEnv := fun _ =>
  {| GetSecuritySetting := {| EncryptionEnabled := true; CertInBytes := [] |};
     getRpcClient := fun _ _ _ => inl (Some 5%positive) |}.

Definition plan_a1 : cbgt.RemotePlanPIndex :=
  {| cbgt.PlanPIndexName := "p1"; cbgt.Node := node_a |}.
Definition plan_a2 : cbgt.RemotePlanPIndex :=
  {| cbgt.PlanPIndexName := "p2"; cbgt.Node := node_a |}.
Definition plan_b : cbgt.RemotePlanPIndex :=
  {| cbgt.PlanPIndexName := "p3"; cbgt.Node := node_b |}.

(** The client line 408 makes in round [env] for [rp] with the
    connection [cli]. *)
Definition client_made (env : roundEnv) (mgr : ref) (indexName indexUUID : string)
  (consistencyParams : ref) (rp : cbgt.RemotePlanPIndex) (cli : ref) : GrpcClient :=
  let host := host_of (cbgt.Node rp) +:+ ":"
              +:+ (choosePort (GetSecuritySetting env) (cbgt.Node rp)).1 in
  {| Mgr := mgr; name := "grpcClient - " +:+ host; HostPort := host;
     IndexName := indexName; IndexUUID := indexUUID;
     PIndexNames := [cbgt.PlanPIndexName rp];
     Consistency := consistencyParams; GrpcCli := cli;
     lastSearchStatus := 0; lastErrBody := []; sc := None |}.

(** ** SearchRPC

    The parts of the generated package pb that [SearchRPC] reads: a
    response of the stream carries a batch of hits, a search result in
    bytes, or nothing.  The batch is behind a pointer and the bytes are
    a slice; [None] is nil for both. *)
Module pb.
Record StreamSearchResults_Batch := {
  Bytes : list ascii;
  Offsets : list Z;
  Total : Z
}.

Inductive Contents :=
| StreamSearchResults_Hits (Hits : option StreamSearchResults_Batch)
| StreamSearchResults_SearchResult (SearchResult : option (list ascii))
| NoContents.
End pb.

(** The error with which [Recv] ends a stream: [io.EOF] or another. *)
Inductive recvEnd :=
| EOF
| RecvFailed (e : rpcError).

(** A stream that ends: the responses [Recv] gives, then the error it
    gives after them.  A stream that never ends keeps [SearchRPC] in
    its loop and is not covered. *)
Definition stream : Type := list pb.Contents * recvEnd.

(** A stream handler by what its [write] answers, given the batches
    written to it before and the batch to write. *)
Definition streamHandler : Type :=
  list pb.StreamSearchResults_Batch -> pb.StreamSearchResults_Batch -> option rpcError.

(** The variables of [SearchRPC] that change in its loop, and the
    batches handed to the stream handler so far. *)
Record searchState (SR : Type) := {
  searchResult : SR;
  err : option rpcError;
  written : list pb.StreamSearchResults_Batch
}.
Arguments searchResult {SR} _.
Arguments err {SR} _.
Arguments written {SR} _.

(** How a piece of code ends: it goes on, returns, or panics. *)
Inductive flow (A : Type) :=
| Continue (a : A)
| Return (a : A)
| Panic.
Arguments Continue {A} _.
Arguments Return {A} _.
Arguments Panic {A}.

(** The switch of lines 267-284 on a response; the [break] of line 273
    leaves the switch, not the loop.  [sw] is [g.sc] when it is not
    nil.  [UnmarshalJSON bytes sr] is the search result after the call
    of line 279 and the error of that call. *)
Definition SearchRPC_switch {SR : Type} (sw : option streamHandler)
  (UnmarshalJSON : list ascii -> SR -> SR * option rpcError)
  (st : searchState SR) (response : pb.Contents) : flow (searchState SR) :=
  match response with
  | pb.StreamSearchResults_Hits hits =>
      match sw with
      | Some write =>
          match hits with
          | None => Panic
          | Some batch =>
              let err := write (written st) batch in
              let st := {| searchResult := searchResult st; err := err;
                           written := written st ++ [batch] |} in
              match err with
              | Some _ => Continue st
              | None => Continue st
              end
          end
      | None => Continue st
      end
  | pb.StreamSearchResults_SearchResult (Some bytes) =>
      let '(sr, err) := UnmarshalJSON bytes (searchResult st) in
      let st := {| searchResult := sr; err := err; written := written st |} in
      match err with
      | Some _ => Return st
      | None => Continue st
      end
  | pb.StreamSearchResults_SearchResult None => Continue st
  | pb.NoContents => Continue st
  end.

(** The loop of lines 256-285 and the return of line 287. *)
Fixpoint SearchRPC_loop {SR : Type} (sw : option streamHandler)
  (UnmarshalJSON : list ascii -> SR -> SR * option rpcError)
  (st : searchState SR) (responses : list pb.Contents) (last : recvEnd)
  : flow (searchState SR) :=
  match responses with
  | [] =>
      match last with
      | EOF =>
          Return {| searchResult := searchResult st; err := None; written := written st |}
      | RecvFailed e =>
          Return {| searchResult := searchResult st; err := Some e; written := written st |}
      end
  | response :: rest =>
      let st := {| searchResult := searchResult st; err := None; written := written st |} in
      match SearchRPC_switch sw UnmarshalJSON st response with
      | Continue st => SearchRPC_loop sw UnmarshalJSON st rest last
      | Return st => Return st
      | Panic => Panic
      end
  end.

(** [SearchRPC], lines 242-288.  [streamHandlers] gives the handler
    behind [g.sc]; [Search] is what [g.GrpcCli.Search(ctx, pbReq)]
    returns, the stream ([None] for nil) and the error, and on a nil
    [g.GrpcCli] that method call of line 244 panics; [fresh] is the
    search result of line 250.  The result is the pair returned, its
    first part [None] for the nil of line 247, with the batches handed
    to the stream handler. *)
Definition SearchRPC {SR : Type} (streamHandlers : positive -> streamHandler)
  (UnmarshalJSON : list ascii -> SR -> SR * option rpcError)
  (Search : option stream * option rpcError) (fresh : SR) (g : GrpcClient)
  : flow (option SR * option rpcError * list pb.StreamSearchResults_Batch) :=
  match GrpcCli g with
  | None => Panic
  | Some _ =>
      match Search with
      | (_, Some e) => Return (None, Some e, [])
      | (None, None) => Return (None, None, [])
      | (Some (responses, last), None) =>
          let sw := streamHandlers <$> sc g in
          match SearchRPC_loop sw UnmarshalJSON
                  {| searchResult := fresh; err := None; written := [] |} responses last with
          | Continue st | Return st => Return (Some (searchResult st), err st, written st)
          | Panic => Panic
          end
      end
  end.

(** The batches of a list of responses, and its search results. *)
Definition batches_of (responses : list pb.Contents) : list pb.StreamSearchResults_Batch :=
  omap (fun r => match r with
                 | pb.StreamSearchResults_Hits (Some batch) => Some batch
                 | _ => None
                 end) responses.

Definition results_of (responses : list pb.Contents) : list (list ascii) :=
  omap (fun r => match r with
                 | pb.StreamSearchResults_SearchResult (Some bytes) => Some bytes
                 | _ => None
                 end) responses.

(** Unmarshalling a list of search results one after the other, as
    long as none fails. *)
Definition unmarshal_all {SR : Type}
  (UnmarshalJSON : list ascii -> SR -> SR * option rpcError)
  (results : list (list ascii)) (sr : SR) : SR :=
  foldl (fun sr bytes => (UnmarshalJSON bytes sr).1) sr results.

(** A handler that fails on every write, one that never fails, and an
    unmarshaller that keeps the last bytes. *)
Definition failing_handler : streamHandler := fun _ _ => Some "write failed".
Definition quiet_handler : streamHandler := fun _ _ => None.
Definition keep_last : list ascii -> list ascii -> list ascii * option rpcError :=
  fun bytes _ => (bytes, None).
Definition batch_1 : pb.StreamSearchResults_Batch :=
  {| pb.Bytes := ["a"%char]; pb.Offsets := [0]; pb.Total := 1 |}.
Definition batch_2 : pb.StreamSearchResults_Batch :=
  {| pb.Bytes := ["b"%char]; pb.Offsets := [0]; pb.Total := 2 |}.
Definition stream_1 : stream :=
  ([pb.StreamSearchResults_Hits (Some batch_1);
    pb.StreamSearchResults_Hits (Some batch_2);
    pb.StreamSearchResults_SearchResult (Some ["r"%char])], EOF).
Definition streaming_client : GrpcClient :=
  {| Mgr := None; name := "c"; HostPort := "a:9130"; IndexName := "idx";
     IndexUUID := "u1"; PIndexNames := ["p1"]; Consistency := None;
     GrpcCli := Some 5%positive; lastSearchStatus := 0; lastErrBody := [];
     sc := Some 1%positive |}.

(** * Properties *)

(** The case analysis of one action: every program point, every branch
    its action takes. *)
Ltac gstep_cases p H :=
  destruct p; simpl in H;
  unfold awakeWaitersLOCKED, sendOverQuota, Lock in H;
  repeat (case_match; simplify_eq/=); simplify_eq/=.

(** ** Machine integers *)

Lemma wrap_u64_range x : is_u64 (wrap_u64 x).
Proof. unfold is_u64, wrap_u64. apply Z.mod_pos_bound. lia. Qed.

Lemma wrap_u64_id x : is_u64 x -> wrap_u64 x = x.
Proof. unfold is_u64, wrap_u64. intros H. apply Z.mod_small. lia. Qed.

Lemma wrap_i64_range x : is_i64 (wrap_i64 x).
Proof.
  unfold is_i64, wrap_i64.
  pose proof (Z.mod_pos_bound (x + 2 ^ 63) (2 ^ 64)). lia.
Qed.

Lemma wrap_i64_id x : is_i64 x -> wrap_i64 x = x.
Proof.
  unfold is_i64, wrap_i64. intros H.
  rewrite Z.mod_small; lia.
Qed.

Lemma wrap_u64_add_l x y : wrap_u64 (wrap_u64 x + y) = wrap_u64 (x + y).
Proof. unfold wrap_u64. apply Zplus_mod_idemp_l. Qed.

Lemma wrap_u64_sub_l x y : wrap_u64 (wrap_u64 x - y) = wrap_u64 (x - y).
Proof. unfold wrap_u64. apply Zminus_mod_idemp_l. Qed.

Lemma wrap_u64_underflow x y :
  is_u64 x -> is_u64 y -> x < y -> wrap_u64 (x - y) = 2 ^ 64 + x - y.
Proof.
  unfold is_u64, wrap_u64. intros Hx Hy Hlt.
  symmetry. apply (Z.mod_unique _ _ (-1)); lia.
Qed.

(** ** Memory accounting for indexing *)

Lemma foldr_indexSizes w (l : list (handle * sizeFunc)) :
  foldr (uncurry (fun index (f : sizeFunc) rv => wrap_u64 (rv + f w index))) 0 l
  = wrap_u64 (sumZ ((fun '(index, f) => (f : sizeFunc) w index) <$> l)).
Proof.
  induction l as [|[index f] l IH]; simpl.
  - reflexivity.
  - rewrite IH, wrap_u64_add_l, Z.add_comm. reflexivity.
Qed.

(** The loop of [indexingMemoryLOCKED] computes the sum of the reported
    sizes modulo 2^64, whatever the order the map is walked in. *)
Lemma indexingMemory_sum w a :
  indexingMemoryLOCKED w a = wrap_u64 (sumZ (indexSizes w a)).
Proof.
  unfold indexingMemoryLOCKED, indexSizes.
  rewrite map_fold_foldr. apply foldr_indexSizes.
Qed.

Lemma indexingMemory_range w a : is_u64 (indexingMemoryLOCKED w a).
Proof. rewrite indexingMemory_sum. apply wrap_u64_range. Qed.

Lemma indexingMemory_empty w a : indexes a = ∅ -> indexingMemoryLOCKED w a = 0.
Proof.
  intros H. unfold indexingMemoryLOCKED. rewrite H. apply map_fold_empty.
Qed.



(** Without overflow the sum is the sum. *)
Lemma indexingMemory_exact w a :
  is_u64 (sumZ (indexSizes w a)) ->
  indexingMemoryLOCKED w a = sumZ (indexSizes w a).
Proof. intros H. rewrite indexingMemory_sum. by apply wrap_u64_id. Qed.

(** Without overflow [memUsed] is the process memory plus the bytes
    waiting in batches. *)
Lemma indexingMemUsed_exact w :
  0 <= BatchBytesRemoved w <= BatchBytesAdded w ->
  0 <= CurMemoryUsed w ->
  CurMemoryUsed w + (BatchBytesAdded w - BatchBytesRemoved w) < 2 ^ 63 ->
  indexingMemUsed w = CurMemoryUsed w + (BatchBytesAdded w - BatchBytesRemoved w).
Proof.
  intros H1 H2 H3. unfold indexingMemUsed, preIndexingMemoryLOCKED.
  rewrite Z.add_0_l.
  rewrite !(wrap_u64_id (BatchBytesAdded w - BatchBytesRemoved w))
    by (unfold is_u64; lia).
  rewrite !wrap_i64_id; unfold is_i64; try lia.
  rewrite !wrap_i64_id; unfold is_i64; lia.
Qed.

(** C1.  With the lock held, [overMemQuotaForIndexingLOCKED] is false
    whenever the registered size callbacks sum to 0 (as the uint64 the
    loop computes, and so too as a plain sum), whatever the process
    memory; otherwise, with memUsed the process memory plus the
    pre-indexing memory, it is true exactly when indexQuota > 0 and
    memUsed > indexQuota, or else appQuota > 0 and memUsed > appQuota.
    In particular with indexQuota = 0 and appQuota > 0 the answer is
    the comparison of memUsed with appQuota. *)
Theorem overMemQuotaForIndexing_spec (w : World) (a : appHerder) :
  let memUsed :=
    wrap_i64 (wrap_i64 (CurMemoryUsed w) + wrap_i64 (preIndexingMemoryLOCKED w)) in
  (indexingMemoryLOCKED w a = 0 -> overMemQuotaForIndexingLOCKED w a = false)
  /\ (sumZ (indexSizes w a) = 0 -> overMemQuotaForIndexingLOCKED w a = false)
  /\ (indexingMemoryLOCKED w a <> 0 ->
      (overMemQuotaForIndexingLOCKED w a = true <->
       (indexQuota a > 0 /\ memUsed > indexQuota a)
       \/ (appQuota a > 0 /\ memUsed > appQuota a)))
  /\ (indexingMemoryLOCKED w a <> 0 -> indexQuota a = 0 -> appQuota a > 0 ->
      (overMemQuotaForIndexingLOCKED w a = true <-> memUsed > appQuota a)).
Proof.
  intros memUsed. unfold overMemQuotaForIndexingLOCKED.
  fold (indexingMemUsed w) in memUsed. fold memUsed.
  split; [|split; [|split]].
  - intros ->. reflexivity.
  - intros Hsum. rewrite indexingMemory_sum, Hsum. reflexivity.
  - intros Hne. apply Z.eqb_neq in Hne. rewrite Hne.
    destruct (Z.gtb_spec (indexQuota a) 0), (Z.gtb_spec memUsed (indexQuota a)),
      (Z.gtb_spec (appQuota a) 0), (Z.gtb_spec memUsed (appQuota a));
      simpl; split; intros Hq; try reflexivity; try discriminate; try lia.
  - intros Hne Hi Ha. apply Z.eqb_neq in Hne. rewrite Hne, Hi.
    destruct (Z.gtb_spec (appQuota a) 0), (Z.gtb_spec memUsed (appQuota a));
      simpl; split; intros Hq; try reflexivity; try discriminate; try lia.
Qed.

(** Scenario S3: 200 bytes of engine memory, process memory 150 over an
    indexQuota of 100; and the same herder once the engine reports 0
    bytes while the process uses 10^12. *)
Lemma overMemQuotaForIndexing_spec_witness :
  overMemQuotaForIndexingLOCKED world_S3 herder_S3_registered = true
  /\ overMemQuotaForIndexingLOCKED (world_of 1000000000000 0) herder_S3_registered
     = false.
Proof.
  split.
  - destruct (overMemQuotaForIndexing_spec world_S3 herder_S3_registered)
      as (_ & _ & Hiff & _).
    apply Hiff; [vm_compute; discriminate|].
    left. vm_compute. split; reflexivity.
  - destruct (overMemQuotaForIndexing_spec (world_of 1000000000000 0)
                herder_S3_registered) as (Hzero & _).
    apply Hzero. vm_compute. reflexivity.
Defined.

(** With indexQuota = 0 the appQuota still gates: 150 bytes against an
    appQuota of 100 is over, against one of 400 is not. *)
Example overMemQuota_indexQuota_zero :
  overMemQuotaForIndexingLOCKED world_S3
    (set_indexes (<[1%positive := engineSize]> ∅) (newAppHerder 100 100 0 100 None))
  = true
  /\ overMemQuotaForIndexingLOCKED world_S3
       (set_indexes (<[1%positive := engineSize]> ∅) (newAppHerder 400 400 0 400 None))
     = false.
Proof. vm_compute. split; reflexivity. Qed.

(** ** Calls made on their own *)

Lemma Lock_free g a : m a = None -> Lock g a = Some (set_m (Some g) a).
Proof. unfold Lock. intros ->. reflexivity. Qed.

Lemma Unlock_Lock g a : m a = None -> Unlock (set_m (Some g) a) = a.
Proof. destruct a; simpl; intros ->; reflexivity. Qed.

(** Without overflow the [memUsed] of a query is the process memory
    plus its size. *)
Lemma queryMemUsed_exact w size :
  0 <= CurMemoryUsed w -> 0 <= size -> CurMemoryUsed w + size < 2 ^ 63 ->
  queryMemUsed w size = CurMemoryUsed w + size.
Proof.
  intros H1 H2 H3. unfold queryMemUsed.
  rewrite (wrap_i64_id (CurMemoryUsed w)), (wrap_i64_id size) by (unfold is_i64; lia).
  apply wrap_i64_id. unfold is_i64. lia.
Qed.

(** The query quota check of lines 274 and 288, as one condition. *)
Lemma Query_check_over g w a size :
  runningQueryUsed a > 0 ->
  (queryQuota a > 0 /\ queryMemUsed w size > queryQuota a)
  \/ (appQuota a > 0 /\ queryMemUsed w size > appQuota a) ->
  gstep g w a (Query_check 0 size) = Some (a, Query_reject_unlock, []).
Proof.
  intros Hr Hq. simpl.
  replace (runningQueryUsed a >? 0) with true by lia. simpl.
  destruct (Z.gtb_spec (queryQuota a) 0), (Z.gtb_spec (queryMemUsed w size) (queryQuota a));
    simpl; try reflexivity.
  all: replace (appQuota a >? 0) with true by lia.
  all: replace (queryMemUsed w size >? appQuota a) with true by lia.
  all: reflexivity.
Qed.

(** The send on a channel that is nil or can take the element: the
    herder after it differs by the channel only, which holds what
    [chansend] leaves. *)
Lemma sendOverQuota_exact a :
  chan_ready a ->
  sendOverQuota a
  = Some (set_overQuotaCh (overQuotaCh a ≫= chansend) a, overQuotaSends a).
Proof.
  unfold chan_ready, sendOverQuota, overQuotaSends.
  destruct a as [mq aq iq qq [ch|] mx wc wt ix rq st]; simpl.
  - intros [ch' ->]. reflexivity.
  - intros _. reflexivity.
Qed.

(** A send that goes through puts one element on the channel: one more
    is buffered, or one parked receiver fewer is left. *)
Lemma chansend_one ch ch' :
  chansend ch = Some ch' ->
  ch_cap ch' = ch_cap ch
  /\ ch_len ch' - ch_recvq ch' = ch_len ch - ch_recvq ch + 1.
Proof.
  unfold chansend. intros H.
  repeat case_match; simplify_eq/=; split; lia.
Qed.

(** C3, as the code has it.  A depth-0 query that comes in with the
    mutex free while other sized queries run (runningQueryUsed > 0,
    queryQuota >= 0) and whose memUsed, the process memory plus its
    size, is over a positive queryQuota or else over a positive
    appQuota, locks, unlocks and goes to the send of line 282 or 296
    without ever waiting on the condition variable.

    When the over-quota channel is nil or can take an element, the call
    returns ErrorSearchReqRejected; the herder after it is the herder
    before it but for the channel, on which exactly one element was
    put; runningQueryUsed is as it was.

    When the channel cannot take an element, the send blocks: the call
    does not return, it stands at the send with the mutex released and
    the herder as it was. *)
Theorem onQueryStart_rejects (g : nat) (w : World) (a : appHerder) (size : Z) :
  m a = None ->
  queryQuota a >= 0 ->
  runningQueryUsed a > 0 ->
  (queryQuota a > 0
   /\ wrap_i64 (wrap_i64 (CurMemoryUsed w) + wrap_i64 size) > queryQuota a)
  \/ (appQuota a > 0
      /\ wrap_i64 (wrap_i64 (CurMemoryUsed w) + wrap_i64 size) > appQuota a) ->
  (chan_ready a ->
   exists a' evs,
     invoke g w a (OnQueryStart 0 size) = Some (a', Some ErrorSearchReqRejected, evs)
     /\ evs = [EvLock; EvUnlock] ++ overQuotaSends a
     /\ (EvWait ∉ evs)
     /\ a' = set_overQuotaCh (overQuotaCh a ≫= chansend) a
     /\ overQuotaCh a' = overQuotaCh a ≫= chansend
     /\ (forall ch, overQuotaCh a = Some ch ->
           exists ch', overQuotaCh a' = Some ch'
             /\ ch_cap ch' = ch_cap ch
             /\ ch_len ch' - ch_recvq ch' = ch_len ch - ch_recvq ch + 1)
     /\ runningQueryUsed a' = runningQueryUsed a
     /\ m a' = None /\ waitCond a' = waitCond a /\ waiting a' = waiting a
     /\ indexes a' = indexes a /\ stats a' = stats a)
  /\ (~ chan_ready a ->
      invoke g w a (OnQueryStart 0 size) = None
      /\ run 16 g w a (start (OnQueryStart 0 size))
         = (a, Query_reject_send, [EvLock; EvUnlock])
      /\ gstep g w a Query_reject_send = None).
Proof.
  intros Hm Hq Hr Hover.
  assert (Hrun : forall rest,
            run (4 + rest) g w a (start (OnQueryStart 0 size))
            = let '(a'', p'', evs') := run rest g w a Query_reject_send in
              (a'', p'', [EvLock; EvUnlock] ++ evs')).
  { intros rest. unfold start. cbn [run Nat.add].
    cbn [gstep]. replace (queryQuota a <? 0) with false by lia.
    cbn [gstep]. rewrite (Lock_free g a Hm).
    rewrite Query_check_over by (simpl; assumption).
    cbn [gstep]. rewrite (Unlock_Lock g a Hm).
    destruct (run rest g w a Query_reject_send) as [[a'' p''] evs']. reflexivity. }
  split.
  - intros Hch.
    exists (set_overQuotaCh (overQuotaCh a ≫= chansend) a),
           ([EvLock; EvUnlock] ++ overQuotaSends a).
    split; [|split; [reflexivity|split; [|split; [reflexivity|split; [reflexivity|split]]]]].
    + unfold invoke. change 16%nat with (4 + 12)%nat. rewrite (Hrun 12%nat). cbn [run gstep].
      rewrite (sendOverQuota_exact a Hch). cbn [gstep]. rewrite app_nil_r. reflexivity.
    + unfold overQuotaSends. destruct (overQuotaCh a); simpl;
        rewrite ?elem_of_cons, elem_of_nil; intuition discriminate.
    + intros ch Hc. unfold chan_ready in Hch. rewrite Hc in Hch.
      destruct Hch as [ch' Hs]. exists ch'. simpl. rewrite Hc. simpl.
      split; [exact Hs|]. by apply chansend_one.
    + simpl. rewrite Hm. tauto.
  - intros Hch.
    assert (Hstuck : gstep g w a Query_reject_send = None).
    { cbn [gstep]. unfold chan_ready in Hch. unfold sendOverQuota.
      destruct (overQuotaCh a) as [ch|]; [|by destruct Hch].
      destruct (chansend ch) as [ch'|]; [|reflexivity].
      destruct Hch. by exists ch'. }
    split; [|split; [|exact Hstuck]].
    + unfold invoke. change 16%nat with (4 + 12)%nat.
      rewrite (Hrun 12%nat). cbn [run]. rewrite Hstuck. reflexivity.
    + change 16%nat with (4 + 12)%nat.
      rewrite (Hrun 12%nat). cbn [run]. rewrite Hstuck. reflexivity.
Qed.

(** Scenario S2: queryQuota 50, 10 bytes of queries running, process
    memory 45; a query of size 20 is turned away, and the empty channel
    of capacity 1 holds one element after the call. *)
Lemma onQueryStart_rejects_witness :
  exists a' evs,
    invoke 0 (world_of 45 0) herder_S2 (OnQueryStart 0 20)
      = Some (a', Some ErrorSearchReqRejected, evs)
    /\ evs = [EvLock; EvUnlock; EvSend]
    /\ (EvWait ∉ evs)
    /\ a' = set_overQuotaCh (Some {| ch_cap := 1; ch_len := 1; ch_recvq := 0 |}) herder_S2
    /\ overQuotaCh a' = Some {| ch_cap := 1; ch_len := 1; ch_recvq := 0 |}
    /\ (forall ch, overQuotaCh herder_S2 = Some ch ->
          exists ch', overQuotaCh a' = Some ch'
            /\ ch_cap ch' = ch_cap ch
            /\ ch_len ch' - ch_recvq ch' = ch_len ch - ch_recvq ch + 1)
    /\ runningQueryUsed a' = 10
    /\ m a' = None /\ waitCond a' = [] /\ waiting a' = 0
    /\ indexes a' = ∅ /\ stats a' = stats herder_S2.
Proof.
  apply (onQueryStart_rejects 0 (world_of 45 0) herder_S2 20).
  - reflexivity.
  - simpl. lia.
  - simpl. lia.
  - left. split; [simpl; lia | vm_compute; reflexivity].
  - simpl. eexists. reflexivity.
Defined.

(** The claim C3 as the specification words it fails on a channel that
    cannot take the element: in scenario S2 with the channel of capacity
    1 already full and no receiver, the call does not return the
    rejection; it has released the mutex and stands at the send of line
    282, which cannot be made. *)
Lemma onQueryStart_rejects_full_channel_counterexample :
  m herder_S2_full = None
  /\ queryQuota herder_S2_full >= 0
  /\ runningQueryUsed herder_S2_full > 0
  /\ queryQuota herder_S2_full > 0
  /\ queryMemUsed (world_of 45 0) 20 > queryQuota herder_S2_full
  /\ invoke 0 (world_of 45 0) herder_S2_full (OnQueryStart 0 20) = None
  /\ run 16 0 (world_of 45 0) herder_S2_full (start (OnQueryStart 0 20))
     = (herder_S2_full, Query_reject_send, [EvLock; EvUnlock])
  /\ gstep 0 (world_of 45 0) herder_S2_full Query_reject_send = None.
Proof.
  split; [reflexivity|]. split; [simpl; lia|]. split; [simpl; lia|].
  split; [simpl; lia|]. split; [vm_compute; reflexivity|].
  split; [vm_compute; reflexivity|]. split; [vm_compute; reflexivity|].
  vm_compute. reflexivity.
Qed.

Lemma Unlock_set_runningQueryUsed g x a :
  m a = None ->
  Unlock (set_runningQueryUsed x (set_m (Some g) a)) = set_runningQueryUsed x a.
Proof. destruct a; simpl; intros ->; reflexivity. Qed.

(** A query that is let in past the lock: lock, add, unlock. *)
Lemma invoke_onQueryStart_add g w a depth size :
  m a = None ->
  queryQuota a >= 0 ->
  gstep g w (set_m (Some g) a) (Query_check depth size)
    = Some (set_m (Some g) a, Query_add size, []) ->
  invoke g w a (OnQueryStart depth size)
    = Some (set_runningQueryUsed (wrap_u64 (runningQueryUsed a + size)) a,
            None, [EvLock; EvUnlock]).
Proof.
  intros Hm Hq Hcheck. unfold invoke, run, start.
  cbn [gstep]. replace (queryQuota a <? 0) with false by lia.
  cbn [gstep]. rewrite (Lock_free g a Hm), Hcheck.
  cbn [gstep]. rewrite (Unlock_set_runningQueryUsed g _ a Hm). reflexivity.
Qed.

(** C4.  With no sized query running (runningQueryUsed = 0) and
    queryQuota >= 0, a depth-0 query is let in and runningQueryUsed
    becomes its size, whatever the process memory and the quotas. *)
Theorem onQueryStart_single_query (g : nat) (w : World) (a : appHerder) (size : Z) :
  m a = None ->
  is_u64 size ->
  queryQuota a >= 0 ->
  runningQueryUsed a = 0 ->
  exists a',
    invoke g w a (OnQueryStart 0 size) = Some (a', None, [EvLock; EvUnlock])
    /\ runningQueryUsed a' = size
    /\ a' = set_runningQueryUsed size a.
Proof.
  intros Hm Hsize Hq Hr.
  exists (set_runningQueryUsed size a). split; [|split; reflexivity].
  rewrite invoke_onQueryStart_add; try assumption.
  - rewrite Hr, Z.add_0_l, wrap_u64_id by assumption. reflexivity.
  - simpl. rewrite Hr. reflexivity.
Qed.

(** A query of a million bytes while the process already uses 10^12
    bytes, far above every quota of the herder. *)
Lemma onQueryStart_single_query_witness :
  exists a',
    invoke 0 (world_of 1000000000000 0) (newAppHerder 100 100 100 50 None)
      (OnQueryStart 0 1000000) = Some (a', None, [EvLock; EvUnlock])
    /\ runningQueryUsed a' = 1000000
    /\ a' = set_runningQueryUsed 1000000 (newAppHerder 100 100 100 50 None).
Proof.
  apply (onQueryStart_single_query 0 (world_of 1000000000000 0)
           (newAppHerder 100 100 100 50 None) 1000000).
  - reflexivity.
  - unfold is_u64. lia.
  - simpl. lia.
  - reflexivity.
Defined.

(** C5, as the code has it.  A nested query (depth > 0) on a herder with
    queryQuota >= 0 is let in and runningQueryUsed grows by its size, in
    uint64 arithmetic, whatever the process memory, the quotas and the
    queries already running; with queryQuota < 0 it is let in and
    runningQueryUsed stays as it was. *)
Theorem onQueryStart_nested (g : nat) (w : World) (a : appHerder) (depth size : Z) :
  m a = None ->
  depth > 0 ->
  exists a',
    invoke g w a (OnQueryStart depth size)
      = Some (a', None, if queryQuota a <? 0 then [] else [EvLock; EvUnlock])
    /\ (queryQuota a >= 0 ->
        runningQueryUsed a' = wrap_u64 (runningQueryUsed a + size)
        /\ (is_u64 (runningQueryUsed a + size) ->
            runningQueryUsed a' = runningQueryUsed a + size))
    /\ (queryQuota a < 0 -> a' = a).
Proof.
  intros Hm Hd. destruct (Z.ltb_spec (queryQuota a) 0) as [Hq|Hq].
  - exists a. split; [|split; [lia|reflexivity]].
    unfold invoke, run, start. cbn [gstep].
    replace (queryQuota a <? 0) with true by lia. reflexivity.
  - eexists. split; [|split; [|lia]].
    + apply invoke_onQueryStart_add; [assumption|lia|].
      simpl. replace (depth =? 0) with false by lia. reflexivity.
    + intros _. simpl. split; [reflexivity|apply wrap_u64_id].
Qed.

(** queryQuota 50 with 1000 bytes running: a query of size 100 at depth 2
    brings runningQueryUsed to 1100. *)
Lemma onQueryStart_nested_witness :
  exists a',
    invoke 0 (world_of 45 0) herder_S6 (OnQueryStart 2 100)
      = Some (a', None, [EvLock; EvUnlock])
    /\ runningQueryUsed a' = 1100.
Proof.
  destruct (onQueryStart_nested 0 (world_of 45 0) herder_S6 2 100 eq_refl)
    as (a' & Hinv & Hadd & _); [lia|].
  exists a'. split; [exact Hinv|].
  apply Hadd; [simpl; lia|]. unfold is_u64. simpl. lia.
Defined.

(** The claim C5 as the specification words it fails when queryQuota is
    negative: the nested query is let in, but runningQueryUsed does not
    move (1000 before and after, not 1100). *)
Lemma onQueryStart_nested_bypass_counterexample :
  let a := set_runningQueryUsed 1000 herder_bypass_query in
  exists a',
    invoke 0 (world_of 45 0) a (OnQueryStart 2 100) = Some (a', None, [])
    /\ runningQueryUsed a' = 1000
    /\ runningQueryUsed a' <> runningQueryUsed a + 100.
Proof.
  eexists. split; [vm_compute; reflexivity|]. split; [reflexivity|].
  simpl. lia.
Qed.

Lemma awakeWaitersLOCKED_frame a :
  let a' := (awakeWaitersLOCKED a).1 in
  m a' = m a /\ waiting a' = waiting a /\ indexes a' = indexes a
  /\ runningQueryUsed a' = runningQueryUsed a /\ stats a' = stats a
  /\ overQuotaCh a' = overQuotaCh a /\ queryQuota a' = queryQuota a
  /\ indexQuota a' = indexQuota a /\ appQuota a' = appQuota a
  /\ memQuota a' = memQuota a.
Proof. unfold awakeWaitersLOCKED. destruct (waiting a >? 0); simpl; tauto. Qed.

(** [onQueryEnd] run on its own: lock, subtract, wake the waiters when
    there are any, unlock.  The subtraction is that of uint64. *)
Lemma invoke_onQueryEnd g w a depth size :
  m a = None ->
  exists a' evs,
    invoke g w a (OnQueryEnd depth size) = Some (a', None, evs)
    /\ runningQueryUsed a' = wrap_u64 (runningQueryUsed a - size)
    /\ m a' = None /\ waiting a' = waiting a /\ indexes a' = indexes a
    /\ stats a' = stats a /\ overQuotaCh a' = overQuotaCh a
    /\ queryQuota a' = queryQuota a /\ appQuota a' = appQuota a
    /\ indexQuota a' = indexQuota a.
Proof.
  intros Hm. unfold invoke, run, start.
  cbn [gstep]. rewrite (Lock_free g a Hm).
  cbn [gstep].
  set (a1 := set_runningQueryUsed _ _).
  pose proof (awakeWaitersLOCKED_frame a1) as Hf.
  destruct (awakeWaitersLOCKED a1) as [a2 evs]. simpl in Hf.
  cbn [gstep]. do 2 eexists. split; [reflexivity|].
  simpl. destruct Hf as (? & -> & -> & -> & -> & -> & -> & -> & -> & ?).
  subst a1. simpl. tauto.
Qed.

(** C7, as the code has it.  When [onQueryEnd] is called with a size
    above runningQueryUsed the accumulator is not clamped: the uint64
    subtraction wraps to 2^64 + runningQueryUsed - size, a value that is
    not zero and, the type being unsigned, not negative. *)
Theorem onQueryEnd_wraps (g : nat) (w : World) (a : appHerder) (depth size : Z) :
  m a = None ->
  is_u64 (runningQueryUsed a) ->
  is_u64 size ->
  size > runningQueryUsed a ->
  exists a' evs,
    invoke g w a (OnQueryEnd depth size) = Some (a', None, evs)
    /\ runningQueryUsed a' = 2 ^ 64 + runningQueryUsed a - size
    /\ 0 < runningQueryUsed a' < 2 ^ 64.
Proof.
  intros Hm Hr Hs Hgt.
  destruct (invoke_onQueryEnd g w a depth size Hm) as (a' & evs & Hinv & Hrq & _).
  exists a', evs. split; [assumption|].
  rewrite Hrq, wrap_u64_underflow by (assumption || lia).
  unfold is_u64 in *. lia.
Qed.

(** Ten bytes of queries running, a query of twenty ends. *)
Lemma onQueryEnd_wraps_witness :
  exists a' evs,
    invoke 0 (world_of 45 0) herder_S2 (OnQueryEnd 0 20) = Some (a', None, evs)
    /\ runningQueryUsed a' = 2 ^ 64 + runningQueryUsed herder_S2 - 20
    /\ 0 < runningQueryUsed a' < 2 ^ 64.
Proof.
  apply (onQueryEnd_wraps 0 (world_of 45 0) herder_S2 0 20).
  - reflexivity.
  - unfold is_u64. simpl. lia.
  - unfold is_u64. lia.
  - simpl. lia.
Defined.

(** The claim C7 as the specification words it fails: with 10 bytes
    running, the end of a query of size 20 leaves 2^64 - 10, not 0. *)
Lemma onQueryEnd_clamp_counterexample :
  exists a' evs,
    invoke 0 (world_of 45 0) herder_S2 (OnQueryEnd 0 20) = Some (a', None, evs)
    /\ runningQueryUsed a' = 18446744073709551606
    /\ runningQueryUsed a' <> 0.
Proof.
  do 2 eexists. split; [vm_compute; reflexivity|]. split; [reflexivity|].
  simpl. discriminate.
Qed.

(** ** The bypass of a negative quota *)

(** With indexQuota < 0 the first action of [onBatchExecuteStart] is its
    return: it needs no lock, no channel and no particular world. *)
Lemma Batch_entry_bypass g w a c s :
  indexQuota a < 0 ->
  gstep g w a (Batch_entry c s) = Some (a, Returned None, []).
Proof. intros H. simpl. replace (indexQuota a <? 0) with true by lia. reflexivity. Qed.

Lemma Query_entry_bypass g w a depth size :
  queryQuota a < 0 ->
  gstep g w a (Query_entry depth size) = Some (a, Returned None, []).
Proof. intros H. simpl. replace (queryQuota a <? 0) with true by lia. reflexivity. Qed.

(** C2, as the code has it.  With indexQuota < 0, [onBatchExecuteStart]
    returns at once, whoever holds the mutex and whatever process memory
    the world reports, and the herder after the call is the herder
    before it, field for field; a herder that was fresh before the call
    therefore has TotOnBatchExecuteStartBeg, TotOnBatchExecuteStartEnd,
    TotWaitingIn and TotWaitingOut all 0 after it, and no engine
    registered. *)
Theorem onBatchExecuteStart_bypass
  (g : nat) (w : World) (c : handle) (s : sizeFunc) (a : appHerder) :
  indexQuota a < 0 ->
  exists a',
    gstep g w a (start (OnBatchExecuteStart c s)) = Some (a', Returned None, [])
    /\ invoke g w a (OnBatchExecuteStart c s) = Some (a', None, [])
    /\ a' = a
    /\ forall memQ appQ indexQ queryQ ch holder,
         a = set_m holder (newAppHerder memQ appQ indexQ queryQ ch) ->
         TotOnBatchExecuteStartBeg (stats a') = 0
         /\ TotOnBatchExecuteStartEnd (stats a') = 0
         /\ TotWaitingIn (stats a') = 0
         /\ TotWaitingOut (stats a') = 0
         /\ indexes a' = ∅ /\ waiting a' = 0 /\ runningQueryUsed a' = 0
         /\ m a' = holder /\ overQuotaCh a' = ch.
Proof.
  intros Hq. exists a.
  assert (Hstep : gstep g w a (Batch_entry c s) = Some (a, Returned None, []))
    by (apply Batch_entry_bypass; exact Hq).
  split; [exact Hstep|]. split.
  - unfold invoke, run, start. rewrite Hstep. reflexivity.
  - split; [reflexivity|].
    intros memQ appQ indexQ queryQ ch holder ->. simpl. tauto.
Qed.

(** memQuota 1e9 with ratios (1.0, -1.0, 1.0), process memory 10e9: the
    herder of scenario S1 is the same after the call. *)
Lemma onBatchExecuteStart_bypass_witness :
  exists a',
    gstep 0 (world_of 10000000000 0) herder_S1
      (start (OnBatchExecuteStart 1%positive engineSize)) = Some (a', Returned None, [])
    /\ invoke 0 (world_of 10000000000 0) herder_S1
         (OnBatchExecuteStart 1%positive engineSize) = Some (a', None, [])
    /\ a' = herder_S1
    /\ forall memQ appQ indexQ queryQ ch holder,
         herder_S1 = set_m holder (newAppHerder memQ appQ indexQ queryQ ch) ->
         TotOnBatchExecuteStartBeg (stats a') = 0
         /\ TotOnBatchExecuteStartEnd (stats a') = 0
         /\ TotWaitingIn (stats a') = 0
         /\ TotWaitingOut (stats a') = 0
         /\ indexes a' = ∅ /\ waiting a' = 0 /\ runningQueryUsed a' = 0
         /\ m a' = holder /\ overQuotaCh a' = ch.
Proof.
  apply (onBatchExecuteStart_bypass 0 (world_of 10000000000 0) 1%positive engineSize
           herder_S1).
  simpl. lia.
Defined.

(** The claim C2 as the specification words it fails on the counters:
    after the one bypassed call of scenario S1 both
    TotOnBatchExecuteStartBeg and TotOnBatchExecuteStartEnd are 0, not 1. *)
Lemma onBatchExecuteStart_bypass_counterexample :
  exists a',
    invoke 0 (world_of 10000000000 0) herder_S1
      (OnBatchExecuteStart 1%positive engineSize) = Some (a', None, [])
    /\ TotOnBatchExecuteStartBeg (stats a') <> 1
    /\ TotOnBatchExecuteStartEnd (stats a') <> 1.
Proof.
  eexists. split; [vm_compute; reflexivity|]. simpl. split; discriminate.
Qed.

(** [onClose] run on its own: lock, delete, wake the waiters when there
    are any, unlock. *)
Lemma invoke_onClose g w a c :
  m a = None ->
  exists a' evs,
    invoke g w a (OnClose c) = Some (a', None, evs)
    /\ indexes a' = delete c (indexes a)
    /\ m a' = None /\ waiting a' = waiting a
    /\ runningQueryUsed a' = runningQueryUsed a /\ stats a' = stats a.
Proof.
  intros Hm. unfold invoke, run, start.
  cbn [gstep]. rewrite (Lock_free g a Hm).
  cbn [gstep].
  set (a1 := set_indexes _ _).
  pose proof (awakeWaitersLOCKED_frame a1) as Hf.
  destruct (awakeWaitersLOCKED a1) as [a2 evs]. simpl in Hf.
  cbn [gstep]. do 2 eexists. split; [reflexivity|].
  simpl. destruct Hf as (? & -> & -> & -> & -> & ?).
  subst a1. simpl. tauto.
Qed.

(** C10.  With indexQuota < 0 a call of [onBatchExecuteStart] leaves the
    whole herder as it was: the handle is not registered (a later
    [onClose] of it finds nothing to remove and the indexing memory is
    the same), runningQueryUsed, waiting and the four counters are
    untouched.  With queryQuota < 0 [onQueryStart] lets the query in
    without adding its size, while [onQueryEnd] still subtracts it. *)
Theorem negative_quota_frame
  (g : nat) (w : World) (a : appHerder) (c : handle) (s : sizeFunc) (depth size : Z) :
  m a = None ->
  (indexQuota a < 0 ->
   invoke g w a (OnBatchExecuteStart c s) = Some (a, None, [])
   /\ (indexes a !! c = None ->
       exists a' evs,
         invoke g w a (OnClose c) = Some (a', None, evs)
         /\ indexes a' = indexes a
         /\ forall w', indexingMemoryLOCKED w' a' = indexingMemoryLOCKED w' a))
  /\ (queryQuota a < 0 ->
      invoke g w a (OnQueryStart depth size) = Some (a, None, [])
      /\ exists a' evs,
          invoke g w a (OnQueryEnd depth size) = Some (a', None, evs)
          /\ runningQueryUsed a' = wrap_u64 (runningQueryUsed a - size)).
Proof.
  intros Hm. split.
  - intros Hq. split.
    + unfold invoke, run, start. rewrite Batch_entry_bypass by exact Hq. reflexivity.
    + intros Hc.
      destruct (invoke_onClose g w a c Hm) as (a' & evs & Hinv & Hix & _).
      exists a', evs. split; [exact Hinv|].
      rewrite delete_id in Hix by exact Hc.
      split; [exact Hix|]. intros w'. unfold indexingMemoryLOCKED. by rewrite Hix.
  - intros Hq. split.
    + unfold invoke, run, start. rewrite Query_entry_bypass by exact Hq. reflexivity.
    + destruct (invoke_onQueryEnd g w a depth size Hm) as (a' & evs & Hinv & Hrq & _).
      exists a', evs. tauto.
Qed.

(** Both quotas negative; a batch for engine 1 and a query of size 5. *)
Lemma negative_quota_frame_witness :
  let a := newAppHerder 100 100 (-100) (-100) None in
  (invoke 0 (world_of 500 200) a (OnBatchExecuteStart 1%positive engineSize)
     = Some (a, None, [])
   /\ exists a' evs,
       invoke 0 (world_of 500 200) a (OnClose 1%positive) = Some (a', None, evs)
       /\ indexes a' = indexes a
       /\ forall w', indexingMemoryLOCKED w' a' = indexingMemoryLOCKED w' a)
  /\ (invoke 0 (world_of 500 200) a (OnQueryStart 0 5) = Some (a, None, [])
      /\ exists a' evs,
          invoke 0 (world_of 500 200) a (OnQueryEnd 0 5) = Some (a', None, evs)
          /\ runningQueryUsed a' = wrap_u64 (runningQueryUsed a - 5)).
Proof.
  destruct (negative_quota_frame 0 (world_of 500 200)
              (newAppHerder 100 100 (-100) (-100) None) 1%positive engineSize 0 5
              eq_refl) as [Hindex Hquery].
  split.
  - destruct Hindex as [Hbatch Hclose]; [simpl; lia|].
    split; [exact Hbatch|]. apply Hclose. reflexivity.
  - apply Hquery. simpl. lia.
Defined.

(** ** Pairing of query starts and ends *)

Lemma Lock_inv g a a' : Lock g a = Some a' -> m a = None /\ a' = set_m (Some g) a.
Proof. unfold Lock. destruct (m a); [discriminate|]. intros [= <-]. tauto. Qed.

Lemma sendOverQuota_inv a a' evs :
  sendOverQuota a = Some (a', evs) ->
  evs = overQuotaSends a
  /\ m a' = m a /\ waitCond a' = waitCond a /\ waiting a' = waiting a
  /\ indexes a' = indexes a /\ runningQueryUsed a' = runningQueryUsed a
  /\ stats a' = stats a /\ queryQuota a' = queryQuota a
  /\ indexQuota a' = indexQuota a /\ appQuota a' = appQuota a.
Proof.
  unfold sendOverQuota, overQuotaSends.
  destruct (overQuotaCh a) as [ch|]; [destruct (chansend ch)|];
    try discriminate; intros [= <- <-]; simpl; tauto.
Qed.

(** What a finished [onQueryStart] did to the accumulator. *)
Lemma invoke_onQueryStart_inv g w a depth size a' r evs :
  invoke g w a (OnQueryStart depth size) = Some (a', r, evs) ->
  queryQuota a' = queryQuota a
  /\ match r with
     | None =>
         runningQueryUsed a' =
           if queryQuota a <? 0 then runningQueryUsed a
           else wrap_u64 (runningQueryUsed a + size)
     | Some _ => runningQueryUsed a' = runningQueryUsed a
     end.
Proof.
  intros H. unfold invoke, run, start in H.
  repeat (first [ progress cbn [gstep] in H
                | case_match; simplify_eq/=; try tauto ]).
  all: repeat match goal with
         | H : Lock _ _ = Some _ |- _ => apply Lock_inv in H as [? ->]
         | H : sendOverQuota _ = Some _ |- _ =>
             apply sendOverQuota_inv in H as (_ & _ & _ & _ & _ & -> & _ & -> & _)
         end.
  all: simpl; tauto.
Qed.

(** A finished [onQueryEnd] found the mutex free. *)
Lemma invoke_onQueryEnd_inv g w a depth size a' r evs :
  invoke g w a (OnQueryEnd depth size) = Some (a', r, evs) ->
  queryQuota a' = queryQuota a
  /\ runningQueryUsed a' = wrap_u64 (runningQueryUsed a - size).
Proof.
  intros H.
  assert (Hm : m a = None).
  { unfold invoke, run, start in H. cbn [gstep] in H. unfold Lock in H.
    destruct (m a); [discriminate|reflexivity]. }
  destruct (invoke_onQueryEnd g w a depth size Hm)
    as (a1 & evs1 & Hinv & Hrq & _ & _ & _ & _ & _ & Hq & _).
  rewrite Hinv in H. injection H as <- <- <-. tauto.
Qed.

Lemma remove_one_sum x l l' : remove_one x l = Some l' -> sumZ l = x + sumZ l'.
Proof.
  revert l'. induction l as [|y l IH]; simpl; intros l' H.
  - discriminate.
  - destruct (Z.eqb_spec x y) as [->|_].
    + injection H as <-. reflexivity.
    + destruct (remove_one x l) as [r|]; [|discriminate].
      injection H as <-. simpl. rewrite (IH r eq_refl). lia.
Qed.

(** While queries come and go, runningQueryUsed is the sum, modulo 2^64,
    of the sizes of the queries let in and not yet ended. *)
Lemma qrun_accumulator g evs :
  forall a running a' running',
    queryQuota a >= 0 ->
    runningQueryUsed a = wrap_u64 (sumZ running) ->
    qrun g evs a running = Some (a', running') ->
    runningQueryUsed a' = wrap_u64 (sumZ running').
Proof.
  induction evs as [|[w depth size|w depth size] evs IH];
    intros a running a' running' Hq Hacc Hrun; simpl in Hrun.
  - injection Hrun as <- <-. exact Hacc.
  - destruct (invoke g w a (OnQueryStart depth size)) as [[[a1 r] evs1]|] eqn:Hinv;
      [|discriminate].
    apply invoke_onQueryStart_inv in Hinv as [Hq1 Hr1].
    destruct r as [e|].
    + apply (IH a1 running); [lia|congruence|exact Hrun].
    + apply (IH a1 (size :: running)); [lia| |exact Hrun].
      replace (queryQuota a <? 0) with false in Hr1 by lia.
      rewrite Hr1, Hacc, wrap_u64_add_l. simpl. f_equal. lia.
  - destruct (remove_one size running) as [running1|] eqn:Hrem; [|discriminate].
    destruct (invoke g w a (OnQueryEnd depth size)) as [[[a1 r] evs1]|] eqn:Hinv;
      [|discriminate].
    apply invoke_onQueryEnd_inv in Hinv as [Hq1 Hr1].
    apply (IH a1 running1); [lia| |exact Hrun].
    rewrite Hr1, Hacc, wrap_u64_sub_l, (remove_one_sum _ _ _ Hrem). f_equal. lia.
Qed.

(** C6, as the code has it.  On a herder with queryQuota >= 0 and
    runningQueryUsed = 0, after any sequence of query starts and ends in
    which every query let in is ended once with its own size, and
    nothing else is ended, runningQueryUsed is 0 again. *)
Theorem query_pairing (g : nat) (evs : list qevent) (a a' : appHerder) :
  queryQuota a >= 0 ->
  runningQueryUsed a = 0 ->
  qrun g evs a [] = Some (a', []) ->
  runningQueryUsed a' = 0.
Proof.
  intros Hq Hr Hrun.
  apply (qrun_accumulator g evs a [] a' []) in Hrun; [exact Hrun|exact Hq|].
  rewrite Hr. reflexivity.
Qed.

(** Two overlapping queries and a third one that is turned away. *)
Lemma query_pairing_witness :
  qrun 0 trace_overlap (newAppHerder 100 100 100 50 None) []
    = Some (newAppHerder 100 100 100 50 None, [])
  /\ runningQueryUsed (newAppHerder 100 100 100 50 None) = 0.
Proof.
  assert (Hrun : qrun 0 trace_overlap (newAppHerder 100 100 100 50 None) []
                 = Some (newAppHerder 100 100 100 50 None, []))
    by (vm_compute; reflexivity).
  split; [exact Hrun|].
  apply (query_pairing 0 trace_overlap (newAppHerder 100 100 100 50 None)
           (newAppHerder 100 100 100 50 None)).
  - simpl. lia.
  - reflexivity.
  - exact Hrun.
Defined.

(** Pairs run one after the other always run to their end, and leave the
    accumulator at 0. *)
Lemma query_pairs_run g (l : list (World * Z)) :
  forall a,
    m a = None -> queryQuota a >= 0 -> runningQueryUsed a = 0 ->
    Forall (fun ws => is_u64 ws.2) l ->
    exists a', qrun g (pairs l) a [] = Some (a', [])
      /\ m a' = None /\ runningQueryUsed a' = 0.
Proof.
  induction l as [|[w size] l IH]; intros a Hm Hq Hr Hl.
  - exists a. simpl. tauto.
  - inversion Hl as [|? ? Hsize Hl']; subst. simpl in Hsize.
    assert (Hinv1 : invoke g w a (OnQueryStart 0 size)
                    = Some (set_runningQueryUsed size a, None, [EvLock; EvUnlock])).
    { rewrite invoke_onQueryStart_add; try assumption.
      - rewrite Hr, Z.add_0_l, wrap_u64_id by assumption. reflexivity.
      - simpl. rewrite Hr. reflexivity. }
    destruct (invoke_onQueryEnd g w (set_runningQueryUsed size a) 0 size Hm)
      as (a2 & evs2 & Hinv2 & Hr2 & Hm2 & _ & _ & _ & _ & Hq2 & _).
    destruct (IH a2) as (a' & Hrun & Hm' & Hr'); try assumption.
    + rewrite Hq2. exact Hq.
    + rewrite Hr2. simpl. rewrite Z.sub_diag. reflexivity.
    + exists a'. split; [|tauto].
      unfold pairs. simpl. rewrite Hinv1. simpl.
      rewrite Z.eqb_refl, Hinv2. exact Hrun.
Qed.

(** The claim C6 as the specification words it fails when queryQuota is
    negative: the start adds nothing, the end subtracts, and one pair of
    size 5 leaves 2^64 - 5. *)
Lemma query_pairing_bypass_counterexample :
  exists a',
    qrun 0 (pairs [(world_of 45 0, 5)]) herder_bypass_query [] = Some (a', [])
    /\ runningQueryUsed herder_bypass_query = 0
    /\ runningQueryUsed a' = 18446744073709551611
    /\ runningQueryUsed a' <> 0.
Proof.
  eexists. split; [vm_compute; reflexivity|]. simpl.
  split; [reflexivity|]. split; [reflexivity|discriminate].
Qed.

(** ** The mutex *)

(** What one action does to the mutex: it takes it, releases it, or
    leaves it alone; the program point tells which. *)
Lemma gstep_mutex g w a p a' p' evs :
  gstep g w a p = Some (a', p', evs) ->
  (critical p = false /\ critical p' = true /\ m a = None /\ m a' = Some g)
  \/ (critical p = true /\ critical p' = false /\ m a' = None)
  \/ (critical p = critical p' /\ m a' = m a).
Proof.
  intros H.
  gstep_cases p H; tauto.
Qed.

Lemma start_not_critical c : critical (start c) = false.
Proof. destruct c; reflexivity. Qed.

Lemma mutex_inv_step s s' : mutex_inv s -> sstep s s' -> mutex_inv s'.
Proof.
  intros [Hcrit Hheld] Hstep.
  destruct Hstep as [s g p a' p' evs Hp Hg|s c|s w'|s ch Hch]; simpl.
  - pose proof (lookup_lt_Some _ _ _ Hp) as Hlt.
    apply gstep_mutex in Hg as [(Hc & Hc' & Hm & Hm')|[(Hc & Hc' & Hm')|(Hc & Hm')]].
    + split; simpl.
      * intros g0 p0 Hp0 Hc0. destruct (decide (g0 = g)) as [->|Hne]; [exact Hm'|].
        rewrite list_lookup_insert_ne in Hp0 by congruence.
        specialize (Hcrit g0 p0 Hp0 Hc0). congruence.
      * intros g0 Hg0. assert (g0 = g) as -> by congruence.
        exists p'. split; [|exact Hc']. by apply list_lookup_insert_eq.
    + pose proof (Hcrit g p Hp Hc) as Hm.
      split; simpl.
      * intros g0 p0 Hp0 Hc0. destruct (decide (g0 = g)) as [->|Hne].
        -- rewrite list_lookup_insert_eq in Hp0 by exact Hlt. congruence.
        -- rewrite list_lookup_insert_ne in Hp0 by congruence.
           specialize (Hcrit g0 p0 Hp0 Hc0). congruence.
      * intros g0 Hg0. congruence.
    + split; simpl.
      * intros g0 p0 Hp0 Hc0. rewrite Hm'. destruct (decide (g0 = g)) as [->|Hne].
        -- rewrite list_lookup_insert_eq in Hp0 by exact Hlt.
           apply (Hcrit g p Hp). congruence.
        -- rewrite list_lookup_insert_ne in Hp0 by congruence. eauto.
      * intros g0 Hg0. rewrite Hm' in Hg0.
        destruct (Hheld g0 Hg0) as (p0 & Hp0 & Hc0).
        destruct (decide (g0 = g)) as [->|Hne].
        -- exists p'. split; [by apply list_lookup_insert_eq|congruence].
        -- exists p0. split; [|exact Hc0]. by rewrite list_lookup_insert_ne by congruence.
  - split; simpl.
    + intros g p Hp Hc. apply lookup_app_Some in Hp as [Hp|[_ Hp]]; [eauto|].
      apply list_lookup_singleton_Some in Hp as [_ <-].
      rewrite start_not_critical in Hc. discriminate.
    + intros g Hg. destruct (Hheld g Hg) as (p & Hp & Hc).
      exists p. split; [|exact Hc]. by apply lookup_app_l_Some.
  - split; assumption.
  - split; assumption.
Qed.

Lemma mutex_inv_reach n s : reach n s -> mutex_inv s.
Proof.
  induction 1 as [memQ appQ indexQ queryQ ch w|n s s' _ IH Hstep].
  - split; simpl.
    + intros g p Hp. rewrite lookup_nil in Hp. discriminate.
    + intros g Hg. discriminate.
  - eapply mutex_inv_step; eassumption.
Qed.

(** Mutual exclusion: two goroutines are never both between a lock and
    its unlock. *)
Lemma mutual_exclusion n s g1 g2 p1 p2 :
  reach n s ->
  pool s !! g1 = Some p1 -> pool s !! g2 = Some p2 ->
  critical p1 = true -> critical p2 = true -> g1 = g2.
Proof.
  intros Hr H1 H2 Hc1 Hc2. destruct (mutex_inv_reach n s Hr) as [Hcrit _].
  pose proof (Hcrit g1 p1 H1 Hc1). pose proof (Hcrit g2 p2 H2 Hc2). congruence.
Qed.

(** A goroutine that runs on its own for a while is one interleaving of
    the system. *)
Lemma reach_run k :
  forall n s g p,
    reach n s -> pool s !! g = Some p ->
    exists n',
      reach n' {| herder := (run k g (world s) (herder s) p).1.1;
                  world := world s;
                  pool := <[g := (run k g (world s) (herder s) p).1.2]> (pool s) |}.
Proof.
  induction k as [|k IH]; intros n s g p Hr Hp.
  - exists n. simpl. rewrite list_insert_id by exact Hp. destruct s; exact Hr.
  - simpl. destruct (gstep g (world s) (herder s) p) as [[[a1 p1] evs1]|] eqn:Hg.
    + pose proof (lookup_lt_Some _ _ _ Hp) as Hlt.
      destruct (IH (S n) {| herder := a1; world := world s; pool := <[g := p1]> (pool s) |}
                  g p1) as [n' Hn'].
      * eapply reach_step; [exact Hr|]. eapply sstep_go; eassumption.
      * simpl. by apply list_lookup_insert_eq.
      * simpl in Hn'. rewrite list_insert_insert_eq in Hn'.
        destruct (run k g (world s) a1 p1) as [[a2 p2] evs2].
        exists n'. exact Hn'.
    + exists n. simpl. rewrite list_insert_id by exact Hp. destruct s; exact Hr.
Qed.

(** ** The over-quota channel and the mutex *)

(** A worker that stands at the send of the gate (line 158) holds the
    mutex: the send of [onBatchExecuteStart] is always made under it. *)
Lemma gate_send_under_mutex n s g :
  reach n s -> pool s !! g = Some Batch_send -> m (herder s) = Some g.
Proof.
  intros Hr Hp. destruct (mutex_inv_reach n s Hr) as [Hcrit _].
  apply (Hcrit g Batch_send Hp). reflexivity.
Qed.

(** X16.  A query that stands at one of its sends (lines 282 and 296) does not
    hold the mutex: it released it one line before. *)
Lemma query_send_outside_mutex n s g :
  reach n s -> pool s !! g = Some Query_reject_send -> m (herder s) <> Some g.
Proof.
  intros Hr Hp Hm. destruct (mutex_inv_reach n s Hr) as [_ Hheld].
  destruct (Hheld g Hm) as (p & Hp' & Hc). rewrite Hp in Hp'.
  injection Hp' as <-. discriminate.
Qed.

(** In the trace of a whole [onQueryStart] no send is made while the
    mutex is held. *)
Lemma onQueryStart_sends_unlocked g w a depth size a' r evs :
  invoke g w a (OnQueryStart depth size) = Some (a', r, evs) ->
  sends_locked false evs = false.
Proof.
  intros H. unfold invoke, run, start in H.
  repeat (first [ progress cbn [gstep] in H
                | case_match; simplify_eq/=; try reflexivity ]).
  all: repeat match goal with
         | H : sendOverQuota _ = Some _ |- _ =>
             apply sendOverQuota_inv in H as (-> & _)
         end.
  all: unfold overQuotaSends; simpl; destruct (overQuotaCh _); reflexivity.
Qed.

(** C8 fails in the gate.  In scenario S3 (indexQuota 100, one engine of
    200 bytes, process memory 150, an over-quota channel) the worker
    reaches the send of line 158 holding the mutex and sends: the trace
    of its call is lock, send, wait. *)
Theorem gate_sends_holding_mutex :
  (exists n s,
     reach n s
     /\ pool s !! 0%nat = Some Batch_send
     /\ herder s = herder_S3_at_send
     /\ world s = world_S3)
  /\ m herder_S3_at_send = Some 0%nat
  /\ (exists a', gstep 0 world_S3 herder_S3_at_send Batch_send
                 = Some (a', Batch_wait, [EvSend]))
  /\ (run 16 0 world_S3 herder_S3 (start (OnBatchExecuteStart 1%positive engineSize))).2
     = [EvLock; EvSend; EvWait; EvUnlock]
  /\ sends_locked false [EvLock; EvSend; EvWait; EvUnlock] = true.
Proof.
  split; [|split; [|split; [|split]]].
  - pose (c := OnBatchExecuteStart 1%positive engineSize).
    assert (H1 : reach 1 {| herder := herder_S3; world := world_S3; pool := [] ++ [start c] |}).
    { eapply reach_step; [apply (reach_new 400 400 100 400 (Some chan1) world_S3)|].
      apply (sstep_call {| herder := herder_S3; world := world_S3; pool := [] |} c). }
    destruct (reach_run 7 _ _ 0%nat (start c) H1 eq_refl) as [n Hn].
    eexists n, _. split; [exact Hn|].
    split; [vm_compute; reflexivity|split; reflexivity].
  - vm_compute. reflexivity.
  - assert (Hch : overQuotaCh herder_S3_at_send = Some chan1)
      by (vm_compute; reflexivity).
    eexists. cbn [gstep]. unfold sendOverQuota. rewrite Hch. reflexivity.
  - vm_compute. reflexivity.
  - reflexivity.
Qed.

(** ** The counters *)

Lemma inside_nonneg l : 0 <= inside l.
Proof. induction l as [|p l IH]; simpl; [lia|]. destruct (in_gate p); lia. Qed.

Lemma inside_app l p : inside (l ++ [p]) = inside l + gate_count p.
Proof.
  unfold gate_count. induction l as [|q l IH]; simpl; [lia|]. rewrite IH. lia.
Qed.

Lemma inside_insert l g p p' :
  l !! g = Some p ->
  inside (<[g := p']> l) = inside l - gate_count p + gate_count p'.
Proof.
  unfold gate_count. revert g. induction l as [|q l IH]; intros [|g] H; simpl in *.
  - discriminate.
  - discriminate.
  - injection H as ->. lia.
  - rewrite (IH g H). lia.
Qed.

Lemma start_not_in_gate c : gate_count (start c) = 0.
Proof. destruct c; reflexivity. Qed.

(** What one action does to the counters: each of the two waiting
    counters stays or gains one; the worker that passes line 138 enters
    the gate, the one that passes line 177 leaves it, and no other
    action touches the two other counters. *)
Lemma gstep_stats g w a p a' p' evs :
  gstep g w a p = Some (a', p', evs) ->
  let st := stats a in
  let st' := stats a' in
  (TotWaitingIn st' = TotWaitingIn st
   \/ TotWaitingIn st' = wrap_u64 (TotWaitingIn st + 1))
  /\ (TotWaitingOut st' = TotWaitingOut st
      \/ TotWaitingOut st' = wrap_u64 (TotWaitingOut st + 1))
  /\ ((gate_count p' = gate_count p + 1
       /\ TotOnBatchExecuteStartBeg st' = wrap_u64 (TotOnBatchExecuteStartBeg st + 1)
       /\ TotOnBatchExecuteStartEnd st' = TotOnBatchExecuteStartEnd st
       /\ TotWaitingIn st' = TotWaitingIn st /\ TotWaitingOut st' = TotWaitingOut st)
      \/ (gate_count p' = gate_count p - 1
          /\ TotOnBatchExecuteStartEnd st' = wrap_u64 (TotOnBatchExecuteStartEnd st + 1)
          /\ TotOnBatchExecuteStartBeg st' = TotOnBatchExecuteStartBeg st
          /\ TotWaitingIn st' = TotWaitingIn st /\ TotWaitingOut st' = TotWaitingOut st)
      \/ (gate_count p' = gate_count p
          /\ TotOnBatchExecuteStartBeg st' = TotOnBatchExecuteStartBeg st
          /\ TotOnBatchExecuteStartEnd st' = TotOnBatchExecuteStartEnd st
          /\ (TotWaitingIn st' = TotWaitingIn st
              \/ TotWaitingOut st' = TotWaitingOut st))).
Proof.
  intros H.
  gstep_cases p H; unfold gate_count; simpl; tauto.
Qed.

Lemma stats_inv_step n s s' :
  stats_inv n s -> sstep s s' -> Z.of_nat n + 1 < 2 ^ 64 -> stats_inv (S n) s'.
Proof.
  unfold stats_inv. intros (Hin & Hout & Hend & Hbeg & Hgate) Hstep Hn.
  rewrite Nat2Z.inj_succ.
  destruct Hstep as [s g p a' p' evs Hp Hg|s c|s w'|s ch Hch]; simpl.
  - rewrite (inside_insert _ _ _ p' Hp).
    pose proof (inside_nonneg (pool s)) as Hpos.
    apply gstep_stats in Hg. simpl in Hg.
    destruct Hg as (Hi & Ho & Hg).
    assert (Hw : forall x, 0 <= x <= Z.of_nat n -> wrap_u64 (x + 1) = x + 1)
      by (intros x Hx; apply wrap_u64_id; unfold is_u64; lia).
    rewrite ?Hw in Hi by lia. rewrite ?Hw in Ho by lia. rewrite !Hw in Hg by lia.
    destruct Hg as [(-> & -> & -> & -> & ->)|[(-> & -> & -> & -> & ->)|(-> & -> & -> & _)]];
      lia.
  - rewrite inside_app, start_not_in_gate. lia.
  - lia.
  - lia.
Qed.

Lemma stats_inv_reach n s : reach n s -> Z.of_nat n < 2 ^ 64 -> stats_inv n s.
Proof.
  induction 1 as [memQ appQ indexQ queryQ ch w|n s s' _ IH Hstep]; intros Hn.
  - unfold stats_inv. simpl. lia.
  - apply (stats_inv_step n s s'); [apply IH; lia|exact Hstep|lia].
Qed.

(** One move leaves each counter where it was or above. *)
Lemma sstep_counters n s s' :
  stats_inv n s -> sstep s s' -> Z.of_nat n + 1 < 2 ^ 64 ->
  let st := stats (herder s) in
  let st' := stats (herder s') in
  TotWaitingIn st <= TotWaitingIn st'
  /\ TotWaitingOut st <= TotWaitingOut st'
  /\ TotOnBatchExecuteStartBeg st <= TotOnBatchExecuteStartBeg st'
  /\ TotOnBatchExecuteStartEnd st <= TotOnBatchExecuteStartEnd st'.
Proof.
  intros Hinv Hstep Hn st st'.
  pose proof (inside_nonneg (pool s)) as Hpos.
  unfold stats_inv in Hinv. fold st in Hinv.
  destruct Hinv as (Hin & Hout & Hend & Hbeg & Hgate).
  destruct Hstep as [s g p a' p' evs Hp Hg|s c|s w'|s ch Hch];
    subst st st'; simpl in *; try lia.
  apply gstep_stats in Hg. simpl in Hg. destruct Hg as (Hi & Ho & Hg).
  assert (Hw : forall x, 0 <= x <= Z.of_nat n -> wrap_u64 (x + 1) = x + 1)
    by (intros x Hx; apply wrap_u64_id; unfold is_u64; lia).
  rewrite ?Hw in Hi by lia. rewrite ?Hw in Ho by lia. rewrite !Hw in Hg by lia.
  destruct Hg as [(_ & -> & -> & -> & ->)|[(_ & -> & -> & -> & ->)|(_ & -> & -> & _)]];
    lia.
Qed.

Lemma steps_reach k : forall n s s', reach n s -> steps k s s' -> reach (n + k) s'.
Proof.
  induction k as [|k IH]; intros n s s' Hr Hs; inversion Hs; subst.
  - rewrite Nat.add_0_r. exact Hr.
  - rewrite Nat.add_succ_r. eapply reach_step; [|eassumption]. eapply IH; eassumption.
Qed.

(** C9.  In a system that makes fewer than 2^64 moves in all since the
    herder was created, any sequence of moves (a whole operation, with
    whatever other goroutines do meanwhile) leaves each of the four
    counters where it was or above; and before as after it
    TotOnBatchExecuteStartEnd is at most TotOnBatchExecuteStartBeg, the
    two being equal when no worker is inside the gate. *)
Theorem stats_monotone (n k : nat) (s s' : System) :
  reach n s ->
  steps k s s' ->
  Z.of_nat (n + k) < 2 ^ 64 ->
  let st := stats (herder s) in
  let st' := stats (herder s') in
  (TotWaitingIn st <= TotWaitingIn st'
   /\ TotWaitingOut st <= TotWaitingOut st'
   /\ TotOnBatchExecuteStartBeg st <= TotOnBatchExecuteStartBeg st'
   /\ TotOnBatchExecuteStartEnd st <= TotOnBatchExecuteStartEnd st')
  /\ (TotOnBatchExecuteStartEnd st <= TotOnBatchExecuteStartBeg st
      /\ (inside (pool s) = 0 ->
          TotOnBatchExecuteStartEnd st = TotOnBatchExecuteStartBeg st))
  /\ (TotOnBatchExecuteStartEnd st' <= TotOnBatchExecuteStartBeg st'
      /\ (inside (pool s') = 0 ->
          TotOnBatchExecuteStartEnd st' = TotOnBatchExecuteStartBeg st')).
Proof.
  intros Hr Hs Hn st st'.
  assert (Hinv : stats_inv n s) by (apply stats_inv_reach; [exact Hr|lia]).
  assert (Hinv' : stats_inv (n + k) s').
  { apply stats_inv_reach; [|exact Hn]. eapply steps_reach; eassumption. }
  pose proof (inside_nonneg (pool s)) as Hpos.
  pose proof (inside_nonneg (pool s')) as Hpos'.
  split; [|unfold stats_inv in Hinv, Hinv'; subst st st'; lia].
  clear Hinv Hinv' Hpos Hpos'. subst st st'.
  revert s' Hs Hn. induction k as [|k IH]; intros s' Hs Hn; inversion Hs; subst.
  - lia.
  - specialize (IH s'0 ltac:(assumption) ltac:(lia)).
    assert (Hinv : stats_inv (n + k) s'0).
    { apply stats_inv_reach; [|lia]. eapply steps_reach; eassumption. }
    pose proof (sstep_counters (n + k) s'0 s' Hinv ltac:(assumption) ltac:(lia)) as Hc.
    simpl in Hc. lia.
Qed.

Lemma reach_sys_S3_entered : reach 2 sys_S3_entered.
Proof.
  apply (reach_step 1 sys_S3_called).
  - apply (reach_step 0 {| herder := herder_S3; world := world_S3; pool := [] |}).
    + apply (reach_new 400 400 100 400 (Some chan1) world_S3).
    + apply (sstep_call {| herder := herder_S3; world := world_S3; pool := [] |}
               (OnBatchExecuteStart 1%positive engineSize)).
  - apply (sstep_go sys_S3_called 0%nat (Batch_entry 1%positive engineSize)
             herder_S3 (Batch_beg 1%positive engineSize) [] eq_refl eq_refl).
Defined.

Lemma steps_sys_S3_counted : steps 1 sys_S3_entered sys_S3_counted.
Proof.
  apply (steps_next 0 sys_S3_entered sys_S3_entered).
  - apply steps_refl.
  - apply (sstep_go sys_S3_entered 0%nat (Batch_beg 1%positive engineSize)
             (add_TotOnBatchExecuteStartBeg herder_S3)
             (Batch_lock 1%positive engineSize) [] eq_refl eq_refl).
Defined.

(** Worker 0 of scenario S3 passes line 138: TotOnBatchExecuteStartBeg
    goes from 0 to 1 and the worker is inside the gate. *)
Lemma stats_monotone_witness :
  let st := stats (herder sys_S3_entered) in
  let st' := stats (herder sys_S3_counted) in
  (TotWaitingIn st <= TotWaitingIn st'
   /\ TotWaitingOut st <= TotWaitingOut st'
   /\ TotOnBatchExecuteStartBeg st <= TotOnBatchExecuteStartBeg st'
   /\ TotOnBatchExecuteStartEnd st <= TotOnBatchExecuteStartEnd st')
  /\ (TotOnBatchExecuteStartEnd st <= TotOnBatchExecuteStartBeg st
      /\ (inside (pool sys_S3_entered) = 0 ->
          TotOnBatchExecuteStartEnd st = TotOnBatchExecuteStartBeg st))
  /\ (TotOnBatchExecuteStartEnd st' <= TotOnBatchExecuteStartBeg st'
      /\ (inside (pool sys_S3_counted) = 0 ->
          TotOnBatchExecuteStartEnd st' = TotOnBatchExecuteStartBeg st')).
Proof.
  apply (stats_monotone 2 1 sys_S3_entered sys_S3_counted).
  - exact reach_sys_S3_entered.
  - exact steps_sys_S3_counted.
  - simpl. lia.
Defined.

Example stats_sys_S3_counted :
  TotOnBatchExecuteStartBeg (stats (herder sys_S3_counted)) = 1
  /\ TotOnBatchExecuteStartEnd (stats (herder sys_S3_counted)) = 0
  /\ inside (pool sys_S3_counted) = 1.
Proof. vm_compute. tauto. Qed.

(** ** The registry under the indexing bypass *)

Lemma gstep_bypass g w a p a' p' evs :
  gstep g w a p = Some (a', p', evs) ->
  indexQuota a' = indexQuota a
  /\ (indexQuota a < 0 -> registers p = false ->
      registers p' = false /\ (indexes a = ∅ -> indexes a' = ∅)).
Proof.
  intros H.
  gstep_cases p H;
    (split; [reflexivity|]); intros Hq Hreg; try discriminate;
    repeat match goal with
      | H : (_ <? _) = false |- _ => apply Z.ltb_ge in H
      end;
    try lia;
    (split; [reflexivity|]); intros Hix; try exact Hix.
  rewrite Hix. apply delete_empty.
Qed.

(** X14.  With indexQuota < 0 no engine is ever registered: the registry of a
    herder created with a negative indexQuota stays empty, whatever
    calls are made, and the indexing memory is 0. *)
Lemma bypass_registry_empty n s :
  reach n s ->
  indexQuota (herder s) < 0 ->
  (indexes (herder s) = ∅
   /\ forall w, indexingMemoryLOCKED w (herder s) = 0)
  /\ forall g p, pool s !! g = Some p -> registers p = false.
Proof.
  intros Hr Hq.
  cut (indexes (herder s) = ∅
       /\ forall g p, pool s !! g = Some p -> registers p = false).
  { intros [Hix Hp]. split; [split; [exact Hix|]|exact Hp].
    intros w. by apply indexingMemory_empty. }
  revert Hq.
  induction Hr as [memQ appQ indexQ queryQ ch w|n s s' Hr IH Hstep]; intros Hq.
  - split; [reflexivity|]. simpl. intros g p Hp. rewrite lookup_nil in Hp. discriminate.
  - destruct Hstep as [s g p a' p' evs Hp Hg|s c|s w'|s ch Hch]; simpl in *.
    + apply gstep_bypass in Hg as [Hq' Hg]. rewrite Hq' in Hq.
      destruct (IH Hq) as [Hix Hpool].
      destruct (Hg Hq (Hpool g p Hp)) as [Hreg' Hix'].
      split; [by apply Hix'|].
      intros g0 p0 Hp0. destruct (decide (g0 = g)) as [->|Hne].
      * rewrite list_lookup_insert_eq in Hp0 by (by eapply lookup_lt_Some).
        congruence.
      * rewrite list_lookup_insert_ne in Hp0 by congruence. eauto.
    + destruct (IH Hq) as [Hix Hpool]. split; [exact Hix|].
      intros g p Hp. apply lookup_app_Some in Hp as [Hp|[_ Hp]]; [eauto|].
      apply list_lookup_singleton_Some in Hp as [_ <-]. by destruct c.
    + by apply IH.
    + by apply IH.
Qed.

(** ** The gate when it does not hold the worker *)

(** A batch that finds the quota respected: begin, lock, register,
    unlock, end; nothing is sent and nobody waits. *)
Lemma invoke_onBatchExecuteStart_pass g w a c s :
  m a = None ->
  indexQuota a >= 0 ->
  overMemQuotaForIndexingLOCKED w (set_indexes (<[c := s]> (indexes a)) a) = false ->
  exists a',
    invoke g w a (OnBatchExecuteStart c s) = Some (a', None, [EvLock; EvUnlock])
    /\ indexes a' = <[c := s]> (indexes a)
    /\ m a' = None /\ waiting a' = waiting a
    /\ TotOnBatchExecuteStartBeg (stats a')
       = wrap_u64 (TotOnBatchExecuteStartBeg (stats a) + 1)
    /\ TotOnBatchExecuteStartEnd (stats a')
       = wrap_u64 (TotOnBatchExecuteStartEnd (stats a) + 1)
    /\ TotWaitingIn (stats a') = TotWaitingIn (stats a)
    /\ TotWaitingOut (stats a') = TotWaitingOut (stats a).
Proof.
  intros Hm Hq Hover. unfold invoke, run, start.
  cbn [gstep]. replace (indexQuota a <? 0) with false by lia.
  cbn [gstep]. unfold Lock. simpl m. rewrite Hm.
  cbn [gstep].
  assert (Hover' :
    overMemQuotaForIndexingLOCKED w
      (set_indexes (<[c := s]> (indexes (set_m (Some g) (add_TotOnBatchExecuteStartBeg a))))
         (set_m (Some g) (add_TotOnBatchExecuteStartBeg a))) = false) by exact Hover.
  rewrite Hover'. cbn [gstep].
  eexists. split; [reflexivity|]. simpl. tauto.
Qed.


(** ** Scenarios of the specification *)

(** Scenario S3, gate then release: the worker parks with waiting = 1
    and TotWaitingIn = 1; after the engine is flushed and the persister
    reports progress it returns, with waiting = 0 and TotWaitingOut = 1. *)
Example scenario_S3 :
  S3_parked.1.2 = Batch_parked
  /\ S3_parked.2 = [EvLock; EvSend; EvWait; EvUnlock]
  /\ waiting S3_parked.1.1 = 1
  /\ TotWaitingIn (stats S3_parked.1.1) = 1
  /\ S3_progress.1.2 = Returned None
  /\ S3_progress.2 = [EvLock; EvBroadcast; EvUnlock]
  /\ S3_released.1.2 = Returned None
  /\ waiting S3_released.1.1 = 0
  /\ TotWaitingOut (stats S3_released.1.1) = 1
  /\ TotOnBatchExecuteStartBeg (stats S3_released.1.1) = 1
  /\ TotOnBatchExecuteStartEnd (stats S3_released.1.1) = 1.
Proof. vm_compute. repeat split. Qed.

(** Scenario S5, close releases the parked worker: the registry is empty
    and the worker returns although the process memory is unchanged. *)
Example scenario_S5 :
  S5_closed.1.2 = Returned None
  /\ indexes S5_closed.1.1 = ∅
  /\ S5_released.1.2 = Returned None
  /\ waiting S5_released.1.1 = 0.
Proof. vm_compute. repeat split. Qed.


(** * More of the herder *)

(** ** Counting goroutines *)

Lemma count_at_nonneg f l : 0 <= count_at f l.
Proof. induction l as [|p l IH]; simpl; [lia|]. destruct (f p); lia. Qed.

Lemma count_at_le_length f l : count_at f l <= Z.of_nat (length l).
Proof. induction l as [|p l IH]; simpl length; simpl count_at; [lia|]. destruct (f p); lia. Qed.

Lemma count_at_app f l p :
  count_at f (l ++ [p]) = count_at f l + (if f p then 1 else 0).
Proof. induction l as [|q l IH]; simpl; [lia|]. rewrite IH. lia. Qed.

Lemma count_at_insert f l g p p' :
  l !! g = Some p ->
  count_at f (<[g := p']> l)
  = count_at f l - (if f p then 1 else 0) + (if f p' then 1 else 0).
Proof.
  revert g. induction l as [|q l IH]; intros [|g] H; simpl in *.
  - discriminate.
  - discriminate.
  - injection H as ->. lia.
  - rewrite (IH g H). lia.
Qed.

Lemma count_at_lookup f l g p :
  l !! g = Some p -> f p = true -> 1 <= count_at f l.
Proof.
  revert g. induction l as [|q l IH]; intros [|g] H Hf; simpl in *.
  - discriminate.
  - discriminate.
  - injection H as ->. rewrite Hf. pose proof (count_at_nonneg f l). lia.
  - pose proof (IH g H Hf). destruct (f q); lia.
Qed.

Lemma reach_pool_length n s : reach n s -> Z.of_nat (length (pool s)) <= Z.of_nat n.
Proof.
  induction 1 as [memQ appQ indexQ queryQ ch w|n s s' _ IH Hstep]; simpl; [lia|].
  destruct Hstep as [s g p a' p' evs Hp Hg|s c|s w'|s ch Hch]; simpl.
  - rewrite length_insert. lia.
  - rewrite length_app. simpl. lia.
  - lia.
  - lia.
Qed.

(** A goroutine run on its own for at most [k] actions is an
    interleaving of at most [k] more moves. *)
Lemma reach_run_bound k :
  forall n s g p,
    reach n s -> pool s !! g = Some p ->
    exists n',
      (n' <= n + k)%nat
      /\ reach n' {| herder := (run k g (world s) (herder s) p).1.1;
                     world := world s;
                     pool := <[g := (run k g (world s) (herder s) p).1.2]> (pool s) |}.
Proof.
  induction k as [|k IH]; intros n s g p Hr Hp.
  - exists n. split; [lia|]. simpl. rewrite list_insert_id by exact Hp.
    destruct s; exact Hr.
  - simpl. destruct (gstep g (world s) (herder s) p) as [[[a1 p1] evs1]|] eqn:Hg.
    + pose proof (lookup_lt_Some _ _ _ Hp) as Hlt.
      destruct (IH (S n) {| herder := a1; world := world s; pool := <[g := p1]> (pool s) |}
                  g p1) as (n' & Hle & Hn').
      * eapply reach_step; [exact Hr|]. eapply sstep_go; eassumption.
      * simpl. by apply list_lookup_insert_eq.
      * simpl in Hn'. rewrite list_insert_insert_eq in Hn'.
        destruct (run k g (world s) a1 p1) as [[a2 p2] evs2].
        exists n'. split; [lia|exact Hn'].
    + exists n. split; [lia|]. simpl. rewrite list_insert_id by exact Hp.
      destruct s; exact Hr.
Qed.

Lemma reach_sys_S3_called : reach 1 sys_S3_called.
Proof.
  apply (reach_step 0 {| herder := herder_S3; world := world_S3; pool := [] |}).
  - apply (reach_new 400 400 100 400 (Some chan1) world_S3).
  - apply (sstep_call {| herder := herder_S3; world := world_S3; pool := [] |}
             (OnBatchExecuteStart 1%positive engineSize)).
Defined.

Lemma reach_sys_S3_parked : exists n, (n <= 17)%nat /\ reach n sys_S3_parked.
Proof.
  exact (reach_run_bound 16 1 sys_S3_called 0%nat
           (start (OnBatchExecuteStart 1%positive engineSize))
           reach_sys_S3_called eq_refl).
Defined.

(** ** The waiting workers *)

(** What one action does to [waiting], to the two waiting counters and
    to the notify list, by the program point it leaves and the one it
    reaches. *)
Lemma gstep_gate g w a p a' p' evs :
  gstep g w a p = Some (a', p', evs) ->
  let d (f : goroutine -> bool) := (if f p' then 1 else 0) - (if f p then 1 else 0) in
  ((d in_wait = 1 /\ waiting a' = wrap_i64 (waiting a + 1))
   \/ (d in_wait = -1 /\ waiting a' = wrap_i64 (waiting a - 1))
   \/ (d in_wait = 0 /\ waiting a' = waiting a))
  /\ ((d in_loop = 1
       /\ TotWaitingIn (stats a') = wrap_u64 (TotWaitingIn (stats a) + 1)
       /\ TotWaitingOut (stats a') = TotWaitingOut (stats a))
      \/ (d in_loop = -1
          /\ TotWaitingOut (stats a') = wrap_u64 (TotWaitingOut (stats a) + 1)
          /\ TotWaitingIn (stats a') = TotWaitingIn (stats a))
      \/ (d in_loop = 0
          /\ TotWaitingIn (stats a') = TotWaitingIn (stats a)
          /\ TotWaitingOut (stats a') = TotWaitingOut (stats a)))
  /\ ((waitCond a' = waitCond a /\ (p = Batch_parked -> g ∉ waitCond a))
      \/ waitCond a' = []
      \/ (waitCond a' = g :: waitCond a /\ p' = Batch_parked)).
Proof.
  intros H.
  gstep_cases p H; simpl;
    (split; [|split]); try tauto;
    try (left; split; [reflexivity|]; discriminate).
  left. split; [reflexivity|]. intros _.
  match goal with H : bool_decide _ = false |- _ => apply bool_decide_eq_false in H; exact H end.
Qed.

Lemma gate_inv_step n s s' :
  gate_inv n s -> sstep s s' -> Z.of_nat n + 1 < 2 ^ 63 ->
  0 <= TotWaitingOut (stats (herder s)) <= Z.of_nat n ->
  gate_inv (S n) s'.
Proof.
  unfold gate_inv. intros (Hlen & Hwait & Hio & Hpark) Hstep Hn Hout.
  rewrite Nat2Z.inj_succ.
  destruct Hstep as [s g p a' p' evs Hp Hg|s c|s w'|s ch Hch]; simpl.
  - rewrite length_insert, !(count_at_insert _ _ _ _ p' Hp).
    pose proof (count_at_nonneg in_wait (pool s)) as Hw0.
    pose proof (count_at_le_length in_wait (pool s)) as Hw1.
    pose proof (count_at_nonneg in_loop (pool s)) as Hl0.
    pose proof (count_at_le_length in_loop (pool s)) as Hl1.
    pose proof (count_at_lookup in_wait _ _ _ Hp) as Hwp.
    pose proof (lookup_lt_Some _ _ _ Hp) as Hlt.
    apply gstep_gate in Hg. cbv zeta in Hg. destruct Hg as (Hgw & Hgl & Hgc).
    split; [lia|]. split; [|split].
    + destruct Hgw as [(Hd & ->)|[(Hd & ->)|(Hd & ->)]].
      * rewrite wrap_i64_id by (unfold is_i64; lia). lia.
      * rewrite wrap_i64_id; [lia|]. unfold is_i64.
        destruct (in_wait p); [specialize (Hwp eq_refl); lia|].
        destruct (in_wait p'); lia.
      * lia.
    + destruct Hgl as [(Hd & -> & ->)|[(Hd & -> & ->)|(Hd & -> & ->)]].
      * rewrite wrap_u64_id by (unfold is_u64; lia). lia.
      * rewrite wrap_u64_id by (unfold is_u64; lia). lia.
      * lia.
    + intros g0 Hg0.
      destruct Hgc as [(Hc & Hnot)|[Hc|(Hc & ->)]]; rewrite Hc in Hg0.
      * destruct (decide (g0 = g)) as [->|Hne].
        -- pose proof (Hpark g Hg0) as Hpg. rewrite Hp in Hpg.
           injection Hpg as ->. exfalso. by apply Hnot.
        -- rewrite list_lookup_insert_ne by congruence. by apply Hpark.
      * by apply elem_of_nil in Hg0.
      * apply elem_of_cons in Hg0 as [->|Hg0].
        -- by apply list_lookup_insert_eq.
        -- destruct (decide (g0 = g)) as [->|Hne].
           ++ by apply list_lookup_insert_eq.
           ++ rewrite list_lookup_insert_ne by congruence. by apply Hpark.
  - rewrite length_app, !count_at_app. simpl length.
    split; [lia|]. split; [|split].
    + rewrite Hwait. by destruct c; simpl; lia.
    + rewrite Hio. by destruct c; simpl; lia.
    + intros g Hg. apply lookup_app_l_Some. by apply Hpark.
  - split; [lia|]. tauto.
  - split; [lia|]. tauto.
Qed.

Lemma gate_inv_reach n s : reach n s -> Z.of_nat n < 2 ^ 63 -> gate_inv n s.
Proof.
  induction 1 as [memQ appQ indexQ queryQ ch w|n s s' Hr IH Hstep]; intros Hn.
  - unfold gate_inv. simpl. split; [lia|]. split; [reflexivity|]. split; [reflexivity|].
    intros g Hg. by apply elem_of_nil in Hg.
  - apply (gate_inv_step n s s'); [apply IH; lia|exact Hstep|lia|].
    assert (Hst : stats_inv n s) by (apply stats_inv_reach; [exact Hr|lia]).
    unfold stats_inv in Hst. tauto.
Qed.

(** X1.  In every state reached in fewer than 2^63 moves, [waiting] is
    the number of workers that stand between line 150 and line 163 of
    [onBatchExecuteStart]; it is never negative and never more than the
    number of calls made. *)
Theorem waiting_counts_waiters (n : nat) (s : System) :
  reach n s ->
  Z.of_nat n < 2 ^ 63 ->
  waiting (herder s) = count_at in_wait (pool s)
  /\ 0 <= waiting (herder s) <= Z.of_nat (length (pool s)).
Proof.
  intros Hr Hn. destruct (gate_inv_reach n s Hr Hn) as (_ & Hw & _).
  split; [exact Hw|]. rewrite Hw.
  pose proof (count_at_nonneg in_wait (pool s)).
  pose proof (count_at_le_length in_wait (pool s)). lia.
Qed.

(** Worker 0 of scenario S3, parked in the gate: waiting is 1. *)
Lemma waiting_counts_waiters_witness :
  waiting (herder sys_S3_parked) = count_at in_wait (pool sys_S3_parked)
  /\ 0 <= waiting (herder sys_S3_parked) <= Z.of_nat (length (pool sys_S3_parked)).
Proof.
  destruct reach_sys_S3_parked as (n & Hle & Hr).
  apply (waiting_counts_waiters n sys_S3_parked Hr). lia.
Defined.

Example waiting_sys_S3_parked :
  waiting (herder sys_S3_parked) = 1 /\ pool sys_S3_parked = [Batch_parked]
  /\ waitCond (herder sys_S3_parked) = [0%nat].
Proof. vm_compute. repeat split. Qed.

(** X2.  In every state reached in fewer than 2^63 moves,
    TotWaitingIn is TotWaitingOut plus the number of workers between
    line 149 and line 164: TotWaitingOut never exceeds TotWaitingIn, and
    the two are equal when no worker is in the waiting loop. *)
Theorem waiting_in_out (n : nat) (s : System) :
  reach n s ->
  Z.of_nat n < 2 ^ 63 ->
  TotWaitingIn (stats (herder s))
  = TotWaitingOut (stats (herder s)) + count_at in_loop (pool s)
  /\ TotWaitingOut (stats (herder s)) <= TotWaitingIn (stats (herder s))
  /\ (count_at in_loop (pool s) = 0 ->
      TotWaitingOut (stats (herder s)) = TotWaitingIn (stats (herder s))).
Proof.
  intros Hr Hn. destruct (gate_inv_reach n s Hr Hn) as (_ & _ & Hio & _).
  pose proof (count_at_nonneg in_loop (pool s)). lia.
Qed.

Lemma waiting_in_out_witness :
  TotWaitingIn (stats (herder sys_S3_parked))
  = TotWaitingOut (stats (herder sys_S3_parked)) + count_at in_loop (pool sys_S3_parked)
  /\ TotWaitingOut (stats (herder sys_S3_parked))
     <= TotWaitingIn (stats (herder sys_S3_parked))
  /\ (count_at in_loop (pool sys_S3_parked) = 0 ->
      TotWaitingOut (stats (herder sys_S3_parked))
      = TotWaitingIn (stats (herder sys_S3_parked))).
Proof.
  destruct reach_sys_S3_parked as (n & Hle & Hr).
  apply (waiting_in_out n sys_S3_parked Hr). lia.
Defined.

(** X3.  No wake-up is lost.  In every state reached in fewer than 2^63
    moves, whoever is on the notify list of the condition variable is a
    worker parked at line 161, and it is counted in [waiting]; so when
    the list is not empty [waiting] is positive, and
    [awakeWaitersLOCKED] broadcasts and leaves the list empty. *)
Theorem no_lost_wakeup (n : nat) (s : System) :
  reach n s ->
  Z.of_nat n < 2 ^ 63 ->
  (forall g, g ∈ waitCond (herder s) -> pool s !! g = Some Batch_parked)
  /\ (waitCond (herder s) <> [] -> waiting (herder s) > 0)
  /\ waitCond (awakeWaitersLOCKED (herder s)).1 = []
  /\ (waitCond (herder s) <> [] ->
      (awakeWaitersLOCKED (herder s)).2 = [EvBroadcast]).
Proof.
  intros Hr Hn. destruct (gate_inv_reach n s Hr Hn) as (_ & Hw & _ & Hpark).
  assert (Hpos : waitCond (herder s) <> [] -> waiting (herder s) > 0).
  { intros Hne. destruct (waitCond (herder s)) as [|g l] eqn:Hwc; [done|].
    pose proof (count_at_lookup in_wait _ _ _ (Hpark g (list_elem_of_here g l)) eq_refl).
    lia. }
  split; [exact Hpark|]. split; [exact Hpos|].
  unfold awakeWaitersLOCKED.
  destruct (Z.gtb_spec (waiting (herder s)) 0) as [Hgt|Hle]; simpl.
  - split; [reflexivity|]. intros _. reflexivity.
  - destruct (waitCond (herder s)) as [|g l] eqn:Hwc.
    + split; [reflexivity|]. intros Hne. done.
    + assert (waiting (herder s) > 0) by (apply Hpos; discriminate). lia.
Qed.

(** Worker 0 of scenario S3 is parked: a progress notification finds
    waiting = 1 and broadcasts. *)
Lemma no_lost_wakeup_witness :
  (forall g, g ∈ waitCond (herder sys_S3_parked) ->
             pool sys_S3_parked !! g = Some Batch_parked)
  /\ (waitCond (herder sys_S3_parked) <> [] -> waiting (herder sys_S3_parked) > 0)
  /\ waitCond (awakeWaitersLOCKED (herder sys_S3_parked)).1 = []
  /\ (waitCond (herder sys_S3_parked) <> [] ->
      (awakeWaitersLOCKED (herder sys_S3_parked)).2 = [EvBroadcast]).
Proof.
  destruct reach_sys_S3_parked as (n & Hle & Hr).
  apply (no_lost_wakeup n sys_S3_parked Hr). lia.
Defined.

Lemma reach_sys_S3_locked : exists n, (n <= 4)%nat /\ reach n sys_S3_locked.
Proof.
  exact (reach_run_bound 3 1 sys_S3_called 0%nat
           (start (OnBatchExecuteStart 1%positive engineSize))
           reach_sys_S3_called eq_refl).
Defined.

(** ** The mutex and who may write what *)

(** X4.  In every reachable state the mutex is held by goroutine [g]
    exactly when [g] stands between a lock and the matching unlock or
    wait, and no two goroutines stand there at once. *)
Theorem mutex_holder (n : nat) (s : System) :
  reach n s ->
  (forall g, m (herder s) = Some g <->
             exists p, pool s !! g = Some p /\ critical p = true)
  /\ (forall g1 g2 p1 p2,
        pool s !! g1 = Some p1 -> pool s !! g2 = Some p2 ->
        critical p1 = true -> critical p2 = true -> g1 = g2).
Proof.
  intros Hr. destruct (mutex_inv_reach n s Hr) as [Hcrit Hheld]. split.
  - intros g. split; [apply Hheld|]. intros (p & Hp & Hc). eauto.
  - intros g1 g2 p1 p2 H1 H2 Hc1 Hc2.
    pose proof (Hcrit g1 p1 H1 Hc1). pose proof (Hcrit g2 p2 H2 Hc2). congruence.
Qed.

(** Worker 0 of scenario S3 has taken the lock of line 140. *)
Lemma mutex_holder_witness :
  (forall g, m (herder sys_S3_locked) = Some g <->
             exists p, pool sys_S3_locked !! g = Some p /\ critical p = true)
  /\ (forall g1 g2 p1 p2,
        pool sys_S3_locked !! g1 = Some p1 -> pool sys_S3_locked !! g2 = Some p2 ->
        critical p1 = true -> critical p2 = true -> g1 = g2).
Proof.
  destruct reach_sys_S3_locked as (n & _ & Hr).
  exact (mutex_holder n sys_S3_locked Hr).
Defined.

Example mutex_sys_S3_locked :
  m (herder sys_S3_locked) = Some 0%nat
  /\ critical <$> pool sys_S3_locked = [true].
Proof. vm_compute. split; reflexivity. Qed.

(** X5.  Whatever the interleaving, one action of a goroutine writes
    the four counters only inside [onBatchExecuteStart], the registry
    only at line 142 or line 105, [runningQueryUsed] only at line 304 or
    line 312, and [waiting] only at line 150 or line 163; the four
    quotas are never written and the over-quota channel stays nil or
    stays the channel it was, with its capacity. *)
Theorem writes_by_line g w a p a' p' evs :
  gstep g w a p = Some (a', p', evs) ->
  (stats a' = stats a \/ in_batch p = true)
  /\ (indexes a' = indexes a
      \/ (exists c s, p = Batch_register c s /\ indexes a' = <[c := s]> (indexes a))
      \/ (exists c, p = Close_delete c /\ indexes a' = delete c (indexes a)))
  /\ (runningQueryUsed a' = runningQueryUsed a
      \/ (exists size, p = Query_add size)
      \/ (exists size, p = QueryEnd_sub size))
  /\ (waiting a' = waiting a \/ p = Batch_incr \/ p = Batch_decr)
  /\ memQuota a' = memQuota a /\ appQuota a' = appQuota a
  /\ indexQuota a' = indexQuota a /\ queryQuota a' = queryQuota a
  /\ match overQuotaCh a, overQuotaCh a' with
     | None, None => True
     | Some ch, Some ch' => ch_cap ch' = ch_cap ch
     | _, _ => False
     end.
Proof.
  intros H.
  assert (Hch : forall ch ch', chansend ch = Some ch' -> ch_cap ch' = ch_cap ch).
  { intros ch ch'. unfold chansend. repeat case_match; intros [= <-]; reflexivity. }
  split; [|split; [|split; [|split]]].
  - gstep_cases p H; first [left; reflexivity | right; reflexivity].
  - gstep_cases p H;
      try first [ left; reflexivity
            | right; left; do 2 eexists; split; reflexivity
            | right; right; eexists; split; reflexivity ].
  - gstep_cases p H;
      try first [ left; reflexivity
            | right; left; eexists; reflexivity
            | right; right; eexists; reflexivity ].
  - gstep_cases p H;
      first [ left; reflexivity | right; left; reflexivity | right; right; reflexivity ].
  - gstep_cases p H; repeat (split; [reflexivity|]);
      repeat match goal with
        | H1 : overQuotaCh _ = _ |- _ => rewrite H1
        end;
      first [ exact I | reflexivity | eapply Hch; eassumption
            | destruct (overQuotaCh _); [reflexivity|exact I] ].
Qed.

(** Worker 0 of scenario S3 registers engine 1 at line 142. *)
Lemma writes_by_line_witness :
  let a := herder_S3 in
  let a' := set_indexes (<[1%positive := engineSize]> (indexes herder_S3)) herder_S3 in
  let p := Batch_register 1%positive engineSize in
  (stats a' = stats a \/ in_batch p = true)
  /\ (indexes a' = indexes a
      \/ (exists c s, p = Batch_register c s /\ indexes a' = <[c := s]> (indexes a))
      \/ (exists c, p = Close_delete c /\ indexes a' = delete c (indexes a)))
  /\ (runningQueryUsed a' = runningQueryUsed a
      \/ (exists size, p = Query_add size)
      \/ (exists size, p = QueryEnd_sub size))
  /\ (waiting a' = waiting a \/ p = Batch_incr \/ p = Batch_decr)
  /\ memQuota a' = memQuota a /\ appQuota a' = appQuota a
  /\ indexQuota a' = indexQuota a /\ queryQuota a' = queryQuota a
  /\ match overQuotaCh a, overQuotaCh a' with
     | None, None => True
     | Some ch, Some ch' => ch_cap ch' = ch_cap ch
     | _, _ => False
     end.
Proof.
  apply (writes_by_line 0 world_S3 herder_S3 (Batch_register 1%positive engineSize)
           (set_indexes (<[1%positive := engineSize]> (indexes herder_S3)) herder_S3)
           (Batch_loop false) []).
  reflexivity.
Defined.

(** ** The registry and the indexing memory *)

Lemma sizes_commute w (j1 j2 : handle) (z1 z2 : sizeFunc) y :
  wrap_u64 (wrap_u64 (y + z2 w j2) + z1 w j1)
  = wrap_u64 (wrap_u64 (y + z1 w j1) + z2 w j2).
Proof. rewrite !wrap_u64_add_l. f_equal. lia. Qed.

(** Registering an engine that was not registered adds what it reports
    to the indexing memory. *)
Lemma indexingMemory_register w a c (s : sizeFunc) :
  indexes a !! c = None ->
  indexingMemoryLOCKED w (set_indexes (<[c := s]> (indexes a)) a)
  = wrap_u64 (indexingMemoryLOCKED w a + s w c).
Proof.
  intros Hc. unfold indexingMemoryLOCKED. simpl.
  rewrite map_fold_insert_L; [reflexivity| |exact Hc].
  intros j1 j2 z1 z2 y _ _ _. apply sizes_commute.
Qed.

(** The indexing memory is what the engine [c] reports plus the
    indexing memory without it. *)
Lemma indexingMemory_split w a c (f : sizeFunc) :
  indexes a !! c = Some f ->
  indexingMemoryLOCKED w a
  = wrap_u64 (indexingMemoryLOCKED w (set_indexes (delete c (indexes a)) a) + f w c).
Proof.
  intros Hc.
  rewrite <- (indexingMemory_register w (set_indexes (delete c (indexes a)) a) c f)
    by (simpl; apply lookup_delete_eq).
  unfold indexingMemoryLOCKED. simpl.
  rewrite insert_delete_eq, insert_id by exact Hc. reflexivity.
Qed.

Lemma overMemQuota_frame w a1 a2 :
  indexes a1 = indexes a2 -> indexQuota a1 = indexQuota a2 ->
  appQuota a1 = appQuota a2 ->
  overMemQuotaForIndexingLOCKED w a1 = overMemQuotaForIndexingLOCKED w a2.
Proof.
  intros Hi Hq Ha. unfold overMemQuotaForIndexingLOCKED, indexingMemoryLOCKED.
  rewrite Hi, Hq, Ha. reflexivity.
Qed.

(** X6.  A batch of an engine that was not registered, let through by
    the gate, registers the engine with its callback and adds what the
    callback reports to the indexing memory; the [onClose] of that
    engine then brings the registry and the indexing memory back to what
    they were. *)
Theorem register_then_close
  (g : nat) (w : World) (a : appHerder) (c : handle) (s : sizeFunc) :
  m a = None ->
  indexQuota a >= 0 ->
  indexes a !! c = None ->
  overMemQuotaForIndexingLOCKED w (set_indexes (<[c := s]> (indexes a)) a) = false ->
  exists a1 a2 evs,
    invoke g w a (OnBatchExecuteStart c s) = Some (a1, None, [EvLock; EvUnlock])
    /\ indexes a1 !! c = Some s
    /\ (forall w', indexingMemoryLOCKED w' a1
                   = wrap_u64 (indexingMemoryLOCKED w' a + s w' c))
    /\ invoke g w a1 (OnClose c) = Some (a2, None, evs)
    /\ indexes a2 = indexes a
    /\ (forall w', indexingMemoryLOCKED w' a2 = indexingMemoryLOCKED w' a).
Proof.
  intros Hm Hq Hc Hover.
  destruct (invoke_onBatchExecuteStart_pass g w a c s Hm Hq Hover)
    as (a1 & Hinv1 & Hix1 & Hm1 & _).
  destruct (invoke_onClose g w a1 c Hm1) as (a2 & evs & Hinv2 & Hix2 & _).
  exists a1, a2, evs.
  assert (Hback : indexes a2 = indexes a).
  { rewrite Hix2, Hix1, delete_insert_eq. by apply delete_id. }
  split; [exact Hinv1|]. split; [rewrite Hix1; apply lookup_insert_eq|].
  split; [|split; [exact Hinv2|split; [exact Hback|]]].
  - intros w'. rewrite <- (indexingMemory_register w' a c s Hc).
    unfold indexingMemoryLOCKED. simpl. by rewrite Hix1.
  - intros w'. unfold indexingMemoryLOCKED. by rewrite Hback.
Qed.

(** A herder with an indexQuota of 400: the batch of an engine of 200
    bytes goes through with a process memory of 150. *)
Lemma register_then_close_witness :
  exists a1 a2 evs,
    invoke 0 world_S3 (newAppHerder 400 400 400 400 None)
      (OnBatchExecuteStart 1%positive engineSize) = Some (a1, None, [EvLock; EvUnlock])
    /\ indexes a1 !! 1%positive = Some engineSize
    /\ (forall w', indexingMemoryLOCKED w' a1
                   = wrap_u64 (indexingMemoryLOCKED w' (newAppHerder 400 400 400 400 None)
                               + engineSize w' 1%positive))
    /\ invoke 0 world_S3 a1 (OnClose 1%positive) = Some (a2, None, evs)
    /\ indexes a2 = indexes (newAppHerder 400 400 400 400 None)
    /\ (forall w', indexingMemoryLOCKED w' a2
                   = indexingMemoryLOCKED w' (newAppHerder 400 400 400 400 None)).
Proof.
  apply (register_then_close 0 world_S3 (newAppHerder 400 400 400 400 None)
           1%positive engineSize).
  - reflexivity.
  - simpl. lia.
  - reflexivity.
  - vm_compute. reflexivity.
Defined.

(** X7.  The registry holds one entry per engine: a second batch of an
    engine already registered replaces its callback and adds no entry. *)
Theorem register_twice
  (g : nat) (w w' : World) (a : appHerder) (c : handle) (s1 s2 : sizeFunc) :
  m a = None ->
  indexQuota a >= 0 ->
  overMemQuotaForIndexingLOCKED w (set_indexes (<[c := s1]> (indexes a)) a) = false ->
  overMemQuotaForIndexingLOCKED w' (set_indexes (<[c := s2]> (indexes a)) a) = false ->
  exists a1 a2,
    invoke g w a (OnBatchExecuteStart c s1) = Some (a1, None, [EvLock; EvUnlock])
    /\ invoke g w' a1 (OnBatchExecuteStart c s2) = Some (a2, None, [EvLock; EvUnlock])
    /\ indexes a2 = <[c := s2]> (indexes a)
    /\ indexes a2 !! c = Some s2
    /\ size (indexes a2) = size (indexes a1).
Proof.
  intros Hm Hq Hover1 Hover2.
  destruct (invoke_onBatchExecuteStart_pass g w a c s1 Hm Hq Hover1)
    as (a1 & Hinv1 & Hix1 & Hm1 & _).
  assert (Hq1 : indexQuota a1 = indexQuota a /\ appQuota a1 = appQuota a).
  { clear -Hinv1 Hm Hq. unfold invoke, run, start in Hinv1.
    cbn [gstep] in Hinv1. replace (indexQuota a <? 0) with false in Hinv1 by lia.
    cbn [gstep] in Hinv1. unfold Lock in Hinv1. simpl m in Hinv1. rewrite Hm in Hinv1.
    cbn [gstep] in Hinv1.
    destruct (overMemQuotaForIndexingLOCKED _ _); cbn [gstep] in Hinv1;
      [|injection Hinv1 as <-; simpl; tauto].
    unfold sendOverQuota in Hinv1. simpl in Hinv1.
    destruct (overQuotaCh a) as [ch|]; [destruct (chansend ch)|]; simpl in Hinv1;
      try rewrite bool_decide_eq_true_2 in Hinv1 by apply list_elem_of_here;
      discriminate. }
  destruct Hq1 as [Hq1 Ha1].
  destruct (invoke_onBatchExecuteStart_pass g w' a1 c s2 Hm1) as (a2 & Hinv2 & Hix2 & _).
  - lia.
  - rewrite <- Hover2. apply overMemQuota_frame; simpl; try assumption.
    rewrite Hix1. apply insert_insert_eq.
  - exists a1, a2. split; [exact Hinv1|]. split; [exact Hinv2|].
    assert (Hix : indexes a2 = <[c := s2]> (indexes a))
      by (rewrite Hix2, Hix1; apply insert_insert_eq).
    split; [exact Hix|]. split; [rewrite Hix; apply lookup_insert_eq|].
    rewrite Hix2. rewrite !map_size_insert, Hix1, lookup_insert_eq. reflexivity.
Qed.

(** Engine 1 first reports through [engineSize], then through a
    callback that reports 5 bytes. *)
Lemma register_twice_witness :
  exists a1 a2,
    invoke 0 world_S3 (newAppHerder 400 400 400 400 None)
      (OnBatchExecuteStart 1%positive engineSize) = Some (a1, None, [EvLock; EvUnlock])
    /\ invoke 0 world_S3 a1 (OnBatchExecuteStart 1%positive (fun _ _ => 5))
       = Some (a2, None, [EvLock; EvUnlock])
    /\ indexes a2 = <[1%positive := fun _ _ => 5]> (indexes (newAppHerder 400 400 400 400 None))
    /\ indexes a2 !! 1%positive = Some (fun _ _ => 5)
    /\ size (indexes a2) = size (indexes a1).
Proof.
  apply (register_twice 0 world_S3 world_S3 (newAppHerder 400 400 400 400 None)
           1%positive engineSize (fun _ _ => 5)).
  - reflexivity.
  - simpl. lia.
  - vm_compute. reflexivity.
  - vm_compute. reflexivity.
Defined.

(** ** The worker that wakes up *)

(** X8.  A worker woken from the wait of line 161 takes the mutex again
    and tests the quota again.  When the quota is respected it leaves
    the gate: it takes itself out of [waiting], counts in TotWaitingOut
    and TotOnBatchExecuteStartEnd, and returns with the mutex free. *)
Theorem woken_worker_leaves (g : nat) (w : World) (a : appHerder) :
  m a = None ->
  g ∉ waitCond a ->
  overMemQuotaForIndexingLOCKED w a = false ->
  exists a',
    run 16 g w a Batch_parked = (a', Returned None, [EvLock; EvUnlock])
    /\ waiting a' = wrap_i64 (waiting a - 1)
    /\ TotWaitingOut (stats a') = wrap_u64 (TotWaitingOut (stats a) + 1)
    /\ TotOnBatchExecuteStartEnd (stats a')
       = wrap_u64 (TotOnBatchExecuteStartEnd (stats a) + 1)
    /\ TotWaitingIn (stats a') = TotWaitingIn (stats a)
    /\ TotOnBatchExecuteStartBeg (stats a') = TotOnBatchExecuteStartBeg (stats a)
    /\ m a' = None /\ indexes a' = indexes a /\ waitCond a' = waitCond a.
Proof.
  intros Hm Hg Hover. unfold run.
  cbn [gstep]. rewrite bool_decide_eq_false_2 by exact Hg.
  rewrite (Lock_free g a Hm). cbn [gstep].
  match goal with
  | |- context [overMemQuotaForIndexingLOCKED w ?b] =>
      rewrite (overMemQuota_frame w b a) by reflexivity
  end.
  rewrite Hover. cbn [gstep].
  eexists. split; [reflexivity|]. simpl. tauto.
Qed.

(** X9.  When the quota is still exceeded and the over-quota channel
    is nil or can take an element, the woken worker goes back to
    waiting: it puts one element on the channel when there is one, joins
    the notify list again and releases the mutex; [waiting] is what it
    was, both waiting counters have gained one, and nothing else of the
    herder has changed.  (On a channel that cannot take the element the
    worker stalls at line 158: see [full_channel_stalls_herder].) *)
Theorem woken_worker_waits_again (g : nat) (w : World) (a : appHerder) :
  m a = None ->
  g ∉ waitCond a ->
  chan_ready a ->
  is_i64 (waiting a) -> is_i64 (waiting a - 1) ->
  overMemQuotaForIndexingLOCKED w a = true ->
  exists a',
    run 16 g w a Batch_parked
    = (a', Batch_parked, [EvLock] ++ overQuotaSends a ++ [EvWait; EvUnlock])
    /\ overQuotaCh a' = overQuotaCh a ≫= chansend
    /\ (forall ch, overQuotaCh a = Some ch ->
          exists ch', overQuotaCh a' = Some ch'
            /\ ch_cap ch' = ch_cap ch
            /\ ch_len ch' - ch_recvq ch' = ch_len ch - ch_recvq ch + 1)
    /\ waiting a' = waiting a
    /\ TotWaitingIn (stats a') = wrap_u64 (TotWaitingIn (stats a) + 1)
    /\ TotWaitingOut (stats a') = wrap_u64 (TotWaitingOut (stats a) + 1)
    /\ TotOnBatchExecuteStartBeg (stats a') = TotOnBatchExecuteStartBeg (stats a)
    /\ TotOnBatchExecuteStartEnd (stats a') = TotOnBatchExecuteStartEnd (stats a)
    /\ m a' = None /\ indexes a' = indexes a /\ waitCond a' = g :: waitCond a
    /\ runningQueryUsed a' = runningQueryUsed a
    /\ memQuota a' = memQuota a /\ appQuota a' = appQuota a
    /\ indexQuota a' = indexQuota a /\ queryQuota a' = queryQuota a.
Proof.
  intros Hm Hg Hch Hw Hw1 Hover. unfold run.
  cbn [gstep]. rewrite bool_decide_eq_false_2 by exact Hg.
  rewrite (Lock_free g a Hm). cbn [gstep].
  match goal with
  | |- context [overMemQuotaForIndexingLOCKED w ?b] =>
      rewrite (overMemQuota_frame w b a) by reflexivity
  end.
  rewrite Hover. cbn [gstep].
  match goal with
  | |- context [sendOverQuota ?b] =>
      assert (Hb : chan_ready b) by exact Hch;
      rewrite (sendOverQuota_exact b Hb)
  end.
  cbn [gstep].
  rewrite bool_decide_eq_true_2 by (simpl; apply list_elem_of_here).
  eexists. split; [unfold overQuotaSends; simpl; reflexivity|].
  simpl.
  rewrite (wrap_i64_id (waiting a - 1)) by exact Hw1.
  replace (waiting a - 1 + 1) with (waiting a) by lia.
  rewrite (wrap_i64_id (waiting a)) by exact Hw.
  split; [reflexivity|]. split; [|tauto].
  intros ch Hc. unfold chan_ready in Hch. rewrite Hc in Hch.
  destruct Hch as [ch' Hs]. exists ch'. rewrite Hc. simpl.
  split; [exact Hs|]. by apply chansend_one.
Qed.

(** Scenario S3: the engine is flushed, the persister reported progress,
    worker 0 wakes up and leaves the gate. *)
Lemma woken_worker_leaves_witness :
  exists a',
    run 16 0 (world_of 150 0) S3_progress.1.1 Batch_parked
    = (a', Returned None, [EvLock; EvUnlock])
    /\ waiting a' = wrap_i64 (waiting S3_progress.1.1 - 1)
    /\ TotWaitingOut (stats a') = wrap_u64 (TotWaitingOut (stats S3_progress.1.1) + 1)
    /\ TotOnBatchExecuteStartEnd (stats a')
       = wrap_u64 (TotOnBatchExecuteStartEnd (stats S3_progress.1.1) + 1)
    /\ TotWaitingIn (stats a') = TotWaitingIn (stats S3_progress.1.1)
    /\ TotOnBatchExecuteStartBeg (stats a')
       = TotOnBatchExecuteStartBeg (stats S3_progress.1.1)
    /\ m a' = None /\ indexes a' = indexes S3_progress.1.1
    /\ waitCond a' = waitCond S3_progress.1.1.
Proof.
  assert (Hwc : waitCond S3_progress.1.1 = []) by (vm_compute; reflexivity).
  apply (woken_worker_leaves 0 (world_of 150 0) S3_progress.1.1).
  - vm_compute. reflexivity.
  - rewrite Hwc. apply not_elem_of_nil.
  - vm_compute. reflexivity.
Defined.

(** Scenario S3 with its channel, emptied by the consumer: progress is
    reported while the engine still holds 200 bytes; worker 0 wakes up,
    sends once more, so that the channel holds one element again, and
    waits again. *)
Lemma woken_worker_waits_again_witness :
  exists a',
    run 16 0 world_S3 herder_S3_woken_chan Batch_parked
    = (a', Batch_parked, [EvLock; EvSend; EvWait; EvUnlock])
    /\ overQuotaCh a' = Some {| ch_cap := 1; ch_len := 1; ch_recvq := 0 |}
    /\ (forall ch, overQuotaCh herder_S3_woken_chan = Some ch ->
          exists ch', overQuotaCh a' = Some ch'
            /\ ch_cap ch' = ch_cap ch
            /\ ch_len ch' - ch_recvq ch' = ch_len ch - ch_recvq ch + 1)
    /\ waiting a' = waiting herder_S3_woken_chan
    /\ TotWaitingIn (stats a') = wrap_u64 (TotWaitingIn (stats herder_S3_woken_chan) + 1)
    /\ TotWaitingOut (stats a') = wrap_u64 (TotWaitingOut (stats herder_S3_woken_chan) + 1)
    /\ TotOnBatchExecuteStartBeg (stats a')
       = TotOnBatchExecuteStartBeg (stats herder_S3_woken_chan)
    /\ TotOnBatchExecuteStartEnd (stats a')
       = TotOnBatchExecuteStartEnd (stats herder_S3_woken_chan)
    /\ m a' = None /\ indexes a' = indexes herder_S3_woken_chan
    /\ waitCond a' = 0%nat :: waitCond herder_S3_woken_chan
    /\ runningQueryUsed a' = runningQueryUsed herder_S3_woken_chan
    /\ memQuota a' = memQuota herder_S3_woken_chan
    /\ appQuota a' = appQuota herder_S3_woken_chan
    /\ indexQuota a' = indexQuota herder_S3_woken_chan
    /\ queryQuota a' = queryQuota herder_S3_woken_chan.
Proof.
  assert (Hwc : waitCond herder_S3_woken_chan = []) by (vm_compute; reflexivity).
  assert (Hw : waiting herder_S3_woken_chan = 1) by (vm_compute; reflexivity).
  assert (Hch : overQuotaCh herder_S3_woken_chan = Some chan1) by (vm_compute; reflexivity).
  assert (Hsends : overQuotaSends herder_S3_woken_chan = [EvSend])
    by (unfold overQuotaSends; rewrite Hch; reflexivity).
  assert (Hafter : overQuotaCh herder_S3_woken_chan ≫= chansend
                   = Some {| ch_cap := 1; ch_len := 1; ch_recvq := 0 |})
    by (rewrite Hch; reflexivity).
  rewrite <- Hafter.
  change [EvLock; EvSend; EvWait; EvUnlock] with ([EvLock] ++ [EvSend] ++ [EvWait; EvUnlock]).
  rewrite <- Hsends.
  apply (woken_worker_waits_again 0 world_S3 herder_S3_woken_chan).
  - vm_compute. reflexivity.
  - rewrite Hwc. apply not_elem_of_nil.
  - unfold chan_ready. rewrite Hch. eexists. reflexivity.
  - rewrite Hw. unfold is_i64. lia.
  - rewrite Hw. unfold is_i64. lia.
  - vm_compute. reflexivity.
Defined.

(** ** A full over-quota channel *)

(** X10.  When a worker over quota stands at the send of line 158 and
    the over-quota channel cannot take the element, the worker cannot
    move and it holds the mutex: no goroutine that asks for the mutex
    (a query start or end, a close, a progress notification, another
    batch, a woken worker) can move either, until the consumer
    receives. *)
Theorem full_channel_stalls_herder (n : nat) (s : System) (g : nat) (ch : chan) :
  reach n s ->
  pool s !! g = Some Batch_send ->
  overQuotaCh (herder s) = Some ch ->
  chansend ch = None ->
  gstep g (world s) (herder s) Batch_send = None
  /\ m (herder s) = Some g
  /\ forall g' p', pool s !! g' = Some p' -> lock_point p' = true ->
                   gstep g' (world s) (herder s) p' = None.
Proof.
  intros Hr Hp Hch Hfull.
  destruct (mutex_inv_reach n s Hr) as [Hcrit _].
  pose proof (Hcrit g Batch_send Hp eq_refl) as Hm.
  split; [|split; [exact Hm|]].
  - simpl. unfold sendOverQuota. rewrite Hch, Hfull. reflexivity.
  - intros g' p' _ Hl.
    destruct p'; try discriminate; simpl; unfold Lock; rewrite Hm; try reflexivity.
    by destruct (bool_decide _).
Qed.

Lemma reach_sys_full_at_send : exists n, (n <= 17)%nat /\ reach n sys_full_at_send.
Proof.
  apply (reach_run_bound 16 1 sys_full_called 0%nat
           (start (OnBatchExecuteStart 1%positive engineSize))); [|reflexivity].
  apply (reach_step 0 {| herder := newAppHerder 400 400 100 400 (Some chan0);
                         world := world_S3; pool := [] |}).
  - apply (reach_new 400 400 100 400 (Some chan0) world_S3).
  - apply (sstep_call {| herder := newAppHerder 400 400 100 400 (Some chan0);
                         world := world_S3; pool := [] |}
             (OnBatchExecuteStart 1%positive engineSize)).
Defined.

(** An unbuffered channel without a receiver: worker 0 stops at the
    send, holding the mutex. *)
Lemma full_channel_stalls_herder_witness :
  gstep 0 (world sys_full_at_send) (herder sys_full_at_send) Batch_send = None
  /\ m (herder sys_full_at_send) = Some 0%nat
  /\ forall g' p', pool sys_full_at_send !! g' = Some p' -> lock_point p' = true ->
                   gstep g' (world sys_full_at_send) (herder sys_full_at_send) p' = None.
Proof.
  destruct reach_sys_full_at_send as (n & _ & Hr).
  apply (full_channel_stalls_herder n sys_full_at_send 0 chan0 Hr).
  - vm_compute. reflexivity.
  - vm_compute. reflexivity.
  - reflexivity.
Defined.

(** ** The engines: size callbacks and event adapters *)






(** X13.  Query events pair up: on a herder with queryQuota >= 0, once
    a start event has been let in, the end event of the same size brings
    [runningQueryUsed] back to what it was before the start; an event of
    any other kind does not reach the herder. *)
Theorem query_event_round_trip
  (g : nat) (w w' : World) (a a1 : appHerder) (depth size : Z) (evs : list event) :
  queryQuota a >= 0 ->
  is_u64 (runningQueryUsed a) ->
  handle_event g w a (queryHerderOnEvent depth EventQueryStart size)
  = Some (a1, None, evs) ->
  (exists a2 evs2,
     handle_event g w' a1 (queryHerderOnEvent depth EventQueryEnd size)
     = Some (a2, None, evs2)
     /\ runningQueryUsed a2 = runningQueryUsed a
     /\ m a2 = None)
  /\ handle_event g w a (queryHerderOnEvent depth EventQueryOther size)
     = Some (a, None, []).
Proof.
  intros Hq Hr Hstart. split; [|reflexivity]. simpl in *.
  pose proof (invoke_onQueryStart_inv _ _ _ _ _ _ _ _ Hstart) as [Hq1 Hr1].
  replace (queryQuota a <? 0) with false in Hr1 by lia.
  assert (Hm1 : m a1 = None).
  { clear -Hstart Hq. unfold invoke, run, start in Hstart.
    repeat (first [ progress cbn [gstep] in Hstart
                  | case_match; simplify_eq/=; try reflexivity ]).
    all: try match goal with
           | H : (queryQuota _ <? 0) = true |- _ => apply Z.ltb_lt in H; lia
           end.
    all: repeat match goal with
           | H : Lock _ _ = Some _ |- _ => apply Lock_inv in H as [? ->]
           | H : sendOverQuota _ = Some _ |- _ =>
               apply sendOverQuota_inv in H as (_ & -> & _)
           end.
    all: reflexivity. }
  destruct (invoke_onQueryEnd g w' a1 depth size Hm1)
    as (a2 & evs2 & Hinv & Hr2 & Hm2 & _).
  exists a2, evs2. split; [exact Hinv|]. split; [|exact Hm2].
  rewrite Hr2, Hr1, wrap_u64_sub_l.
  replace (runningQueryUsed a + size - size) with (runningQueryUsed a) by lia.
  by apply wrap_u64_id.
Qed.

(** 1000 bytes of queries running: a nested query of 100 bytes starts
    and ends. *)
Lemma query_event_round_trip_witness :
  (exists a2 evs2,
     handle_event 0 (world_of 45 0) (set_runningQueryUsed 1100 herder_S6)
       (queryHerderOnEvent 2 EventQueryEnd 100)
     = Some (a2, None, evs2)
     /\ runningQueryUsed a2 = runningQueryUsed herder_S6
     /\ m a2 = None)
  /\ handle_event 0 (world_of 45 0) herder_S6 (queryHerderOnEvent 2 EventQueryOther 100)
     = Some (herder_S6, None, []).
Proof.
  apply (query_event_round_trip 0 (world_of 45 0) (world_of 45 0) herder_S6
           (set_runningQueryUsed 1100 herder_S6) 2 100 [EvLock; EvUnlock]).
  - simpl. lia.
  - unfold is_u64. simpl. lia.
  - vm_compute. reflexivity.
Defined.

(** ** Witnesses of properties proved above *)

Lemma reach_sys_S1_returned : exists n, (n <= 17)%nat /\ reach n sys_S1_returned.
Proof.
  apply (reach_run_bound 16 1 sys_S1_called 0%nat
           (start (OnBatchExecuteStart 1%positive engineSize))); [|reflexivity].
  apply (reach_step 0 {| herder := herder_S1; world := world_of 10000000000 200;
                         pool := [] |}).
  - apply (reach_new 1000000000 1000000000 (-1000000000) 1000000000 None
             (world_of 10000000000 200)).
  - apply (sstep_call {| herder := herder_S1; world := world_of 10000000000 200;
                         pool := [] |} (OnBatchExecuteStart 1%positive engineSize)).
Defined.

(** Scenario S1: after the bypassed batch the registry is empty. *)
Lemma bypass_registry_empty_witness :
  (indexes (herder sys_S1_returned) = ∅
   /\ forall w, indexingMemoryLOCKED w (herder sys_S1_returned) = 0)
  /\ forall g p, pool sys_S1_returned !! g = Some p -> registers p = false.
Proof.
  destruct reach_sys_S1_returned as (n & _ & Hr).
  apply (bypass_registry_empty n sys_S1_returned Hr).
  vm_compute. reflexivity.
Defined.


Lemma reach_sys_S2_at_send : exists n, reach n sys_S2_at_send.
Proof.
  assert (H1 : reach 1 sys_S2_called).
  { apply (reach_step 0 {| herder := newAppHerder 100 100 100 50 (Some chan1);
                           world := world_of 45 0; pool := [] |}).
    - apply (reach_new 100 100 100 50 (Some chan1) (world_of 45 0)).
    - apply (sstep_call {| herder := newAppHerder 100 100 100 50 (Some chan1);
                           world := world_of 45 0; pool := [] |} (OnQueryStart 0 10)). }
  destruct (reach_run_bound 16 1 sys_S2_called 0%nat (start (OnQueryStart 0 10)) H1 eq_refl)
    as (n2 & _ & H2).
  assert (H3 : reach (S n2) sys_S2_called_again).
  { eapply reach_step; [exact H2|].
    apply (sstep_call sys_S2_running (OnQueryStart 0 20)). }
  destruct (reach_run_bound 4 (S n2) sys_S2_called_again 1%nat (start (OnQueryStart 0 20))
              H3 eq_refl) as (n4 & _ & H4).
  exists n4. exact H4.
Defined.

(** Scenario S2: the query that is turned away stands at its send and
    does not hold the mutex. *)
Lemma query_send_outside_mutex_witness :
  pool sys_S2_at_send !! 1%nat = Some Query_reject_send
  /\ m (herder sys_S2_at_send) <> Some 1%nat.
Proof.
  assert (Hp : pool sys_S2_at_send !! 1%nat = Some Query_reject_send)
    by (vm_compute; reflexivity).
  split; [exact Hp|].
  destruct reach_sys_S2_at_send as (n & Hr).
  exact (query_send_outside_mutex n sys_S2_at_send 1 Hr Hp).
Defined.

(** * The remote partition client *)

Example group_example :
  let c (hp pindex : string) :=
    {| Mgr := None; name := "grpcClient - " +:+ hp; HostPort := hp; IndexName := "idx";
       IndexUUID := "u1"; PIndexNames := [pindex]; Consistency := None;
       GrpcCli := Some 1%positive; lastSearchStatus := 0; lastErrBody := []; sc := None |} in
  (fun x => (name x, PIndexNames x))
    <$> GroupGrpcClientsByHostPort [c "a:1" "p1"; c "b:1" "p2"; c "a:1" "p3"]
  = [("a:1/idx/u1", ["p1"; "p3"]); ("b:1/idx/u1", ["p2"])].
Proof. vm_compute. reflexivity. Qed.

(** ** Grouping the clients *)

Lemma deref_ext store store' (r : list string) :
  (forall k, k ∈ r -> store !! k = store' !! k) -> deref store r = deref store' r.
Proof.
  induction r as [|k r IH]; intros H; simpl; [reflexivity|].
  rewrite (H k) by apply list_elem_of_here.
  rewrite IH; [reflexivity|]. intros k' Hk'. apply H. by apply list_elem_of_further.
Qed.

Lemma deref_app store r1 r2 : deref store (r1 ++ r2) = deref store r1 ++ deref store r2.
Proof.
  induction r1 as [|k r1 IH]; simpl; [reflexivity|].
  destruct (store !! k); simpl; by rewrite IH.
Qed.

Lemma with_key_snoc k l x :
  with_key k (l ++ [x])
  = with_key k l ++ (if decide (groupByKey x = k) then [x] else []).
Proof.
  unfold with_key. rewrite filter_app. reflexivity.
Qed.

Lemma group_state_snoc l x : group_state (l ++ [x]) = group_step (group_state l) x.
Proof. unfold group_state. by rewrite foldl_app. Qed.

Lemma group_inv_step l st x :
  group_inv l st -> group_inv (l ++ [x]) (group_step st x).
Proof.
  destruct st as [store rv]. unfold group_inv. simpl.
  intros (Hnd & Hdom & Hkeys & Hval & Hperm & Hnames).
  destruct (store !! groupByKey x) as [c|] eqn:Hc; simpl.
  - (* the key is known: the names are appended in place *)
    assert (Hin : groupByKey x ∈ rv) by (apply Hdom; eauto).
    destruct (Hval _ _ Hc) as (Hn & Hk & Hp & Hsc & Hls & Hle & first & Hfirst & Hf).
    split; [exact Hnd|]. split; [|split; [|split; [|split]]].
    + intros k. rewrite Hdom. destruct (decide (k = groupByKey x)) as [->|Hne].
      * rewrite lookup_insert_eq. split; eauto.
      * by rewrite lookup_insert_ne by congruence.
    + intros k. rewrite fmap_app, elem_of_app, <- Hkeys. simpl.
      rewrite list_elem_of_singleton. split; [tauto|]. intros [?| ->]; assumption.
    + intros k c' Hc'. rewrite with_key_snoc.
      destruct (decide (k = groupByKey x)) as [->|Hne].
      * rewrite lookup_insert_eq in Hc'. injection Hc' as <-. simpl.
        rewrite decide_True by reflexivity.
        rewrite fmap_app, concat_app, <- Hp. simpl. rewrite app_nil_r.
        repeat (split; [assumption || reflexivity|]).
        exists first. split; [|exact Hf].
        destruct (with_key (groupByKey x) l); [discriminate|exact Hfirst].
      * rewrite lookup_insert_ne in Hc' by congruence.
        rewrite decide_False by congruence. rewrite app_nil_r. by apply Hval.
    + apply list_elem_of_split in Hin as (r1 & r2 & ->).
      apply NoDup_app in Hnd as (_ & Hr1 & Hnd2).
      apply NoDup_cons in Hnd2 as [Hr2 _].
      assert (H1 : forall r, groupByKey x ∉ r ->
                deref (<[groupByKey x := append_PIndexNames (PIndexNames x) c]> store) r
                = deref store r).
      { intros r Hr. apply deref_ext. intros k Hkr.
        apply lookup_insert_ne. intros Heq. apply Hr. by rewrite Heq. }
      rewrite deref_app in Hperm |- *. simpl in Hperm |- *.
      rewrite Hc in Hperm. rewrite lookup_insert_eq.
      rewrite !H1 by (try exact Hr2; intros Hx; apply (Hr1 _ Hx); apply list_elem_of_here).
      rewrite !fmap_app, !concat_app in Hperm |- *. simpl in Hperm |- *.
      rewrite (fmap_app PIndexNames l [x]), concat_app. simpl.
      rewrite app_nil_r, <- Hperm.
      rewrite <- !app_assoc. do 2 apply Permutation_app_head.
      apply Permutation_app_comm.
    + transitivity (name <$> deref store rv); [|exact Hnames].
      clear -Hc Hval. induction rv as [|k rv IH]; [reflexivity|].
      cbn [deref]. destruct (decide (k = groupByKey x)) as [->|Hne].
      * rewrite lookup_insert_eq, Hc, !fmap_cons, IH. reflexivity.
      * rewrite lookup_insert_ne by congruence.
        destruct (store !! k); rewrite ?fmap_cons, IH; reflexivity.
  - (* a new key: a new client, appended to rv *)
    assert (Hnotin : groupByKey x ∉ rv).
    { intros Hin. apply Hdom in Hin as [? Hin]. congruence. }
    assert (H1 : deref (<[groupByKey x := append_PIndexNames (PIndexNames x) (new_group x)]> store) rv
                 = deref store rv).
    { apply deref_ext. intros k Hk. apply lookup_insert_ne. intros Heq. apply Hnotin. by rewrite Heq. }
    split; [|split; [|split; [|split; [|split]]]].
    + apply NoDup_app. split; [exact Hnd|]. split; [|apply NoDup_singleton].
      intros k Hk Hk'. apply list_elem_of_singleton in Hk' as ->. by apply Hnotin.
    + intros k. rewrite elem_of_app, list_elem_of_singleton, Hdom.
      destruct (decide (k = groupByKey x)) as [->|Hne].
      * rewrite lookup_insert_eq. split; eauto.
      * rewrite lookup_insert_ne by congruence. split; [intros [?|?]; [assumption|congruence]|tauto].
    + intros k. rewrite fmap_app, !elem_of_app, <- Hkeys. simpl.
      rewrite !list_elem_of_singleton. tauto.
    + intros k c' Hc'. rewrite with_key_snoc.
      destruct (decide (k = groupByKey x)) as [->|Hne].
      * rewrite lookup_insert_eq in Hc'. injection Hc' as <-. simpl.
        rewrite decide_True by reflexivity.
        assert (Hempty : with_key (groupByKey x) l = []).
        { destruct (with_key (groupByKey x) l) as [|y ys] eqn:Hw; [reflexivity|].
          exfalso. apply Hnotin, Hkeys.
          assert (Hy : y ∈ with_key (groupByKey x) l) by (rewrite Hw; apply list_elem_of_here).
          apply list_elem_of_filter in Hy as [Hy1 Hy2].
          rewrite <- Hy1. by apply list_elem_of_fmap_2. }
        rewrite Hempty. simpl. rewrite app_nil_r.
        repeat (split; [reflexivity|]). exists x. tauto.
      * rewrite lookup_insert_ne in Hc' by congruence.
        rewrite decide_False by congruence. rewrite app_nil_r. by apply Hval.
    + rewrite deref_app, H1. simpl. rewrite lookup_insert_eq. simpl.
      rewrite !fmap_app, !concat_app. simpl. rewrite !app_nil_r.
      by apply Permutation_app_tail.
    + rewrite deref_app, H1. simpl. rewrite lookup_insert_eq. simpl.
      rewrite fmap_app, Hnames. reflexivity.
Qed.

Lemma group_inv_state l : group_inv l (group_state l).
Proof.
  induction l as [|x l IH] using rev_ind.
  - unfold group_inv, group_state. simpl.
    split; [apply NoDup_nil_2|]. split; [|split; [|split; [|split]]]; try done.
    intros k. rewrite lookup_empty. split; [intros H; by apply elem_of_nil in H|].
    intros [? ?]; discriminate.
  - rewrite group_state_snoc. by apply group_inv_step.
Qed.

Lemma Group_unfold l :
  GroupGrpcClientsByHostPort l = deref (group_state l).1 (group_state l).2.
Proof.
  unfold GroupGrpcClientsByHostPort, group_state.
  by destruct (foldl group_step (∅, []) l).
Qed.

Lemma deref_elem store rv c :
  c ∈ deref store rv -> exists k, k ∈ rv /\ store !! k = Some c.
Proof.
  induction rv as [|k rv IH]; simpl; intros H.
  - by apply elem_of_nil in H.
  - destruct (store !! k) as [c'|] eqn:Hk.
    + apply elem_of_cons in H as [->|H].
      * exists k. split; [apply list_elem_of_here|exact Hk].
      * destruct (IH H) as (k' & Hk' & Hc). exists k'.
        split; [by apply list_elem_of_further|exact Hc].
    + destruct (IH H) as (k' & Hk' & Hc). exists k'.
      split; [by apply list_elem_of_further|exact Hc].
Qed.

(** X17.  [GroupGrpcClientsByHostPort] returns one client per key
    HostPort/IndexName/IndexUUID that occurs among its arguments, no key
    twice and never more clients than it was given; each is named by
    its key, and comes without stream handler and without last status
    or error body, whatever the arguments carried. *)
Theorem group_one_client_per_key (l : list GrpcClient) :
  NoDup (name <$> GroupGrpcClientsByHostPort l)
  /\ (forall k, k ∈ name <$> GroupGrpcClientsByHostPort l <-> k ∈ groupByKey <$> l)
  /\ (length (GroupGrpcClientsByHostPort l) <= length l)%nat
  /\ (forall c, c ∈ GroupGrpcClientsByHostPort l ->
        name c = groupByKey c /\ sc c = None
        /\ lastSearchStatus c = 0 /\ lastErrBody c = []).
Proof.
  rewrite Group_unfold.
  destruct (group_inv_state l) as (Hnd & Hdom & Hkeys & Hval & _ & Hnames).
  rewrite Hnames. split; [exact Hnd|]. split; [exact Hkeys|]. split.
  - rewrite <- (length_fmap name), Hnames, <- (length_fmap groupByKey l).
    apply submseteq_length, NoDup_submseteq; [exact Hnd|].
    intros k Hk. by apply Hkeys.
  - intros c Hc. apply deref_elem in Hc as (k & _ & Hc).
    destruct (Hval k c Hc) as (Hn & Hk & _ & Hsc & Hls & Hle & _).
    rewrite Hn, Hk. tauto.
Qed.

(** X18.  The client of a key holds the pindex names of all the
    arguments of that key, in their order, and takes its manager, host,
    index, consistency and connection from the first of them. *)
Theorem group_collects_pindexes (l : list GrpcClient) (c : GrpcClient) :
  c ∈ GroupGrpcClientsByHostPort l ->
  PIndexNames c = concat (PIndexNames <$> with_key (name c) l)
  /\ exists first,
      head (with_key (name c) l) = Some first
      /\ Mgr c = Mgr first /\ HostPort c = HostPort first
      /\ IndexName c = IndexName first /\ IndexUUID c = IndexUUID first
      /\ Consistency c = Consistency first /\ GrpcCli c = GrpcCli first.
Proof.
  rewrite Group_unfold. intros Hc.
  destruct (group_inv_state l) as (_ & _ & _ & Hval & _).
  apply deref_elem in Hc as (k & _ & Hc).
  destruct (Hval k c Hc) as (Hn & _ & Hp & _ & _ & _ & Hfirst).
  rewrite Hn. tauto.
Qed.

(** X19.  Grouping loses no pindex name and invents none: the names of
    the clients returned are, up to their order, the names of the
    clients given. *)
Theorem group_keeps_pindexes (l : list GrpcClient) :
  concat (PIndexNames <$> GroupGrpcClientsByHostPort l)
  ≡ₚ concat (PIndexNames <$> l).
Proof.
  rewrite Group_unfold.
  destruct (group_inv_state l) as (_ & _ & _ & _ & Hperm & _). exact Hperm.
Qed.

Lemma group_a_in : group_a ∈ GroupGrpcClientsByHostPort three_clients.
Proof.
  replace (GroupGrpcClientsByHostPort three_clients)
    with [group_a; append_PIndexNames ["p2"] (new_group (client_of "b:1" "p2"))]
    by (vm_compute; reflexivity).
  apply list_elem_of_here.
Defined.

(** The client of node a:1 holds p1 and p3. *)
Lemma group_collects_pindexes_witness :
  PIndexNames group_a = concat (PIndexNames <$> with_key (name group_a) three_clients)
  /\ exists first,
      head (with_key (name group_a) three_clients) = Some first
      /\ Mgr group_a = Mgr first /\ HostPort group_a = HostPort first
      /\ IndexName group_a = IndexName first /\ IndexUUID group_a = IndexUUID first
      /\ Consistency group_a = Consistency first /\ GrpcCli group_a = GrpcCli first.
Proof. exact (group_collects_pindexes three_clients group_a group_a_in). Defined.

(** A client as [GroupGrpcClientsByHostPort] makes them. *)
Lemma new_group_fixed x :
  name x = groupByKey x -> sc x = None -> lastSearchStatus x = 0 -> lastErrBody x = [] ->
  append_PIndexNames (PIndexNames x) (new_group x) = x.
Proof. destruct x; simpl. intros -> -> -> ->. reflexivity. Qed.

Lemma group_state_fixed (l : list GrpcClient) :
  NoDup (groupByKey <$> l) ->
  (forall x, x ∈ l ->
     name x = groupByKey x /\ sc x = None /\ lastSearchStatus x = 0 /\ lastErrBody x = []) ->
  (group_state l).2 = groupByKey <$> l
  /\ deref (group_state l).1 (group_state l).2 = l
  /\ (forall k, k ∉ groupByKey <$> l -> (group_state l).1 !! k = None).
Proof.
  induction l as [|x l IH] using rev_ind; intros Hnd Hall.
  - split; [reflexivity|]. split; [reflexivity|]. intros k _. apply lookup_empty.
  - rewrite fmap_app in Hnd. apply NoDup_app in Hnd as (Hnd & Hx & _).
    destruct IH as (Hrv & Hderef & Hnone); [exact Hnd| |].
    { intros y Hy. apply Hall, elem_of_app. by left. }
    assert (Hnew : groupByKey x ∉ groupByKey <$> l).
    { intros Hin. apply (Hx _ Hin). simpl. apply list_elem_of_here. }
    rewrite group_state_snoc.
    destruct (group_state l) as [store rv]. simpl in *.
    rewrite (Hnone _ Hnew). simpl.
    destruct (Hall x) as (Hn & Hsc & Hls & Hle); [apply elem_of_app; right; apply list_elem_of_here|].
    rewrite (new_group_fixed x Hn Hsc Hls Hle).
    split; [by rewrite Hrv, fmap_app|]. split.
    + rewrite deref_app. simpl. rewrite lookup_insert_eq.
      rewrite (deref_ext _ store rv); [by rewrite Hderef|].
      intros k Hk. apply lookup_insert_ne. intros Heq. subst k. apply Hnew. by rewrite <- Hrv.
    + intros k Hk. rewrite fmap_app, elem_of_app in Hk.
      rewrite lookup_insert_ne.
      * apply Hnone. tauto.
      * intros Heq. subst k. apply Hk. right. simpl. apply list_elem_of_here.
Qed.

Lemma group_one_client_per_key_aux (l : list GrpcClient) :
  NoDup (groupByKey <$> GroupGrpcClientsByHostPort l)
  /\ (forall x, x ∈ GroupGrpcClientsByHostPort l ->
        name x = groupByKey x /\ sc x = None
        /\ lastSearchStatus x = 0 /\ lastErrBody x = []).
Proof.
  rewrite Group_unfold.
  destruct (group_inv_state l) as (Hnd & _ & _ & Hval & _ & Hnames).
  assert (Hall : forall x, x ∈ deref (group_state l).1 (group_state l).2 ->
            name x = groupByKey x /\ sc x = None
            /\ lastSearchStatus x = 0 /\ lastErrBody x = []).
  { intros c Hc. apply deref_elem in Hc as (k & _ & Hc).
    destruct (Hval k c Hc) as (Hn & Hk & _ & Hsc & Hls & Hle & _).
    rewrite Hn, Hk. tauto. }
  split; [|exact Hall].
  replace (groupByKey <$> deref (group_state l).1 (group_state l).2)
    with (name <$> deref (group_state l).1 (group_state l).2); [by rewrite Hnames|].
  clear Hnames. induction (deref (group_state l).1 (group_state l).2) as [|x r IH];
    [reflexivity|].
  rewrite !fmap_cons. f_equal.
  - apply Hall, list_elem_of_here.
  - apply IH. intros y Hy. apply Hall. by apply list_elem_of_further.
Qed.

(** X20.  Grouping is idempotent: the clients it returns are already
    grouped, and grouping them again returns them as they are. *)
Theorem group_idempotent (l : list GrpcClient) :
  GroupGrpcClientsByHostPort (GroupGrpcClientsByHostPort l)
  = GroupGrpcClientsByHostPort l.
Proof.
  destruct (group_one_client_per_key_aux l) as (Hnd & Hall).
  rewrite (Group_unfold (GroupGrpcClientsByHostPort l)).
  by destruct (group_state_fixed (GroupGrpcClientsByHostPort l) Hnd Hall) as (_ & H & _).
Qed.

(** X21.  After grouping, [DocCount] still asks for one pindex only:
    when every client given has a pindex name, [Count] and [DocCount]
    of a grouped client are the [DocCount] of the first client given
    for its key, panics included; the pindexes merged into it from the
    other clients are not counted.  The call panics exactly when the
    connection of that first client is nil or the service answers with
    neither a result nor an error; otherwise it returns the error of
    the service with a count of 0, or the count as a uint64. *)
Theorem group_DocCount_first
  (docCount : positive -> string -> option Z * option rpcError)
  (l : list GrpcClient) (c : GrpcClient) :
  (forall x, x ∈ l -> PIndexNames x <> []) ->
  c ∈ GroupGrpcClientsByHostPort l ->
  exists first indexName,
    head (with_key (name c) l) = Some first
    /\ head (PIndexNames first) = Some indexName
    /\ Count docCount c = DocCount docCount first
    /\ DocCount docCount c = DocCount docCount first
    /\ (Count docCount c = None <->
        GrpcCli first = None
        \/ exists cli, GrpcCli first = Some cli /\ docCount cli indexName = (None, None))
    /\ (forall cli res err,
          GrpcCli first = Some cli -> docCount cli indexName = (res, Some err) ->
          Count docCount c = Some (0, Some err))
    /\ (forall cli count,
          GrpcCli first = Some cli -> docCount cli indexName = (Some count, None) ->
          Count docCount c = Some (wrap_u64 count, None)).
Proof.
  intros Hne Hc. rewrite Group_unfold in Hc.
  destruct (group_inv_state l) as (_ & _ & _ & Hval & _).
  apply deref_elem in Hc as (k & _ & Hc).
  destruct (Hval k c Hc) as (Hn & _ & Hp & _ & _ & _ & first & Hfirst & _ & _ & _ & _ & _ & Hcli).
  rewrite Hn.
  destruct (with_key k l) as [|y ys] eqn:Hw; [discriminate|].
  injection Hfirst as ->.
  assert (Hin : first ∈ l).
  { assert (H : first ∈ with_key k l) by (rewrite Hw; apply list_elem_of_here).
    by apply list_elem_of_filter in H as [_ H]. }
  specialize (Hne first Hin).
  destruct (PIndexNames first) as [|n ns] eqn:Hnames; [done|].
  exists first, n. rewrite ?Hnames.
  assert (Heq : DocCount docCount c = DocCount docCount first).
  { unfold DocCount. rewrite Hp, Hcli. simpl. rewrite Hnames. reflexivity. }
  split; [reflexivity|]. split; [reflexivity|].
  split; [exact Heq|]. split; [exact Heq|].
  unfold Count. rewrite Heq. unfold DocCount. rewrite Hnames.
  destruct (GrpcCli first) as [cli|].
  - destruct (docCount cli n) as [[count|] [e|]] eqn:Hd.
    + split; [|split].
      * split; [discriminate|]. intros [?|(cli' & [= <-] & H')]; [discriminate|].
        rewrite Hd in H'. discriminate.
      * intros cli' res err [= <-] H'. rewrite Hd in H'. by injection H' as <- <-.
      * intros cli' count' [= <-] H'. rewrite Hd in H'. discriminate.
    + split; [|split].
      * split; [discriminate|]. intros [?|(cli' & [= <-] & H')]; [discriminate|].
        rewrite Hd in H'. discriminate.
      * intros cli' res err [= <-] H'. rewrite Hd in H'. discriminate.
      * intros cli' count' [= <-] H'. rewrite Hd in H'. by injection H' as <-.
    + split; [|split].
      * split; [discriminate|]. intros [?|(cli' & [= <-] & H')]; [discriminate|].
        rewrite Hd in H'. discriminate.
      * intros cli' res err [= <-] H'. rewrite Hd in H'. by injection H' as <- <-.
      * intros cli' count' [= <-] H'. rewrite Hd in H'. discriminate.
    + split; [|split].
      * split; [|reflexivity]. intros _. right. by exists cli.
      * intros cli' res err [= <-] H'. rewrite Hd in H'. discriminate.
      * intros cli' count' [= <-] H'. rewrite Hd in H'. discriminate.
  - split; [|split].
    + split; [by left|reflexivity].
    + intros cli' res err H'. discriminate.
    + intros cli' count' H'. discriminate.
Qed.

(** The client of node a:1 counts p1, not p3. *)
Lemma group_DocCount_first_witness :
  exists first indexName,
    head (with_key (name group_a) three_clients) = Some first
    /\ head (PIndexNames first) = Some indexName
    /\ Count service_10_32 group_a = DocCount service_10_32 first
    /\ DocCount service_10_32 group_a = DocCount service_10_32 first
    /\ (Count service_10_32 group_a = None <->
        GrpcCli first = None
        \/ exists cli, GrpcCli first = Some cli /\ service_10_32 cli indexName = (None, None))
    /\ (forall cli res err,
          GrpcCli first = Some cli -> service_10_32 cli indexName = (res, Some err) ->
          Count service_10_32 group_a = Some (0, Some err))
    /\ (forall cli count,
          GrpcCli first = Some cli -> service_10_32 cli indexName = (Some count, None) ->
          Count service_10_32 group_a = Some (wrap_u64 count, None)).
Proof.
  apply (group_DocCount_first service_10_32 three_clients group_a); [|exact group_a_in].
  intros x Hx. unfold three_clients in Hx.
  repeat (apply elem_of_cons in Hx as [->|Hx]; [discriminate|]).
  by apply elem_of_nil in Hx.
Defined.

Example DocCount_group_a :
  DocCount service_10_32 group_a = Some (10, None)
  /\ DocCount service_10_32 client_nil = None
  /\ GroupGrpcClientsByHostPort [client_nil]
     = [{| Mgr := Some 1%positive; name := "c:1/idx/u1"; HostPort := "c:1";
           IndexName := "idx"; IndexUUID := "u1"; PIndexNames := ["p4"];
           Consistency := None; GrpcCli := None;
           lastSearchStatus := 0; lastErrBody := []; sc := None |}]
  /\ (DocCount service_10_32 <$> GroupGrpcClientsByHostPort [client_nil]) = [None].
Proof. vm_compute. repeat split; reflexivity. Qed.

(** ** Strings *)

Lemma LastIndex_range s c : LastIndex s c = -1 \/ 0 <= LastIndex s c < len s.
Proof.
  unfold len. induction s as [|x s IH]; simpl LastIndex; [by left|].
  simpl String.length. rewrite Nat2Z.inj_succ.
  destruct (Z.leb_spec 0 (LastIndex s c)); [right; lia|].
  destruct (Ascii.eqb x c); [right; lia|by left].
Qed.

(** The byte at the last index is the separator, and it does not occur
    after it. *)
Lemma LastIndex_split s c :
  0 <= LastIndex s c ->
  s = string_take (Z.to_nat (LastIndex s c)) s
        +:+ String c (string_drop (Z.to_nat (LastIndex s c + 1)) s)
  /\ LastIndex (string_drop (Z.to_nat (LastIndex s c + 1)) s) c = -1.
Proof.
  induction s as [|x s IH]; simpl LastIndex; [lia|].
  destruct (Z.leb_spec 0 (LastIndex s c)) as [Hr|Hr].
  - intros _. destruct (IH Hr) as [Hs Hlast].
    set (r := LastIndex s c) in *.
    replace (Z.to_nat (r + 1 + 1)) with (S (Z.to_nat (r + 1))) by lia.
    replace (Z.to_nat (r + 1)) with (S (Z.to_nat r)) at 1 by lia.
    cbn [string_take string_drop].
    split; [|exact Hlast].
    change (String x s
            = String x (string_take (Z.to_nat r) s
                        +:+ String c (string_drop (Z.to_nat (r + 1)) s))).
    by rewrite <- Hs.
  - destruct (Ascii.eqb_spec x c) as [->|Hne]; [|lia].
    intros _. simpl. split; [reflexivity|].
    destruct (LastIndex_range s c); lia.
Qed.

Lemma LastIndex_drop s c n : LastIndex s c = -1 -> LastIndex (string_drop n s) c = -1.
Proof.
  revert n. induction s as [|x s IH]; intros [|n] H; simpl; try exact H.
  apply IH. simpl in H.
  destruct (Z.leb_spec 0 (LastIndex s c)); [lia|].
  destruct (LastIndex_range s c); lia.
Qed.

Lemma string_drop_empty n s : (String.length s <= n)%nat -> string_drop n s = "".
Proof.
  revert n. induction s as [|x s IH]; intros [|n] H; simpl in *; try reflexivity; try lia.
  apply IH. lia.
Qed.

Lemma string_drop_nonempty n s : (n < String.length s)%nat -> string_drop n s <> "".
Proof.
  revert n. induction s as [|x s IH]; intros [|n] H; simpl in *; try lia; try discriminate.
  apply IH. lia.
Qed.

Lemma getPortFromNodeDefs_no_colon nodeDef key :
  LastIndex (getPortFromNodeDefs nodeDef key).1 ":" = -1.
Proof.
  unfold getPortFromNodeDefs.
  destruct (cbgt.GetFromParsedExtras nodeDef key) as [bindValue err]. simpl.
  destruct err as [e|]; [reflexivity|].
  destruct bindValue as [[bindStr|]|]; try reflexivity.
  destruct (Z.ltb_spec 0 (LastIndex bindStr ":" + 1)) as [Hpos|Hpos];
    destruct (Z.ltb_spec (LastIndex bindStr ":" + 1) (len bindStr)) as [Hlt|Hlt];
    simpl; try reflexivity.
  apply LastIndex_split. lia.
Qed.


Example getPort_node_a :
  getPortFromNodeDefs node_a "bindGRPC" = ("9130", None)
  /\ getPortFromNodeDefs node_a "bindHTTP" = ("", None).
Proof. vm_compute. split; reflexivity. Qed.

Example addGrpcClients_node_a :
  (fun c => (name c, HostPort c, PIndexNames c)) <$>
    match addGrpcClients env_plain None "idx" "u1" [plan_a1; plan_a2] None None true with
    | inl rv => rv
    | inr _ => []
    end
  = [("a:9130/idx/u1", "a:9130", ["p1"; "p2"])].
Proof. vm_compute. reflexivity. Qed.

(** ** addGrpcClients *)

Lemma choosePort_no_colon ss nodeDef : LastIndex (choosePort ss nodeDef).1 ":" = -1.
Proof.
  unfold choosePort.
  pose proof (getPortFromNodeDefs_no_colon nodeDef "bindGRPC") as H1.
  pose proof (getPortFromNodeDefs_no_colon nodeDef "bindGRPCSSL") as H2.
  destruct (getPortFromNodeDefs nodeDef "bindGRPC") as [p1 [e1|]];
    destruct (getPortFromNodeDefs nodeDef "bindGRPCSSL") as [p2 [e2|]];
    destruct (EncryptionEnabled ss); simpl in *; done.
Qed.

(** What a round does, by cases. *)
Lemma addGrpcClients_round_cases env mgr indexName indexUUID cp only rcs rp :
  let nodeDef := cbgt.Node rp in
  let port := (choosePort (GetSecuritySetting env) nodeDef).1 in
  let cert := (choosePort (GetSecuritySetting env) nodeDef).2 in
  let host := host_of nodeDef +:+ ":" +:+ port in
  addGrpcClients_round env mgr indexName indexUUID cp only rcs rp =
    if negb (admitted only rp) then inl rcs
    else if decide (port = "") then
           inr ("grpc_client: no ports found for host: " +:+ host_of nodeDef)
    else match getRpcClient env (cbgt.UUID nodeDef) host cert with
         | inr _ => inl rcs
         | inl cli =>
             inl (rcs ++
                  [{| Mgr := mgr; name := "grpcClient - " +:+ host; HostPort := host;
                      IndexName := indexName; IndexUUID := indexUUID;
                      PIndexNames := [cbgt.PlanPIndexName rp];
                      Consistency := cp; GrpcCli := cli;
                      lastSearchStatus := 0; lastErrBody := []; sc := None |}])
         end.
Proof.
  intros nodeDef port cert host. subst port cert host nodeDef.
  unfold addGrpcClients_round, admitted, host_of.
  destruct (filtered_out only (cbgt.PlanPIndexName rp)); [reflexivity|].
  set (hp := cbgt.HostPort (cbgt.Node rp)).
  destruct (Z.ltb_spec (LastIndex hp ":") 0) as [H0|H0];
    destruct (Z.leb_spec 0 (LastIndex hp ":")) as [H0'|H0']; try lia;
    [reflexivity|].
  destruct (Z.geb_spec (LastIndex hp ":") (len hp - 1)) as [H1|H1];
    destruct (Z.ltb_spec (LastIndex hp ":") (len hp - 1)) as [H1'|H1']; try lia;
    [reflexivity|].
  simpl. destruct (choosePort _ _) as [port cert]. reflexivity.
Qed.

Lemma addGrpcClients_loop_ok env mgr indexName indexUUID cp only rps :
  forall i rcs rv,
  addGrpcClients_loop env mgr indexName indexUUID cp only i rcs rps = inl rv ->
  exists new, rv = rcs ++ new /\
    (length new <= length rps)%nat /\
    forall c, c ∈ new ->
      exists j rp cli,
        rps !! j = Some rp
        /\ admitted only rp = true
        /\ (choosePort (GetSecuritySetting (env (i + j)%nat)) (cbgt.Node rp)).1 <> ""
        /\ getRpcClient (env (i + j)%nat) (cbgt.UUID (cbgt.Node rp)) (HostPort c)
             (choosePort (GetSecuritySetting (env (i + j)%nat)) (cbgt.Node rp)).2 = inl cli
        /\ c = client_made (env (i + j)%nat) mgr indexName indexUUID cp rp cli.
Proof.
  induction rps as [|rp rps IH]; intros i rcs rv H; cbn [addGrpcClients_loop] in H.
  - injection H as <-. exists []. rewrite app_nil_r. split; [done|]. split; [done|].
    intros c Hc. by apply elem_of_nil in Hc.
  - rewrite addGrpcClients_round_cases in H. cbv zeta in H.
    destruct (admitted only rp) eqn:Hadm; cbn [negb] in H.
    + destruct (decide _) as [Hp|Hp] in H; [discriminate|].
      destruct (getRpcClient _ _ _ _) as [cli|e] eqn:Hcli in H.
      * apply IH in H as (new & -> & Hlen & Hnew).
        exists (client_made (env i) mgr indexName indexUUID cp rp cli :: new).
        split; [by rewrite <- app_assoc|]. split; [simpl; lia|].
        intros c [->|Hc]%elem_of_cons.
        -- exists 0%nat, rp, cli. rewrite Nat.add_0_r. done.
        -- destruct (Hnew c Hc) as (j & rp' & cli' & ? & ? & ? & ? & ?).
           exists (S j), rp', cli'. by rewrite Nat.add_succ_r.
      * apply IH in H as (new & -> & Hlen & Hnew).
        exists new. split; [done|]. split; [simpl; lia|].
        intros c Hc. destruct (Hnew c Hc) as (j & rp' & cli' & ? & ? & ? & ? & ?).
        exists (S j), rp', cli'. by rewrite Nat.add_succ_r.
    + apply IH in H as (new & -> & Hlen & Hnew).
      exists new. split; [done|]. split; [simpl; lia|].
      intros c Hc. destruct (Hnew c Hc) as (j & rp' & cli' & ? & ? & ? & ? & ?).
      exists (S j), rp', cli'. by rewrite Nat.add_succ_r.
Qed.

Lemma addGrpcClients_loop_err env mgr indexName indexUUID cp only rps :
  forall i rcs err,
  addGrpcClients_loop env mgr indexName indexUUID cp only i rcs rps = inr err ->
  exists j rp,
    rps !! j = Some rp
    /\ admitted only rp = true
    /\ (choosePort (GetSecuritySetting (env (i + j)%nat)) (cbgt.Node rp)).1 = ""
    /\ err = "grpc_client: no ports found for host: " +:+ host_of (cbgt.Node rp).
Proof.
  induction rps as [|rp rps IH]; intros i rcs err H; cbn [addGrpcClients_loop] in H;
    [discriminate|].
  rewrite addGrpcClients_round_cases in H. cbv zeta in H.
  assert (forall rcs', addGrpcClients_loop env mgr indexName indexUUID cp only (S i) rcs' rps
                       = inr err ->
          exists j rp0, (rp :: rps) !! j = Some rp0 /\ admitted only rp0 = true
            /\ (choosePort (GetSecuritySetting (env (i + j)%nat)) (cbgt.Node rp0)).1 = ""
            /\ err = "grpc_client: no ports found for host: " +:+ host_of (cbgt.Node rp0))
    as Hrest.
  { intros rcs' H'. apply IH in H' as (j & rp' & ? & ? & ? & ?).
    exists (S j), rp'. by rewrite Nat.add_succ_r. }
  destruct (admitted only rp) eqn:Hadm; cbn [negb] in H; [|by eapply Hrest].
  destruct (decide _) as [Hp|Hp] in H.
  - injection H as <-. exists 0%nat, rp. rewrite Nat.add_0_r. done.
  - destruct (getRpcClient _ _ _ _) as [cli|e] in H; by eapply Hrest.
Qed.

Lemma addGrpcClients_loop_fails env mgr indexName indexUUID cp only rps :
  forall i rcs j rp,
  rps !! j = Some rp ->
  admitted only rp = true ->
  (choosePort (GetSecuritySetting (env (i + j)%nat)) (cbgt.Node rp)).1 = "" ->
  exists err, addGrpcClients_loop env mgr indexName indexUUID cp only i rcs rps = inr err.
Proof.
  induction rps as [|rp0 rps IH]; intros i rcs j rp Hj Hadm Hport; [done|].
  cbn [addGrpcClients_loop]. rewrite addGrpcClients_round_cases. cbv zeta.
  destruct j as [|j]; simpl in Hj.
  - injection Hj as ->. rewrite Nat.add_0_r in Hport.
    rewrite Hadm. cbn [negb]. rewrite decide_True by done. eauto.
  - rewrite Nat.add_succ_r in Hport.
    destruct (negb (admitted only rp0)); [by eapply (IH (S i))|].
    destruct (decide _); [eauto|].
    destruct (getRpcClient _ _ _ _); by eapply (IH (S i)).
Qed.

(** X23.  A call of [addGrpcClients] without grouping that succeeds
    returns at most one client per plan pindex, and each client comes
    from one round: a plan pindex the filter lets through, on a node
    whose HostPort has a host and a port part, for which a port was
    found and [getRpcClient] gave a connection.  The client is for the
    node's host with the port found, which holds no ":", carries that
    one pindex name and the index the call was made for. *)
Theorem addGrpcClients_clients env mgr indexName indexUUID rps cp only rv :
  addGrpcClients env mgr indexName indexUUID rps cp only false = inl rv ->
  (length rv <= length rps)%nat
  /\ forall c, c ∈ rv ->
     exists i rp port cli,
       rps !! i = Some rp
       /\ admitted only rp = true
       /\ port <> "" /\ LastIndex port ":" = -1
       /\ HostPort c = host_of (cbgt.Node rp) +:+ ":" +:+ port
       /\ name c = "grpcClient - " +:+ HostPort c
       /\ PIndexNames c = [cbgt.PlanPIndexName rp]
       /\ IndexName c = indexName /\ IndexUUID c = indexUUID
       /\ Mgr c = mgr /\ Consistency c = cp
       /\ GrpcCli c = cli
       /\ getRpcClient (env i) (cbgt.UUID (cbgt.Node rp)) (HostPort c)
            (choosePort (GetSecuritySetting (env i)) (cbgt.Node rp)).2 = inl cli.
Proof.
  unfold addGrpcClients. intros H.
  destruct (addGrpcClients_loop _ _ _ _ _ _ _ _ _) as [rcs|e] eqn:Hloop; [|discriminate].
  injection H as <-.
  apply addGrpcClients_loop_ok in Hloop as (new & -> & Hlen & Hnew).
  split; [done|]. intros c Hc.
  destruct (Hnew c Hc) as (j & rp & cli & Hj & Hadm & Hport & Hcli & ->).
  exists j, rp, (choosePort (GetSecuritySetting (env j)) (cbgt.Node rp)).1, cli.
  simpl in *. repeat split; try done. apply choosePort_no_colon.
Qed.

Lemma addGrpcClients_clients_witness :
  exists rv,
    addGrpcClients env_plain None "idx" "u1" [plan_a1; plan_a2] None None false = inl rv
    /\ (length rv <= 2)%nat.
Proof.
  exists [client_made (env_plain 0%nat) None "idx" "u1" None plan_a1 (Some 5%positive);
          client_made (env_plain 1%nat) None "idx" "u1" None plan_a2 (Some 5%positive)].
  assert (addGrpcClients env_plain None "idx" "u1" [plan_a1; plan_a2] None None false
  = inl [client_made (env_plain 0%nat) None "idx" "u1" None plan_a1 (Some 5%positive);
         client_made (env_plain 1%nat) None "idx" "u1" None plan_a2 (Some 5%positive)])
    as H by (vm_compute; reflexivity).
  split; [exact H|].
  exact (proj1 (addGrpcClients_clients env_plain None "idx" "u1" [plan_a1; plan_a2]
                  None None _ H)).
Defined.

(** X24.  [addGrpcClients] fails exactly when some plan pindex that
    the filter lets through, on a node whose HostPort has a host and a
    port part, has no port in its round; the error names the host of
    such a node.  An error of [getRpcClient] never makes the call
    fail. *)
Theorem addGrpcClients_fails_iff env mgr indexName indexUUID rps cp only groupByNode :
  (exists err, addGrpcClients env mgr indexName indexUUID rps cp only groupByNode = inr err)
  <-> (exists i rp, rps !! i = Some rp /\ admitted only rp = true
         /\ (choosePort (GetSecuritySetting (env i)) (cbgt.Node rp)).1 = "").
Proof.
  unfold addGrpcClients. split.
  - intros [err H].
    destruct (addGrpcClients_loop _ _ _ _ _ _ _ _ _) as [rcs|e] eqn:Hloop; [discriminate|].
    apply addGrpcClients_loop_err in Hloop as (j & rp & ? & ? & ? & ?).
    by exists j, rp.
  - intros (i & rp & Hi & Hadm & Hport).
    destruct (addGrpcClients_loop_fails env mgr indexName indexUUID cp only rps
                0 [] i rp Hi Hadm Hport) as [err ->].
    by exists err.
Qed.

(** X25.  With encryption on, a node whose "bindGRPCSSL" extra is a
    string without a port makes the whole call fail, whatever its
    "bindGRPC" extra says and whatever the other nodes are: the empty
    TLS port replaces the plain one. *)
Theorem tls_binding_without_port_fails
  env mgr indexName indexUUID rps cp only groupByNode i rp bindStr :
  rps !! i = Some rp ->
  admitted only rp = true ->
  EncryptionEnabled (GetSecuritySetting (env i)) = true ->
  cbgt.GetFromParsedExtras (cbgt.Node rp) "bindGRPCSSL"
    = (Some (ExtraString bindStr), None) ->
  LastIndex bindStr ":" = -1 ->
  exists err,
    addGrpcClients env mgr indexName indexUUID rps cp only groupByNode = inr err.
Proof.
  intros Hi Hadm Henc Hssl Hlast. unfold addGrpcClients.
  destruct (addGrpcClients_loop_fails env mgr indexName indexUUID cp only rps
              0 [] i rp Hi Hadm) as [err ->]; [|by exists err].
  simpl. unfold choosePort. rewrite Henc.
  destruct (getPortFromNodeDefs (cbgt.Node rp) "bindGRPC") as [p1 e1].
  unfold getPortFromNodeDefs. rewrite Hssl, Hlast. reflexivity.
Qed.

Lemma tls_binding_without_port_fails_witness :
  exists err,
    addGrpcClients env_tls None "idx" "u1" [plan_a1; plan_b] None None true = inr err.
Proof.
  apply (tls_binding_without_port_fails env_tls None "idx" "u1" [plan_a1; plan_b]
           None None true 1%nat plan_b "0.0.0.0"); reflexivity.
Defined.

Example tls_binding_plain_ok :
  (fun c => (HostPort c, PIndexNames c)) <$>
    match addGrpcClients env_plain None "idx" "u1" [plan_a1; plan_b] None None true with
    | inl rv => rv
    | inr _ => []
    end
  = [("a:9130", ["p1"]); ("b:9130", ["p3"])].
Proof. vm_compute. reflexivity. Qed.

Lemma string_app_length (a b : string) :
  String.length (a +:+ b) = (String.length a + String.length b)%nat.
Proof. induction a as [|x a IH]; simpl; [reflexivity|]. by rewrite IH. Qed.

Lemma string_app_inv_tail (a b s : string) : a +:+ s = b +:+ s -> a = b.
Proof.
  revert b. induction a as [|x a IH]; intros [|y b] H; simpl in H.
  - reflexivity.
  - apply (f_equal String.length) in H. cbn [String.length] in H.
    rewrite ?string_app_length in H. cbn [String.length] in H. rewrite ?string_app_length in H. lia.
  - apply (f_equal String.length) in H. cbn [String.length] in H.
    rewrite ?string_app_length in H. cbn [String.length] in H. rewrite ?string_app_length in H. lia.
  - injection H as -> H. f_equal. by apply IH.
Qed.

Lemma filter_ext_elem {A} (P Q : A -> Prop) `{!forall x, Decision (P x)}
  `{!forall x, Decision (Q x)} (l : list A) :
  (forall x, x ∈ l -> P x <-> Q x) -> filter P l = filter Q l.
Proof.
  induction l as [|x l IH]; intros Hext; [reflexivity|].
  rewrite !filter_cons.
  assert (filter P l = filter Q l) as ->.
  { apply IH. intros y Hy. apply Hext. by apply list_elem_of_further. }
  destruct (decide (P x)) as [Hp|Hp], (decide (Q x)) as [Hq|Hq]; try reflexivity;
    exfalso; pose proof (Hext x (list_elem_of_here _ _)); tauto.
Qed.

(** X26.  With [groupByNode], a call of [addGrpcClients] that succeeds
    returns one client per host:port among the clients the call
    without grouping returns: no host:port twice, none lost, each
    client named host:port/index/uuid and holding the pindex names of
    all the ungrouped clients of its host:port, in their order. *)
Theorem addGrpcClients_grouped env mgr indexName indexUUID rps cp only rv :
  addGrpcClients env mgr indexName indexUUID rps cp only true = inl rv ->
  exists plain,
    addGrpcClients env mgr indexName indexUUID rps cp only false = inl plain
    /\ NoDup (HostPort <$> rv)
    /\ (forall hp, hp ∈ HostPort <$> rv <-> hp ∈ HostPort <$> plain)
    /\ (forall c, c ∈ rv ->
          name c = HostPort c +:+ "/" +:+ indexName +:+ "/" +:+ indexUUID
          /\ PIndexNames c
             = concat (PIndexNames <$> filter (fun x => HostPort x = HostPort c) plain)).
Proof.
  unfold addGrpcClients.
  destruct (addGrpcClients_loop _ _ _ _ _ _ _ _ _) as [plain|e] eqn:Hloop; [|discriminate].
  intros [= <-]. exists plain. split; [reflexivity|].
  set (suffix := "/" +:+ indexName +:+ "/" +:+ indexUUID).
  assert (Hplain : forall x, x ∈ plain -> groupByKey x = HostPort x +:+ suffix).
  { apply addGrpcClients_loop_ok in Hloop as (new & -> & _ & Hnew). simpl.
    intros x Hx. destruct (Hnew x Hx) as (j & rp & cli & _ & _ & _ & _ & ->).
    reflexivity. }
  destruct (group_inv_state plain) as (Hnd & _ & Hkeys & Hval & _ & Hnames).
  assert (Hrv : forall c, c ∈ GroupGrpcClientsByHostPort plain ->
            name c = HostPort c +:+ suffix /\ groupByKey c = HostPort c +:+ suffix
            /\ PIndexNames c = concat (PIndexNames <$> with_key (name c) plain)).
  { rewrite Group_unfold. intros c Hc. apply deref_elem in Hc as (k & _ & Hc).
    destruct (Hval k c Hc)
      as (Hn & Hk & Hp & _ & _ & _ & first & Hfirst & _ & Hhp & Hin & Hiu & _).
    assert (first ∈ with_key k plain) as Hf.
    { destruct (with_key k plain); [discriminate|]. injection Hfirst as ->.
      apply list_elem_of_here. }
    unfold with_key in Hf. apply list_elem_of_filter in Hf as [Hfk Hf].
    assert (k = HostPort c +:+ suffix) as Hkc.
    { rewrite <- Hfk, (Hplain first Hf), Hhp. reflexivity. }
    rewrite Hn, Hk. rewrite <- Hkc. by rewrite <- Hp. }
  assert (Hmap : name <$> GroupGrpcClientsByHostPort plain
                 = (fun hp => hp +:+ suffix) <$> (HostPort <$> GroupGrpcClientsByHostPort plain)).
  { rewrite <- list_fmap_compose.
    induction (GroupGrpcClientsByHostPort plain) as [|c r IH]; [reflexivity|].
    rewrite !fmap_cons. f_equal.
    - apply Hrv, list_elem_of_here.
    - apply IH. intros y Hy. apply Hrv. by apply list_elem_of_further. }
  assert (Hmap' : groupByKey <$> plain = (fun hp => hp +:+ suffix) <$> (HostPort <$> plain)).
  { rewrite <- list_fmap_compose. clear -Hplain.
    induction plain as [|c r IH]; [reflexivity|].
    rewrite !fmap_cons. f_equal.
    - apply Hplain, list_elem_of_here.
    - apply IH. intros y Hy. apply Hplain. by apply list_elem_of_further. }
  rewrite <- Group_unfold in Hnames.
  split; [|split].
  - apply (NoDup_fmap_1 (fun hp => hp +:+ suffix)). by rewrite <- Hmap, Hnames.
  - intros hp.
    assert (Inj eq eq (fun hp : string => hp +:+ suffix)) as Hinj.
    { intros a b. apply string_app_inv_tail. }
    rewrite <- (list_elem_of_fmap_inj (fun hp => hp +:+ suffix) (HostPort <$> _) hp).
    rewrite <- (list_elem_of_fmap_inj (fun hp => hp +:+ suffix) (HostPort <$> plain) hp).
    rewrite <- Hmap, <- Hmap', Hnames. apply Hkeys.
  - intros c Hc. destruct (Hrv c Hc) as (Hn & _ & Hp). split; [exact Hn|].
    rewrite Hp. unfold with_key. f_equal. f_equal.
    apply filter_ext_elem. intros x Hx. rewrite Hn, (Hplain x Hx). split.
    + apply string_app_inv_tail.
    + by intros ->.
Qed.

Lemma addGrpcClients_grouped_witness :
  exists rv plain,
    addGrpcClients env_plain None "idx" "u1" [plan_a1; plan_a2] None None true = inl rv
    /\ addGrpcClients env_plain None "idx" "u1" [plan_a1; plan_a2] None None false = inl plain
    /\ NoDup (HostPort <$> rv).
Proof.
  set (rv := [{| Mgr := None; name := "a:9130/idx/u1"; HostPort := "a:9130";
                 IndexName := "idx"; IndexUUID := "u1"; PIndexNames := ["p1"; "p2"];
                 Consistency := None; GrpcCli := Some 5%positive;
                 lastSearchStatus := 0; lastErrBody := []; sc := None |}]).
  assert (addGrpcClients env_plain None "idx" "u1" [plan_a1; plan_a2] None None true = inl rv)
    as H by (vm_compute; reflexivity).
  exists rv.
  destruct (addGrpcClients_grouped env_plain None "idx" "u1" [plan_a1; plan_a2]
              None None rv H) as (plain & Hplain & Hnd & _).
  exists plain. split; [exact H|]. split; [exact Hplain|exact Hnd].
Defined.

(** ** SearchRPC *)

Example SearchRPC_failing_handler :
  SearchRPC (fun _ => failing_handler) keep_last (Some stream_1, None) [] streaming_client
  = Return (Some ["r"%char], None, [batch_1; batch_2]).
Proof. vm_compute. reflexivity. Qed.

Lemma SearchRPC_switch_handlers {SR : Type} (w1 w2 : streamHandler)
  (U : list ascii -> SR -> SR * option rpcError) (st1 st2 : searchState SR) response :
  searchResult st1 = searchResult st2 -> written st1 = written st2 ->
  match SearchRPC_switch (Some w1) U st1 response,
        SearchRPC_switch (Some w2) U st2 response with
  | Continue a, Continue b => searchResult a = searchResult b /\ written a = written b
  | Return a, Return b => a = b
  | Panic, Panic => True
  | _, _ => False
  end.
Proof.
  intros Hs Hw. destruct st1 as [s1 e1 wr1], st2 as [s2 e2 wr2]. simpl in *. subst.
  destruct response as [[b|]|[bytes|]|]; simpl; try done.
  - by destruct (w1 wr2 b), (w2 wr2 b).
  - destruct (U bytes s2) as [sr [e|]]; done.
Qed.

Lemma SearchRPC_loop_handlers {SR : Type} (w1 w2 : streamHandler)
  (U : list ascii -> SR -> SR * option rpcError) responses last :
  forall st1 st2 : searchState SR,
  searchResult st1 = searchResult st2 -> written st1 = written st2 ->
  SearchRPC_loop (Some w1) U st1 responses last
  = SearchRPC_loop (Some w2) U st2 responses last.
Proof.
  induction responses as [|response rest IH]; intros st1 st2 Hs Hw; cbn [SearchRPC_loop].
  - rewrite Hs, Hw. reflexivity.
  - pose proof (SearchRPC_switch_handlers w1 w2 U
                  {| searchResult := searchResult st1; err := None; written := written st1 |}
                  {| searchResult := searchResult st2; err := None; written := written st2 |}
                  response Hs Hw) as H.
    destruct (SearchRPC_switch (Some w1) _ _ _) as [a|a|],
             (SearchRPC_switch (Some w2) _ _ _) as [b|b|]; try done.
    + destruct H. by apply IH.
    + by rewrite H.
Qed.

(** X27.  What the stream handler answers to a write has no part in
    what [SearchRPC] does: with any two handlers the call returns the
    same result and the same error and hands over the same batches.  So
    a write that fails neither stops the stream nor is reported. *)
Theorem SearchRPC_ignores_write_errors {SR : Type}
  (handlers1 handlers2 : positive -> streamHandler)
  (UnmarshalJSON : list ascii -> SR -> SR * option rpcError)
  (Search : option stream * option rpcError) (fresh : SR) (g : GrpcClient) :
  SearchRPC handlers1 UnmarshalJSON Search fresh g
  = SearchRPC handlers2 UnmarshalJSON Search fresh g.
Proof.
  unfold SearchRPC. destruct (GrpcCli g) as [cli|]; [|reflexivity].
  destruct Search as [[[responses last]|] [e|]]; try reflexivity.
  destruct (sc g) as [p|]; simpl; [|reflexivity].
  by rewrite (SearchRPC_loop_handlers (handlers1 p) (handlers2 p)
                UnmarshalJSON responses last _ _ eq_refl eq_refl).
Qed.

Lemma SearchRPC_loop_nil_error {SR : Type} (sw : option streamHandler)
  (U : list ascii -> SR -> SR * option rpcError) responses last :
  forall st st' : searchState SR,
  SearchRPC_loop sw U st responses last = Return st' ->
  err st' = None ->
  last = EOF
  /\ searchResult st' = unmarshal_all U (results_of responses) (searchResult st)
  /\ written st' = written st ++ match sw with Some _ => batches_of responses | None => [] end.
Proof.
  induction responses as [|response rest IH]; intros st st' H He; cbn [SearchRPC_loop] in H.
  - destruct last; injection H as <-; simpl in *; [|discriminate].
    destruct sw; by rewrite app_nil_r.
  - destruct response as [[b|]|[bytes|]|]; simpl in H.
    + destruct sw as [w|].
      * assert (SearchRPC_loop (Some w) U
                  {| searchResult := searchResult st; err := w (written st) b;
                     written := written st ++ [b] |} rest last = Return st') as H'
          by (by destruct (w (written st) b)).
        destruct (IH _ _ H' He) as (? & ? & Hw). simpl in *.
        split; [done|]. split; [done|]. by rewrite Hw, <- app_assoc.
      * destruct (IH _ _ H He) as (? & ? & Hw). done.
    + destruct sw as [w|]; [discriminate|].
      destruct (IH _ _ H He) as (? & ? & Hw). done.
    + unfold results_of, unmarshal_all. cbn [omap list_omap foldl].
      destruct (U bytes (searchResult st)) as [sr [e|]] eqn:HU; simpl in H.
      * injection H as <-. discriminate.
      * destruct (IH _ _ H He) as (? & Hs & Hw). simpl in *.
        split; [done|]. split; [|by destruct sw].
        rewrite Hs. reflexivity.
    + destruct (IH _ _ H He) as (? & ? & Hw). simpl in *. by destruct sw.
    + destruct (IH _ _ H He) as (? & ? & Hw). simpl in *. by destruct sw.
Qed.

(** X28.  When [Search] gave a stream and [SearchRPC] returns no
    error, the stream has ended with [io.EOF]; the result is the fresh
    one with every search result of the stream unmarshalled into it in
    turn; and a client with a stream handler has handed it every batch
    of the stream, in order. *)
Theorem SearchRPC_nil_error {SR : Type} (streamHandlers : positive -> streamHandler)
  (UnmarshalJSON : list ascii -> SR -> SR * option rpcError)
  (responses : list pb.Contents) (last : recvEnd) (fresh : SR) (g : GrpcClient)
  (rv : option SR) (handed : list pb.StreamSearchResults_Batch) :
  SearchRPC streamHandlers UnmarshalJSON (Some (responses, last), None) fresh g
    = Return (rv, None, handed) ->
  last = EOF
  /\ rv = Some (unmarshal_all UnmarshalJSON (results_of responses) fresh)
  /\ handed = match sc g with Some _ => batches_of responses | None => [] end.
Proof.
  unfold SearchRPC. destruct (GrpcCli g) as [cli|]; [|discriminate].
  destruct (SearchRPC_loop _ _ _ _ _) as [st|st|] eqn:Hloop; try discriminate.
  - exfalso. clear -Hloop.
    revert Hloop. generalize {| searchResult := fresh; err := None; written := [] |}.
    induction responses as [|response rest IH]; intros st0; cbn [SearchRPC_loop].
    + by destruct last.
    + destruct (SearchRPC_switch _ _ _ _); try done. apply IH.
  - intros [= <- He <-].
    destruct (SearchRPC_loop_nil_error _ _ _ _ _ _ Hloop He) as (? & ? & Hw). simpl in *.
    split; [done|]. split; [by f_equal|]. rewrite Hw. by destruct (sc g).
Qed.

Lemma SearchRPC_nil_error_witness :
  SearchRPC (fun _ => failing_handler) keep_last (Some stream_1, None) [] streaming_client
    = Return (Some ["r"%char], None, [batch_1; batch_2])
  /\ snd stream_1 = EOF.
Proof.
  assert (SearchRPC (fun _ => failing_handler) keep_last
            (Some (fst stream_1, snd stream_1), None) [] streaming_client
          = Return (Some ["r"%char], None, [batch_1; batch_2])) as H
    by (vm_compute; reflexivity).
  split; [exact H|].
  exact (proj1 (SearchRPC_nil_error _ _ _ _ _ _ _ _ H)).
Defined.
